(** * Cloak server: the TLS camouflage handshake ([internal/server/TLS.go])

    A shallow embedding of the ClientHello decoder, the key-share
    extractor, the reply composer and [PrepareConnection], with the
    properties of the handshake layer proved over it.

    Conventions of the embedding.
    - A Go slice is a view [{off; len; cap}] of a backing array; the
      array is a [list byte].  Slice expressions are bounds-checked
      against the capacity, index expressions against the length, as the
      Go runtime does, and a failed check is the outcome [Panic].
    - [int] is 64 bits wide in Go.  Every integer of this file is a
      length or an offset of a buffer that was received whole, or the
      sum of such an offset and a 16-bit field, so no operation wraps;
      they are modelled as [nat].  The one narrowing conversion,
      [uint16(len(input))] in [addRecordLayer], is written out.
    - A function with [defer func() { recover() ... }()] is modelled by
      a body in the [outcome] monad and a wrapper that turns [Panic]
      into the values the named results hold at that point. *)

From Stdlib Require Import Strings.Byte.
From stdpp Require Import base option list gmap strings.

Abbreviation byte := Byte.byte.

#[global] Instance byte_eq_dec : EqDecision byte := Byte.byte_eq_dec.
#[global] Instance byte_countable : Countable byte :=
  inj_countable Byte.to_N Byte.of_N Byte.of_to_N.

(** ** Panics *)

Inductive outcome (A : Type) : Type :=
| Ret (a : A)
| Panic.
Arguments Ret {A} a.
Arguments Panic {A}.

#[global] Instance outcome_ret : MRet outcome := @Ret.
#[global] Instance outcome_bind : MBind outcome := fun A B f m =>
  match m with
  | Ret a => f a
  | Panic => Panic
  end.

(** ** Slices *)

Record slice : Type := Slice { off : nat; len : nat; cap : nat }.

#[global] Instance slice_eq_dec : EqDecision slice.
Proof. solve_decision. Defined.

(** The nil slice: what a map lookup of an absent key and an unassigned
    named result give. *)
Definition nil_slice : slice := Slice 0 0 0.

(** The slice a fresh array is handed out as ([make], a conversion, the
    result of [append] into a new array). *)
Definition whole (arr : list byte) : slice := Slice 0 (length arr) (length arr).

(** The bytes a slice shows. *)
Definition bytes_of (mem : list byte) (s : slice) : list byte :=
  take (len s) (drop (off s) mem).

(** A slice lies within its array. *)
Definition slice_ok (mem : list byte) (s : slice) : Prop :=
  len s ≤ cap s ∧ off s + cap s ≤ length mem.

(** [s[lo:hi]]: the runtime checks [lo <= hi <= cap(s)]. *)
Definition slice_range (s : slice) (lo hi : nat) : outcome slice :=
  if (lo <=? hi) && (hi <=? cap s)
  then Ret (Slice (off s + lo) (hi - lo) (cap s - lo))
  else Panic.

(** [s[lo:]]: the upper bound defaults to [len(s)]. *)
Definition slice_from (s : slice) (lo : nat) : outcome slice :=
  slice_range s lo (len s).

(** [s[:hi]]. *)
Definition slice_to (s : slice) (hi : nat) : outcome slice :=
  slice_range s 0 hi.

(** [s[i]]: the runtime checks [i < len(s)]. *)
Definition slice_at (mem : list byte) (s : slice) (i : nat) : outcome byte :=
  if i <? len s then Ret (default x00 (mem !! (off s + i))) else Panic.

(** [make([]byte, n - k)] with [n - k] computed on [int]: a negative
    length panics. *)
Definition make_len (n k : nat) : outcome nat :=
  if k <=? n then Ret (n - k) else Panic.

(** [binary.BigEndian.Uint16(b)]; its [_ = b[1]] is the bounds check. *)
Definition u16 (mem : list byte) (b : slice) : outcome nat :=
  b1 ← slice_at mem b 1;
  b0 ← slice_at mem b 0;
  Ret (Byte.to_nat b0 * 256 + Byte.to_nat b1).

(** [binary.BigEndian.Uint32(b)]; its [_ = b[3]] is the bounds check. *)
Definition u32 (mem : list byte) (b : slice) : outcome nat :=
  b3 ← slice_at mem b 3;
  b0 ← slice_at mem b 0;
  b1 ← slice_at mem b 1;
  b2 ← slice_at mem b 2;
  Ret (((Byte.to_nat b0 * 256 + Byte.to_nat b1) * 256
        + Byte.to_nat b2) * 256 + Byte.to_nat b3).

(** [byte(n)] for an [int]: the low eight bits. *)
Definition byte_of_nat (n : nat) : byte :=
  default x00 (Byte.of_nat (n mod 256)).

(** [binary.BigEndian.PutUint16(length, v)]. *)
Definition put_u16 (v : nat) : list byte :=
  [byte_of_nat (v / 256); byte_of_nat v].

(** [append(s, t...)] for a slice [s] of [mem]: the bytes of [t] are
    written behind [s] in place when the capacity of [s] allows, which
    every slice sharing that part of the array then sees; otherwise the
    result is a new array and [mem] is untouched.  Returns the array
    afterwards and the contents of the result. *)
Definition append_in (mem : list byte) (s : slice) (t : list byte)
  : list byte * list byte :=
  if len s + length t <=? cap s
  then
    let mem' := take (off s + len s) mem ++ t ++ drop (off s + len s + length t) mem in
    (mem', bytes_of mem' (Slice (off s) (len s + length t) (cap s)))
  else (mem, bytes_of mem s ++ t).

(** ** Errors *)

Inductive error : Type :=
| ErrMalformedExtensions            (* "Malformed Extensions" *)
| ErrMalformedKeyShare              (* "malformed key_share" *)
| ErrKeyShareLength (length : nat)  (* "key share length should be 32, instead of %v" *)
| ErrNoX25519                       (* "x25519 does not exist" *)
| ErrWrongMagic                     (* "wrong TLS1.3 handshake magic bytes" *)
| ErrNotAClientHello                (* "Not a ClientHello" *)
| ErrHelloLength                    (* "Hello length doesn't match" *)
| ErrMalformedClientHello           (* "Malformed ClientHello" *)
| ErrBadClientHello                 (* "non (or malformed) ClientHello" *)
| ErrNotCloak                       (* "TLS but non-Cloak ClientHello" *)
| ErrReplay                         (* "duplicate random" *)
| ErrBadProxyMethod                 (* "invalid proxy method" *)
| ErrInvalidPubKey                  (* declared elsewhere in package server *)
| ErrCiphertextLength (n : nat)     (* fmt.Errorf("%v: %v", ErrCiphertextLength, n) *)
| ErrCollaborator (msg : string).   (* an error of touchStone, AESGCMEncrypt or conn.Write *)

#[global] Instance error_eq_dec : EqDecision error.
Proof. solve_decision. Defined.

(** ** The ClientHello *)

Record ClientHello : Type := mkClientHello {
  handshakeType : byte;
  length_ : nat;
  clientVersion : slice;
  random : slice;
  sessionIdLen : nat;
  sessionId : slice;
  cipherSuitesLen : nat;
  cipherSuites : slice;
  compressionMethodsLen : nat;
  compressionMethods : slice;
  extensionsLen : nat;
  extensions : gmap (byte * byte) slice
}.

(** ** parseExtensions *)

(** One turn of the loop body, up to the assignment [ret[typ] = data]. *)
Definition parseExtensions_entry (mem : list byte) (input : slice) (pointer : nat)
  : outcome ((byte * byte) * slice * nat) :=
  t ← slice_range input pointer (pointer + 2);
  t0 ← slice_at mem t 0;
  t1 ← slice_at mem t 1;
  let typ := (t0, t1) in
  let pointer := pointer + 2 in
  l ← slice_range input pointer (pointer + 2);
  length ← u16 mem l;
  let pointer := pointer + 2 in
  data ← slice_range input pointer (pointer + length);
  let pointer := pointer + length in
  Ret (typ, data, pointer).

(** The [for pointer < totalLen] loop with the recovery around it: a
    panic leaves [ret] as filled so far and sets the error.  [None] is
    an exhausted [fuel]. *)
Fixpoint parseExtensions_loop (fuel : nat) (mem : list byte) (input : slice)
    (pointer : nat) (ret : gmap (byte * byte) slice)
  : option (gmap (byte * byte) slice * option error) :=
  if pointer <? len input then
    match fuel with
    | O => None
    | S fuel =>
        match parseExtensions_entry mem input pointer with
        | Panic => Some (ret, Some ErrMalformedExtensions)
        | Ret (typ, data, pointer) =>
            parseExtensions_loop fuel mem input pointer (<[typ := data]> ret)
        end
    end
  else Some (ret, None).

(** Every turn moves [pointer] forward by four or more, so [len input]
    turns are enough (see [parseExtensions_loop_fuel]). *)
Definition parseExtensions (mem : list byte) (input : slice)
  : gmap (byte * byte) slice * option error :=
  default (∅, Some ErrMalformedExtensions)
          (parseExtensions_loop (len input) mem input 0 ∅).

(** A region of well-formed entries {type, length, payload}, and the
    payload of the last entry of a type in it. *)
Definition ext_entry (typ : byte * byte) (payload : list byte) : list byte :=
  [typ.1; typ.2] ++ put_u16 (length payload) ++ payload.

Definition encode_extensions (es : list ((byte * byte) * list byte)) : list byte :=
  concat ((λ e, ext_entry e.1 e.2) <$> es).

Fixpoint last_payload (typ : byte * byte) (es : list ((byte * byte) * list byte))
  : option (list byte) :=
  match es with
  | [] => None
  | (t, payload) :: es =>
      match last_payload typ es with
      | Some p => Some p
      | None => if decide (t = typ) then Some payload else None
      end
  end.

(** ** parseKeyShare *)

(** One turn of the loop: either the function returns ([inr]) or the
    loop goes on at a new [pointer] ([inl]). *)
Definition parseKeyShare_entry (mem : list byte) (input : slice) (pointer : nat)
  : outcome (nat + slice * option error) :=
  g ← slice_range input pointer (pointer + 2);
  if bool_decide ([x00; x1d] = bytes_of mem g) then
    let pointer := pointer + 2 in
    l ← slice_range input pointer (pointer + 2);
    length ← u16 mem l;
    let pointer := pointer + 2 in
    if negb (length =? 32) then Ret (inr (nil_slice, Some (ErrKeyShareLength length)))
    else
      r ← slice_range input pointer (pointer + length);
      Ret (inr (r, None))
  else
    let pointer := pointer + 2 in
    l ← slice_range input pointer (pointer + 2);
    length ← u16 mem l;
    let pointer := pointer + 2 in
    _ ← slice_range input pointer (pointer + length);
    let pointer := pointer + length in
    Ret (inl pointer).

Fixpoint parseKeyShare_loop (fuel : nat) (mem : list byte) (input : slice)
    (totalLen pointer : nat) : option (outcome (slice * option error)) :=
  if pointer <? totalLen then
    match fuel with
    | O => None
    | S fuel =>
        match parseKeyShare_entry mem input pointer with
        | Panic => Some Panic
        | Ret (inr r) => Some (Ret r)
        | Ret (inl pointer) => parseKeyShare_loop fuel mem input totalLen pointer
        end
    end
  else Some (Ret (nil_slice, Some ErrNoX25519)).

Definition parseKeyShare_body (mem : list byte) (input : slice)
  : option (outcome (slice * option error)) :=
  match h ← slice_range input 0 2; u16 mem h with
  | Panic => Some Panic
  | Ret totalLen => parseKeyShare_loop totalLen mem input totalLen 2
  end.

(** The recovery sets [err]; [ret] is still nil then, since a panic can
    only come before the operands of a [return] are evaluated.  As in
    [parseExtensions], [totalLen] turns are enough
    (see [parseKeyShare_body_fuel]). *)
Definition parseKeyShare (mem : list byte) (input : slice) : slice * option error :=
  match parseKeyShare_body mem input with
  | Some (Ret r) => r
  | Some Panic | None => (nil_slice, Some ErrMalformedKeyShare)
  end.

(** ** addRecordLayer *)

(** [copy(dst, src)]: the first [min(len(dst), len(src))] bytes. *)
Definition go_copy (dst src : list byte) : list byte :=
  take (length dst) src ++ drop (length src) dst.

Definition addRecordLayer (input typ ver : list byte) : list byte :=
  let length_ := put_u16 (length input mod (256 * 256)) in
  let ret := replicate (5 + length input) x00 in
  let ret := go_copy (take 1 ret) typ ++ drop 1 ret in
  let ret := take 1 ret ++ go_copy (take 2 (drop 1 ret)) ver ++ drop 3 ret in
  let ret := take 3 ret ++ go_copy (take 2 (drop 3 ret)) length_ ++ drop 5 ret in
  let ret := take 5 ret ++ go_copy (drop 5 ret) input in
  ret.

(** ** parseClientHello *)

Definition parseClientHello_body (arr : list byte) (data : slice)
  : outcome (list byte * option ClientHello * option error) :=
  magic ← slice_range data 0 3;
  if negb (bool_decide (bytes_of arr magic = [x16; x03; x01]))
  then Ret ([], None, Some ErrWrongMagic) else
  n ← make_len (len data) 5;
  src ← slice_from data 5;
  let mem := go_copy (replicate n x00) (bytes_of arr src) in
  let peeled := whole mem in
  let pointer := 0 in
  (* Handshake Type *)
  handshakeType ← slice_at mem peeled pointer;
  if negb (bool_decide (handshakeType = x01))
  then Ret (mem, None, Some ErrNotAClientHello) else
  let pointer := pointer + 1 in
  (* Length *)
  l ← slice_range peeled pointer (pointer + 3);
  let be := x00 :: bytes_of mem l in
  length ← u32 be (whole be);
  let pointer := pointer + 3 in
  rest ← slice_from peeled pointer;
  if negb (length =? len rest)
  then Ret (mem, None, Some ErrHelloLength) else
  (* Client Version *)
  clientVersion ← slice_range peeled pointer (pointer + 2);
  let pointer := pointer + 2 in
  (* Random *)
  random ← slice_range peeled pointer (pointer + 32);
  let pointer := pointer + 32 in
  (* Session ID *)
  b ← slice_at mem peeled pointer;
  let sessionIdLen := Byte.to_nat b in
  let pointer := pointer + 1 in
  sessionId ← slice_range peeled pointer (pointer + sessionIdLen);
  let pointer := pointer + sessionIdLen in
  (* Cipher Suites *)
  l ← slice_range peeled pointer (pointer + 2);
  cipherSuitesLen ← u16 mem l;
  let pointer := pointer + 2 in
  cipherSuites ← slice_range peeled pointer (pointer + cipherSuitesLen);
  let pointer := pointer + cipherSuitesLen in
  (* Compression Methods *)
  b ← slice_at mem peeled pointer;
  let compressionMethodsLen := Byte.to_nat b in
  let pointer := pointer + 1 in
  compressionMethods ← slice_range peeled pointer (pointer + compressionMethodsLen);
  let pointer := pointer + compressionMethodsLen in
  (* Extensions *)
  l ← slice_range peeled pointer (pointer + 2);
  extensionsLen ← u16 mem l;
  let pointer := pointer + 2 in
  ext ← slice_from peeled pointer;
  let '(extensions, err) := parseExtensions mem ext in
  Ret (mem,
       Some (mkClientHello handshakeType length clientVersion random
               sessionIdLen sessionId cipherSuitesLen cipherSuites
               compressionMethodsLen compressionMethods extensionsLen extensions),
       err).

(** The deferred recovery: on a panic [ret] is still nil and [err] is
    set.  The first component is the array [peeled] the slices of the
    ClientHello view. *)
Definition parseClientHello (arr : list byte) (data : slice)
  : list byte * option ClientHello * option error :=
  match parseClientHello_body arr data with
  | Ret r => r
  | Panic => ([], None, Some ErrMalformedClientHello)
  end.

(** ** The server state and the collaborators *)

(** Modelled from the spec: the payload handed to the authentication
    decision service, {nonce, shared secret, ciphertext-with-tag}; the
    struct is declared in another file of package server.  The fields
    hold the contents of the three slices at the time the struct is
    passed on. *)
Record authenticationInfo : Type := mkAuthenticationInfo {
  sharedSecret : list byte;
  nonce : list byte;
  ciphertextWithTag : list byte
}.

(** Modelled from the spec: the verdict of the decision service, which
    "identifies the requesting proxy method and any per-client metadata
    needed downstream"; declared in another file of package server. *)
Record ClientInfo : Type := mkClientInfo {
  ProxyMethod : string;
  metadata : list byte
}.

Inductive event : Type :=
| EvLogDebug (e : error)                     (* log.Debug(err) *)
| EvRegisterRandom (r : list byte)           (* sta.registerRandom(ch.random) *)
| EvEcdhUnmarshal (r : list byte)            (* ecdh.Unmarshal(ch.random) *)
| EvGenerateSharedSecret                     (* ecdh.GenerateSharedSecret(staticPv, ephPub) *)
| EvTouchStone (ai : authenticationInfo)     (* touchStone(ai, sta.Now) *)
| EvProxyBook (method : string)              (* sta.ProxyBook[info.ProxyMethod] *)
| EvRandRead (n : nat)                       (* rand.Read of n bytes *)
| EvAESGCMEncrypt (nonce key plaintext : list byte)
| EvConnWrite (b : list byte)                (* conn.Write(reply) *)
| EvConnClose.                               (* go conn.Close() *)

(** What a call can change: the set of randoms the replay guard has
    seen (a field of [*State], shared by all connections), the bytes
    [crypto/rand] will hand out next, and the calls made so far, oldest
    first. *)
Record world : Type := World {
  usedRandom : gset (list byte);
  entropy : nat → byte;
  trace : list event
}.

(** The transport writes among the calls of a trace. *)
Definition conn_writes (evs : list event) : list (list byte) :=
  omap (λ e, match e with EvConnWrite b => Some b | _ => None end) evs.

Definition IO (A : Type) : Type := world → outcome A * world.

#[global] Instance IO_ret : MRet IO := fun A a w => (Ret a, w).
#[global] Instance IO_bind : MBind IO := fun A B f m w =>
  match m w with
  | (Ret a, w') => f a w'
  | (Panic, w') => (Panic, w')
  end.

Definition lift {A} (o : outcome A) : IO A := fun w => (o, w).

Definition emit (e : event) : IO unit := fun w =>
  (Ret tt, World (usedRandom w) (entropy w) (trace w ++ [e])).

(** [rand.Read(b)] for a [b] of [n] bytes. *)
Definition rand_Read (n : nat) : IO (list byte) := fun w =>
  (Ret (entropy w <$> seq 0 n),
   World (usedRandom w) (fun i => entropy w (n + i)) (trace w ++ [EvRandRead n])).

(** Modelled from the spec: the Replay Guard, [register(value) -> bool],
    which "atomically checks membership and inserts in one step;
    returns true iff the value was already present"; the method is
    declared in another file of package server. *)
Definition registerRandom (r : list byte) : IO bool := fun w =>
  (Ret (bool_decide (r ∈ usedRandom w)),
   World ({[ r ]} ∪ usedRandom w) (entropy w) (trace w ++ [EvRegisterRandom r])).

Definition log_Debug (e : error) : IO unit := emit (EvLogDebug e).

(** The collaborators, outside this file: package ecdh
    ([crypto.PublicKey], [crypto.PrivateKey], [Unmarshal],
    [GenerateSharedSecret]), [util.AESGCMEncrypt], [touchStone] and the
    clock [sta.Now] it is handed.  Their results are fresh values: what
    they return shares no array with the ClientHello. *)
Class Collaborators : Type := {
  PublicKey : Type;
  PrivateKey : Type;
  Clock : Type;
  ecdh_Unmarshal : list byte → option PublicKey;
  ecdh_GenerateSharedSecret : PrivateKey → PublicKey → list byte;
  util_AESGCMEncrypt : list byte → list byte → list byte → error + list byte;
  touchStone : authenticationInfo → Clock → ClientInfo * option error
}.

(** [net.Conn], of which only [Write] and [Close] are called. *)
Record Conn : Type := mkConn {
  conn_Write : list byte → option error
}.

Section Handshake.

Context `{Collaborators}.

(** Modelled from the spec: the server context, of which this file
    reads the static private key, the clock and the registry of
    enabled proxy methods; the set of used randoms is in [world]. *)
Record State : Type := mkState {
  staticPv : PrivateKey;
  Now : Clock;
  ProxyBook : gset string
}.

(** *** composeServerHello *)

Definition composeServerHello (sessionId sharedSecret sessionKey : list byte)
  : IO (list byte * option error) :=
  nonce ← rand_Read 12;
  emit (EvAESGCMEncrypt nonce sharedSecret sessionKey);;
  match util_AESGCMEncrypt nonce sharedSecret sessionKey with
  | inl err => mret ([], Some err)
  | inr encryptedKey =>
      let sh0 := [x02] in
      let sh1 := [x00; x00; x76] in
      let sh2 := [x03; x03] in
      n ← lift (slice_range (whole nonce) 0 12);
      e ← lift (slice_range (whole encryptedKey) 0 20);
      let sh3 := bytes_of nonce n ++ bytes_of encryptedKey e in
      let sh4 := [x20] in
      let sh5 := sessionId in
      let sh6 := [xc0; x30] in
      let sh7 := [x00] in
      let sh8 := [x00; x2e] in
      let keyShare := [x00; x33; x00; x24; x00; x1d; x00; x20] in
      let keyExchange := replicate 32 x00 in
      e ← lift (slice_range (whole encryptedKey) 20 48);
      let keyExchange := go_copy keyExchange (bytes_of encryptedKey e) in
      pad ← rand_Read 4;
      let keyExchange := take 28 keyExchange ++ pad in
      let sh9 := keyShare ++ keyExchange in
      let sh10 := [x00; x2b; x00; x02; x03; x04] in
      mret (concat [sh0; sh1; sh2; sh3; sh4; sh5; sh6; sh7; sh8; sh9; sh10], None)
  end.

(** *** composeReply *)

Definition composeReply (mem : list byte) (ch : ClientHello)
    (sharedSecret sessionKey : list byte) : IO (list byte * option error) :=
  let TLS12 := [x03; x03] in
  '(sh, err) ← composeServerHello (bytes_of mem (sessionId ch)) sharedSecret sessionKey;
  match err with
  | Some err => mret ([], Some err)
  | None =>
      let shBytes := addRecordLayer sh [x16] TLS12 in
      let ccsBytes := addRecordLayer [x01] [x14] TLS12 in
      cert ← rand_Read 68;
      let encryptedCertBytes := addRecordLayer cert [x17] TLS12 in
      let ret := shBytes ++ ccsBytes in
      let ret := ret ++ encryptedCertBytes in
      mret (ret, None)
  end.

(** *** unmarshalClientHello *)

Definition unmarshalClientHello (mem : list byte) (ch : ClientHello)
    (staticPv : PrivateKey) : IO (list byte * authenticationInfo * option error) :=
  emit (EvEcdhUnmarshal (bytes_of mem (random ch)));;
  match ecdh_Unmarshal (bytes_of mem (random ch)) with
  | None => mret (mem, mkAuthenticationInfo [] [] [], Some ErrInvalidPubKey)
  | Some ephPub =>
      nonce ← lift (slice_to (random ch) 12);
      emit EvGenerateSharedSecret;;
      let sharedSecret := ecdh_GenerateSharedSecret staticPv ephPub in
      let '(keyShare, err) :=
        parseKeyShare mem (default nil_slice (extensions ch !! (x00, x33))) in
      match err with
      | Some err =>
          mret (mem, mkAuthenticationInfo sharedSecret (bytes_of mem nonce) [], Some err)
      | None =>
          let '(mem, ciphertextWithTag) :=
            append_in mem (sessionId ch) (bytes_of mem keyShare) in
          let ai := mkAuthenticationInfo sharedSecret (bytes_of mem nonce)
                      ciphertextWithTag in
          if negb (length ciphertextWithTag =? 64)
          then mret (mem, ai, Some (ErrCiphertextLength (length ciphertextWithTag)))
          else mret (mem, ai, None)
      end
  end.

(** *** PrepareConnection *)

(** The finisher closure; it captures [ch] (and with it the array
    [mem] the slices of [ch] view), [ai.sharedSecret] and [conn]. *)
Definition finisher (mem : list byte) (ch : ClientHello) (ai : authenticationInfo)
    (conn : Conn) (sessionKey : list byte) : IO (option error) :=
  '(reply, err) ← composeReply mem ch (sharedSecret ai) sessionKey;
  match err with
  | Some err => mret (Some err)
  | None =>
      emit (EvConnWrite reply);;
      match conn_Write conn reply with
      | Some err => emit EvConnClose;; mret (Some err)
      | None => mret None
      end
  end.

Definition PrepareConnection (arr : list byte) (firstPacket : slice)
    (sta : State) (conn : Conn)
  : IO (ClientInfo * option (list byte → IO (option error)) * option error) :=
  let info := mkClientInfo EmptyString [] in
  let '(mem, ch, err) := parseClientHello arr firstPacket in
  match err with
  | Some err => log_Debug err;; mret (info, None, Some ErrBadClientHello)
  | None =>
      ch ← lift (match ch with Some ch => Ret ch | None => Panic end);
      used ← registerRandom (bytes_of mem (random ch));
      if used : bool then mret (info, None, Some ErrReplay) else
      '(mem, ai, err) ← unmarshalClientHello mem ch (staticPv sta);
      match err with
      | Some err => mret (info, None, Some err)
      | None =>
          emit (EvTouchStone ai);;
          let '(info, err) := touchStone ai (Now sta) in
          match err with
          | Some err => log_Debug err;; mret (info, None, Some ErrNotCloak)
          | None =>
              emit (EvProxyBook (ProxyMethod info));;
              if negb (bool_decide (ProxyMethod info ∈ ProxyBook sta))
              then mret (info, None, Some ErrBadProxyMethod)
              else mret (info, Some (finisher mem ch ai conn), None)
          end
      end
  end.

(** What the payload would be: the shared secret, the first twelve
    bytes of the random and the session id followed by the key share. *)
Definition payload_of (mem : list byte) (ch : ClientHello) (staticPv : PrivateKey)
    (ephPub : PublicKey) (keyShare : list byte) : authenticationInfo :=
  mkAuthenticationInfo (ecdh_GenerateSharedSecret staticPv ephPub)
    (take 12 (bytes_of mem (random ch)))
    (bytes_of mem (sessionId ch) ++ keyShare).

End Handshake.

(** ** Descriptions the statements below are written with *)

(** Where the extensions region starts in [peeled]. *)
Definition ext_start (ch : ClientHello) : nat :=
  44 + sessionIdLen ch + cipherSuitesLen ch + compressionMethodsLen ch.

(** What a ClientHello that was returned looks like; [err] is the error
    of the extensions walk, which [parseClientHello] passes on. *)
Record framed (arr : list byte) (data : slice) (mem : list byte) (ch : ClientHello)
    (err : option error) : Prop := {
  parsed_len : 5 ≤ len data;
  parsed_magic : bytes_of arr (Slice (off data) 3 (cap data)) = [x16; x03; x01];
  parsed_mem :
    mem = go_copy (replicate (len data - 5) x00)
            (bytes_of arr (Slice (off data + 5) (len data - 5) (cap data - 5)));
  parsed_type : handshakeType ch = x01 ∧ default x00 (mem !! 0) = x01;
  parsed_length :
    length_ ch = length mem - 4
    ∧ length_ ch = ((0 * 256 + Byte.to_nat (default x00 (mem !! 1))) * 256
                    + Byte.to_nat (default x00 (mem !! 2))) * 256
                   + Byte.to_nat (default x00 (mem !! 3));
  parsed_version : clientVersion ch = Slice 4 2 (length mem - 4);
  parsed_random : random ch = Slice 6 32 (length mem - 6);
  parsed_sessionIdLen : sessionIdLen ch = Byte.to_nat (default x00 (mem !! 38));
  parsed_sessionId : sessionId ch = Slice 39 (sessionIdLen ch) (length mem - 39);
  parsed_cipherSuites :
    cipherSuites ch = Slice (41 + sessionIdLen ch) (cipherSuitesLen ch)
                        (length mem - (41 + sessionIdLen ch));
  parsed_compressionMethods :
    compressionMethods ch
    = Slice (42 + sessionIdLen ch + cipherSuitesLen ch) (compressionMethodsLen ch)
        (length mem - (42 + sessionIdLen ch + cipherSuitesLen ch));
  parsed_fit : ext_start ch ≤ length mem;
  parsed_extensions :
    parseExtensions mem (Slice (ext_start ch) (length mem - ext_start ch)
                           (length mem - ext_start ch))
    = (extensions ch, err)
}.

(** A ClientHello returned without an error. *)
Definition parsed (arr : list byte) (data : slice) (mem : list byte)
    (ch : ClientHello) : Prop :=
  framed arr data mem ch None.

(** Every payload slice lies behind its four-byte header and ends where
    the capacity of the region ends. *)
Definition within (input s : slice) : Prop :=
  off input + 4 ≤ off s ∧ len s ≤ cap s ∧ off s + cap s = off input + cap input.

(** The errors of the extractor. *)
Definition keyShare_error (e : error) : Prop :=
  e = ErrMalformedKeyShare ∨ e = ErrNoX25519 ∨ ∃ n, n ≠ 32 ∧ e = ErrKeyShareLength n.

(** The ServerHello, laid out: the nonce and the first twenty bytes of
    the encrypted key make up the random, the other twenty-eight and
    four bytes of padding the key exchange. *)
Definition serverHello_layout (nonce encryptedKey sessionId pad : list byte)
  : list byte :=
  [x02] ++ [x00; x00; x76] ++ [x03; x03]
  ++ (nonce ++ take 20 encryptedKey)
  ++ [x20] ++ sessionId ++ [xc0; x30] ++ [x00] ++ [x00; x2e]
  ++ ([x00; x33; x00; x24; x00; x1d; x00; x20]
      ++ take 28 (drop 20 encryptedKey) ++ pad)
  ++ [x00; x2b; x00; x02; x03; x04].

(** The reply, laid out. *)
Definition reply_layout (nonce encryptedKey sessionId pad cert : list byte)
  : list byte :=
  addRecordLayer (serverHello_layout nonce encryptedKey sessionId pad)
    [x16] [x03; x03]
  ++ addRecordLayer [x01] [x14] [x03; x03]
  ++ addRecordLayer cert [x17] [x03; x03].

(** What [parseClientHello] reads where in [peeled], in closed form:
    the byte at an index, the 16-bit number at an index, and the
    ClientHello and the error that a framed [peeled] decodes to. *)
Definition byte_at (mem : list byte) (i : nat) : nat :=
  Byte.to_nat (default x00 (mem !! i)).

Definition u16_at (mem : list byte) (i : nat) : nat :=
  byte_at mem i * 256 + byte_at mem (i + 1).

Definition decoded (mem : list byte) : ClientHello * option error :=
  let n := length mem in
  let sl := byte_at mem 38 in
  let cl := u16_at mem (39 + sl) in
  let ml := byte_at mem (41 + sl + cl) in
  let el := u16_at mem (42 + sl + cl + ml) in
  let start := 44 + sl + cl + ml in
  let '(exts, err) := parseExtensions mem (Slice start (n - start) (n - start)) in
  (mkClientHello x01 (n - 4) (Slice 4 2 (n - 4)) (Slice 6 32 (n - 6))
     sl (Slice 39 sl (n - 39))
     cl (Slice (41 + sl) cl (n - (41 + sl)))
     ml (Slice (42 + sl + cl) ml (n - (42 + sl + cl)))
     el exts,
   err).

(** A packet with the magic bytes, the handshake type 1, a 24-bit
    length that is the number of bytes behind it, and room for the
    fields up to the length of the extensions. *)
Definition well_framed (pkt : list byte) : Prop :=
  let mem := drop 5 pkt in
  let sl := byte_at mem 38 in
  let cl := u16_at mem (39 + sl) in
  let ml := byte_at mem (41 + sl + cl) in
  take 3 pkt = [x16; x03; x01]
  ∧ mem !! 0 = Some x01
  ∧ (byte_at mem 1 * 256 + byte_at mem 2) * 256 + byte_at mem 3 = length mem - 4
  ∧ 44 + sl + cl + ml ≤ length mem.

(** The group x25519 of a key_share list. *)
Definition x25519 : byte * byte := (x00, x1d).

(** The payload of a key_share extension on the wire: the two-byte
    length of the list, then the entries {group, length, key exchange},
    which have the format of the entries of the extensions region. *)
Definition encode_keyShare (ks : list ((byte * byte) * list byte)) : list byte :=
  put_u16 (length (encode_extensions ks)) ++ encode_extensions ks.

(** A 24-bit big-endian length. *)
Definition put_u24 (v : nat) : list byte :=
  [byte_of_nat (v / (256 * 256)); byte_of_nat (v / 256); byte_of_nat v].

(** A ClientHello on the wire: the body of the handshake message, and
    the record around it.  [recordLen] and [extLen] are the two-byte
    length fields of the record and of the extensions region. *)
Definition clientHello_body (version random sid suites methods extLen exts : list byte)
  : list byte :=
  version ++ random ++ [byte_of_nat (length sid)] ++ sid
  ++ put_u16 (length suites) ++ suites
  ++ [byte_of_nat (length methods)] ++ methods
  ++ extLen ++ exts.

Definition encode_clientHello
    (recordLen version random sid suites methods extLen exts : list byte)
  : list byte :=
  let body := clientHello_body version random sid suites methods extLen exts in
  [x16; x03; x01] ++ recordLen ++ [x01] ++ put_u24 (length body) ++ body.

(** ** A concrete server and concrete packets, for the examples *)

Module Example.

(** A disguise-profile ClientHello record around the given random,
    session id and extensions. *)
Definition clientHello_bytes (random sid exts : list byte) : list byte :=
  let body := [x03; x03] ++ random ++ [byte_of_nat (length sid)] ++ sid
              ++ [x00; x02; x13; x01] ++ [x01; x00]
              ++ put_u16 (length exts) ++ exts in
  let hs := [x01; x00] ++ put_u16 (length body) ++ body in
  [x16; x03; x01] ++ put_u16 (length hs) ++ hs.

(** A key_share extension offering one x25519 share. *)
Definition keyShare_ext (share : list byte) : list byte :=
  ext_entry (x00, x33)
    (put_u16 (4 + length share) ++ [x00; x1d] ++ put_u16 (length share) ++ share).

Definition supportedGroups_ext : list byte :=
  ext_entry (x00, x0a) [x00; x02; x00; x1d].

Definition random0 : list byte := replicate 32 x07.
Definition share0 : list byte := replicate 32 x0a.

(** A complete hello; one whose session id is a byte short; one
    without a key share; one the decision service turns down; one
    asking for a proxy method that is not enabled. *)
Definition hello : list byte :=
  clientHello_bytes random0 (replicate 32 x09) (supportedGroups_ext ++ keyShare_ext share0).
Definition hello_sid31 : list byte :=
  clientHello_bytes random0 (replicate 31 x09) (supportedGroups_ext ++ keyShare_ext share0).
Definition hello_noshare : list byte :=
  clientHello_bytes random0 (replicate 32 x09) supportedGroups_ext.
Definition hello_stranger : list byte :=
  clientHello_bytes random0 (replicate 32 x08) (supportedGroups_ext ++ keyShare_ext share0).
Definition hello_method : list byte :=
  clientHello_bytes random0 (replicate 32 x0b) (supportedGroups_ext ++ keyShare_ext share0).

(** Stand-ins for the collaborators: every 32-byte string is a public
    key, the cipher appends a 16-byte tag, and the decision service
    goes by the first byte of the ciphertext. *)
Definition collaborators : Collaborators := {|
  PublicKey := list byte;
  PrivateKey := list byte;
  Clock := unit;
  ecdh_Unmarshal r := if length r =? 32 then Some r else None;
  ecdh_GenerateSharedSecret pv pub := pv ++ pub;
  util_AESGCMEncrypt nonce key plaintext := inr (plaintext ++ replicate 16 xff);
  touchStone ai now :=
    match ciphertextWithTag ai with
    | x09 :: _ => (mkClientInfo "shadowsocks" [], None)
    | x0b :: _ => (mkClientInfo "openvpn" [], None)
    | _ => (mkClientInfo EmptyString [], Some (ErrCollaborator "unauthorised"))
    end
|}.

(** What the decoder makes of [hello]: the array [peeled] and the
    views of it. *)
Definition peeled : list byte := drop 5 hello.
Definition ch : ClientHello := {|
  handshakeType := x01;
  length_ := 125;
  clientVersion := Slice 4 2 125;
  random := Slice 6 32 123;
  sessionIdLen := 32;
  sessionId := Slice 39 32 90;
  cipherSuitesLen := 2;
  cipherSuites := Slice 73 2 56;
  compressionMethodsLen := 1;
  compressionMethods := Slice 76 1 53;
  extensionsLen := 50;
  extensions := <[(x00, x33) := Slice 91 38 38]> (<[(x00, x0a) := Slice 83 4 46]> ∅)
|}.

(** The same for [hello_sid31]. *)
Definition peeled_sid31 : list byte := drop 5 hello_sid31.
Definition ch_sid31 : ClientHello := {|
  handshakeType := x01;
  length_ := 124;
  clientVersion := Slice 4 2 124;
  random := Slice 6 32 122;
  sessionIdLen := 31;
  sessionId := Slice 39 31 89;
  cipherSuitesLen := 2;
  cipherSuites := Slice 72 2 56;
  compressionMethodsLen := 1;
  compressionMethods := Slice 75 1 53;
  extensionsLen := 50;
  extensions := <[(x00, x33) := Slice 90 38 38]> (<[(x00, x0a) := Slice 82 4 46]> ∅)
|}.

(** [hello_stranger] has the layout of [hello]: [ch] views it too. *)
Definition peeled_stranger : list byte := drop 5 hello_stranger.

(** A region in which supported_groups occurs twice. *)
Definition region : list byte :=
  encode_extensions
    [((x00, x0a), [x00; x02; x00; x17]); ((x00, x2b), [x02; x03; x04]);
     ((x00, x0a), [x00; x02; x00; x1d])].

Definition sta : @State collaborators := @mkState collaborators [x01] tt {["shadowsocks"]}.
Definition conn : Conn := mkConn (λ _, None).
Definition conn_down : Conn := mkConn (λ _, Some (ErrCollaborator "broken pipe")).
Definition world0 : world := World ∅ (λ i, byte_of_nat (128 + i)) [].
Definition sessionKey0 : list byte := replicate 32 x55.

End Example.

(** ** More stand-ins and inputs, for the examples of the further properties *)

Module Example2.

(** Two extensions; a region that stops five bytes into a third. *)
Definition entries : list ((byte * byte) * list byte) :=
  [((x00, x0a), [x00; x02; x00; x1d]); ((x00, x2b), [x02; x03; x04])].
Definition region : list byte := encode_extensions entries.
Definition region_cut : list byte :=
  encode_extensions entries ++ take 5 (ext_entry (x00, x33) [x01; x02; x03]).

(** Key share lists: secp256r1 in front of x25519; an x25519 share of
    16 bytes in front of one of 32; secp256r1 alone. *)
Definition shares_found : list byte :=
  encode_keyShare ([((x00, x17), replicate 4 x05)] ++ (x25519, Example.share0) :: []).
Definition shares_short : list byte :=
  encode_keyShare ([] ++ (x25519, replicate 16 x0a) :: [(x25519, Example.share0)]).
Definition shares_none : list byte :=
  encode_keyShare [((x00, x17), replicate 4 x05)].

(** A ClientHello with a record length of zero, the version 03 04 and
    an extensions length of 0xffff. *)
Definition hello_fields : list byte :=
  encode_clientHello [x00; x00] [x03; x04] Example.random0 (replicate 32 x09)
    [x13; x01] [x00] [xff; xff] (encode_extensions entries).

(** [Example.hello] with another record length. *)
Definition hello_relabelled : list byte :=
  take 3 Example.hello ++ [xff; xff] ++ drop 5 Example.hello.

(** Packets that fail one check each. *)
Definition hello_http : list byte := [x47; x45; x54; x20; x2f].
Definition hello_server : list byte := [x16; x03; x01; x00; x04; x02; x00; x00; x00].
Definition hello_overlong : list byte :=
  [x16; x03; x01; x00; x05; x01; x00; x00; x09; x03].

(** A cipher that takes keys of 32 bytes only, a key exchange that
    turns the all-zero string down, and a decision service that lets
    everyone in. *)
Definition collaborators : Collaborators := {|
  PublicKey := list byte;
  PrivateKey := list byte;
  Clock := unit;
  ecdh_Unmarshal r := if bool_decide (r = replicate 32 x00) then None else Some r;
  ecdh_GenerateSharedSecret pv pub := take 32 (pv ++ pub);
  util_AESGCMEncrypt nonce key plaintext :=
    if length key =? 32 then inr (plaintext ++ replicate 16 xff)
    else inl (ErrCollaborator "invalid key size");
  touchStone ai now := (mkClientInfo "shadowsocks" [], None)
|}.

Definition hello_zero : list byte :=
  Example.clientHello_bytes (replicate 32 x00) (replicate 32 x09)
    (Example.supportedGroups_ext ++ Example.keyShare_ext Example.share0).
Definition peeled_zero : list byte := drop 5 hello_zero.

Definition sta : @State collaborators := @mkState collaborators [x01] tt {["shadowsocks"]}.

(** Payloads with a key the cipher takes, and with one it does not. *)
Definition ai_good : authenticationInfo :=
  mkAuthenticationInfo (replicate 32 x01) (replicate 12 x07) [].
Definition ai_bad : authenticationInfo :=
  mkAuthenticationInfo (replicate 16 x01) (replicate 12 x07) [].

End Example2.

(** * Basic facts *)

#[global] Arguments Nat.div : simpl never.
#[global] Arguments Nat.modulo : simpl never.
#[global] Arguments Nat.mul : simpl never.
#[global] Arguments bytes_of : simpl never.

Lemma outcome_bind_Ret {A B} (m : outcome A) (f : A → outcome B) (b : B) :
  m ≫= f = Ret b ↔ ∃ a, m = Ret a ∧ f a = Ret b.
Proof.
  destruct m as [a|]; simpl; split.
  - intros H. by exists a.
  - by intros (a' & [= <-] & H).
  - done.
  - by intros (a' & [=] & _).
Qed.

Lemma slice_range_Ret s lo hi r :
  slice_range s lo hi = Ret r ↔
  lo ≤ hi ∧ hi ≤ cap s ∧ r = Slice (off s + lo) (hi - lo) (cap s - lo).
Proof.
  unfold slice_range.
  destruct (Nat.leb_spec lo hi), (Nat.leb_spec hi (cap s)); simpl;
    split; try (intros [= <-]); try (intros (? & ? & ->)); try done; lia.
Qed.

Lemma slice_range_Panic s lo hi :
  slice_range s lo hi = Panic ↔ hi < lo ∨ cap s < hi.
Proof.
  unfold slice_range.
  destruct (Nat.leb_spec lo hi), (Nat.leb_spec hi (cap s)); simpl;
    split; try done; lia.
Qed.

Lemma slice_at_Ret mem s i b :
  slice_at mem s i = Ret b ↔ i < len s ∧ b = default x00 (mem !! (off s + i)).
Proof.
  unfold slice_at. destruct (Nat.ltb_spec i (len s)); split;
    try (intros [= <-]); try (intros (? & ->)); try done; lia.
Qed.

Lemma make_len_Ret n k r : make_len n k = Ret r ↔ k ≤ n ∧ r = n - k.
Proof.
  unfold make_len. destruct (Nat.leb_spec k n); split;
    try (intros [= <-]); try (intros (? & ->)); try done; lia.
Qed.

Lemma u16_Ret mem s n :
  u16 mem s = Ret n ↔
  2 ≤ len s ∧
  n = Byte.to_nat (default x00 (mem !! (off s + 0))) * 256
      + Byte.to_nat (default x00 (mem !! (off s + 1))).
Proof.
  unfold u16. rewrite outcome_bind_Ret. split.
  - intros (b1 & H1 & H). apply outcome_bind_Ret in H as (b0 & H0 & [= <-]).
    apply slice_at_Ret in H1 as [? ->]. apply slice_at_Ret in H0 as [? ->].
    split; [lia | done].
  - intros [Hlen ->]. eexists. split.
    + apply slice_at_Ret. split; [lia | done].
    + apply outcome_bind_Ret. eexists. split; [|done].
      apply slice_at_Ret. split; [lia | done].
Qed.

Lemma slice_range_ok s lo hi :
  lo ≤ hi → hi ≤ cap s →
  slice_range s lo hi = Ret (Slice (off s + lo) (hi - lo) (cap s - lo)).
Proof. intros. by apply slice_range_Ret. Qed.

Lemma slice_at_ok mem s i :
  i < len s → slice_at mem s i = Ret (default x00 (mem !! (off s + i))).
Proof. intros. by apply slice_at_Ret. Qed.

Lemma u16_ok mem s :
  2 ≤ len s →
  u16 mem s = Ret (Byte.to_nat (default x00 (mem !! (off s + 0))) * 256
                   + Byte.to_nat (default x00 (mem !! (off s + 1)))).
Proof. intros. by apply u16_Ret. Qed.

Lemma to_nat_lt b : Byte.to_nat b < 256.
Proof. pose proof (Byte.to_nat_bounded b). lia. Qed.

Lemma to_nat_byte_of_nat n : Byte.to_nat (byte_of_nat n) = n mod 256.
Proof.
  unfold byte_of_nat.
  destruct (Byte.of_nat (n mod 256)) as [b|] eqn:E; simpl.
  - by apply Byte.to_of_nat.
  - apply Byte.of_nat_None_iff in E.
    pose proof (Nat.mod_upper_bound n 256). lia.
Qed.

Lemma u32_Ret mem s n :
  u32 mem s = Ret n ↔
  4 ≤ len s ∧
  n = ((Byte.to_nat (default x00 (mem !! (off s + 0))) * 256
        + Byte.to_nat (default x00 (mem !! (off s + 1)))) * 256
       + Byte.to_nat (default x00 (mem !! (off s + 2)))) * 256
      + Byte.to_nat (default x00 (mem !! (off s + 3))).
Proof.
  unfold u32. rewrite outcome_bind_Ret. split.
  - intros (b3 & H3 & H). apply outcome_bind_Ret in H as (b0 & H0 & H).
    apply outcome_bind_Ret in H as (b1 & H1 & H).
    apply outcome_bind_Ret in H as (b2 & H2 & [= <-]).
    apply slice_at_Ret in H3 as [? ->]. apply slice_at_Ret in H0 as [? ->].
    apply slice_at_Ret in H1 as [? ->]. apply slice_at_Ret in H2 as [? ->].
    split; [lia | done].
  - intros [Hlen ->]. eexists. split; [apply slice_at_Ret; split; [lia | done]|].
    rewrite !slice_at_ok by lia. done.
Qed.

(** Take the first call of a chain of binds that returned apart. *)
Ltac inv_bind E :=
  let x := fresh "x" in
  let Hx := fresh "Hx" in
  let Ha := fresh "Hlo" in
  let Hb := fresh "Hhi" in
  apply outcome_bind_Ret in E as (x & Hx & E);
  unfold slice_from, slice_to in Hx;
  first [ apply slice_range_Ret in Hx as (Ha & Hb & ->);
          cbn [off len cap whole] in Ha, Hb
        | apply slice_at_Ret in Hx as [Ha ->]; cbn [off len cap whole] in Ha
        | apply u16_Ret in Hx as [Ha ->]; cbn [off len cap whole] in Ha
        | apply u32_Ret in Hx as [Ha ->]; cbn [off len cap whole] in Ha
        | apply make_len_Ret in Hx as [Ha ->]
        | idtac ];
  cbn [off len cap whole] in E.

(** Run the first call of a chain of binds when it is in bounds. *)
Ltac step_ok :=
  lazymatch goal with
  | |- context [mbind _ ?m] =>
      lazymatch m with
      | slice_range ?s ?lo ?hi => rewrite (slice_range_ok s lo hi) by (simpl; lia)
      | slice_at ?mem ?s ?i => rewrite (slice_at_ok mem s i) by (simpl; lia)
      | u16 ?mem ?s => rewrite (u16_ok mem s) by (simpl; lia)
      end; cbn [mbind outcome_bind mret outcome_ret off len cap]
  end.

Lemma u16_put_u16 n : n < 256 * 256 →
  Byte.to_nat (byte_of_nat (n / 256)) * 256 + Byte.to_nat (byte_of_nat n) = n.
Proof.
  intros Hn. rewrite !to_nat_byte_of_nat.
  rewrite (Nat.mod_small (_ / _)).
  - pose proof (Nat.div_mod_eq n 256). lia.
  - apply Nat.Div0.div_lt_upper_bound. lia.
Qed.

Lemma byte_of_nat_to_nat b : byte_of_nat (Byte.to_nat b) = b.
Proof.
  unfold byte_of_nat. rewrite Nat.mod_small by apply to_nat_lt.
  by rewrite Byte.of_to_nat.
Qed.

(** ** Views *)

Lemma length_bytes_of mem s : slice_ok mem s → length (bytes_of mem s) = len s.
Proof.
  intros [? ?]. unfold bytes_of. rewrite length_take, length_drop. lia.
Qed.

Lemma bytes_of_lookup mem s i :
  i < len s → bytes_of mem s !! i = mem !! (off s + i).
Proof.
  intros Hi. unfold bytes_of. rewrite lookup_take_lt by done. by rewrite lookup_drop.
Qed.

Lemma bytes_of_whole mem : bytes_of mem (whole mem) = mem.
Proof. unfold bytes_of, whole; simpl. by rewrite drop_0, firstn_all. Qed.

(** A slice of a slice shows a segment of what the slice shows. *)
Lemma bytes_of_sub mem s lo n c :
  lo + n ≤ len s →
  bytes_of mem (Slice (off s + lo) n c) = take n (drop lo (bytes_of mem s)).
Proof.
  intros H. unfold bytes_of; simpl.
  rewrite (take_drop_commute _ n lo), take_take, Nat.min_l by lia.
  by rewrite <- take_drop_commute, drop_drop.
Qed.

Lemma length_go_copy dst src : length (go_copy dst src) = length dst.
Proof. unfold go_copy. rewrite length_app, length_take, length_drop. lia. Qed.

Lemma go_copy_same_length dst src : length dst = length src → go_copy dst src = src.
Proof.
  intros H. unfold go_copy. rewrite H, firstn_all, drop_ge by lia. apply app_nil_r.
Qed.

(** * parseExtensions *)

Lemma parseExtensions_entry_Ret mem input p typ data p' :
  parseExtensions_entry mem input p = Ret (typ, data, p') →
  ∃ n, n = Byte.to_nat (default x00 (mem !! (off input + (p + 2) + 0))) * 256
           + Byte.to_nat (default x00 (mem !! (off input + (p + 2) + 1)))
     ∧ p + 4 + n ≤ cap input
     ∧ typ = (default x00 (mem !! (off input + p + 0)),
              default x00 (mem !! (off input + p + 1)))
     ∧ data = Slice (off input + (p + 4)) n (cap input - (p + 4))
     ∧ p' = p + 4 + n.
Proof.
  unfold parseExtensions_entry. intros H.
  apply outcome_bind_Ret in H as (t & Ht & H). apply slice_range_Ret in Ht as (_ & _ & ->).
  apply outcome_bind_Ret in H as (t0 & Ht0 & H). apply slice_at_Ret in Ht0 as [_ ->].
  apply outcome_bind_Ret in H as (t1 & Ht1 & H). apply slice_at_Ret in Ht1 as [_ ->].
  apply outcome_bind_Ret in H as (l & Hl & H). apply slice_range_Ret in Hl as (_ & _ & ->).
  apply outcome_bind_Ret in H as (n & Hn & H). apply u16_Ret in Hn as [_ Hn].
  apply outcome_bind_Ret in H as (d & Hd & H). apply slice_range_Ret in Hd as (_ & Hd & ->).
  injection H as <- <- <-. simpl in *.
  exists n. split; [done|]. split; [lia|]. split; [done|]. split; [|lia].
  f_equal; lia.
Qed.

(** The fuel the loop is started with is enough. *)
Lemma parseExtensions_loop_fuel mem input fuel :
  ∀ p ret, len input - p ≤ fuel →
    is_Some (parseExtensions_loop fuel mem input p ret).
Proof.
  induction fuel as [|fuel IH]; intros p ret Hfuel; simpl.
  - destruct (Nat.ltb_spec p (len input)); [lia | by eexists].
  - destruct (Nat.ltb_spec p (len input)); [|by eexists].
    destruct (parseExtensions_entry mem input p) as [[[typ data] p']|] eqn:E;
      [|by eexists].
    apply parseExtensions_entry_Ret in E as (n & _ & _ & _ & _ & ->).
    apply IH. lia.
Qed.

Lemma parseExtensions_unfold mem input :
  parseExtensions_loop (len input) mem input 0 ∅ = Some (parseExtensions mem input).
Proof.
  unfold parseExtensions.
  destruct (parseExtensions_loop_fuel mem input (len input) 0 ∅) as [r ->]; [lia | done].
Qed.

Lemma parseExtensions_loop_within mem input fuel :
  ∀ p ret m e,
    map_Forall (λ _, within input) ret →
    parseExtensions_loop fuel mem input p ret = Some (m, e) →
    map_Forall (λ _, within input) m.
Proof.
  induction fuel as [|fuel IH]; intros p ret m e Hret; simpl.
  - destruct (p <? len input); [done | by intros [= <- <-]].
  - destruct (p <? len input); [|by intros [= <- <-]].
    destruct (parseExtensions_entry mem input p) as [[[typ data] p']|] eqn:E;
      [|by intros [= <- <-]].
    apply parseExtensions_entry_Ret in E as (n & _ & Hn & _ & -> & ->).
    apply IH. apply map_Forall_insert_2; [|done].
    unfold within; simpl. lia.
Qed.

Lemma parseExtensions_within mem input m e :
  parseExtensions mem input = (m, e) → map_Forall (λ _, within input) m.
Proof.
  intros H. pose proof (parseExtensions_unfold mem input) as Hl. rewrite H in Hl.
  eapply parseExtensions_loop_within; [|exact Hl]. apply map_Forall_empty.
Qed.

(** ** A region of well-formed entries *)

Lemma lookup_prefix {A} (l pre post : list A) p i :
  drop p l = pre ++ post → i < length pre → l !! (p + i) = pre !! i.
Proof.
  intros H Hi. rewrite <- lookup_drop, H. by apply lookup_app_l.
Qed.

Lemma parseExtensions_entry_encoded mem input p typ payload rest :
  slice_ok mem input →
  drop p (bytes_of mem input) = ext_entry typ payload ++ rest →
  length payload < 256 * 256 →
  parseExtensions_entry mem input p
  = Ret (typ, Slice (off input + (p + 4)) (length payload) (cap input - (p + 4)),
         p + 4 + length payload)
  ∧ p + 4 + length payload ≤ len input
  ∧ bytes_of mem (Slice (off input + (p + 4)) (length payload) (cap input - (p + 4)))
    = payload
  ∧ drop (p + 4 + length payload) (bytes_of mem input) = rest.
Proof.
  intros Hok Hdrop Hlen.
  assert (Hfit : p + 4 + length payload ≤ len input).
  { apply (f_equal length) in Hdrop.
    rewrite length_drop, length_bytes_of, length_app in Hdrop by done.
    unfold ext_entry in Hdrop. rewrite !length_app in Hdrop. simpl in Hdrop. lia. }
  destruct Hok as [Hlc Hcap].
  assert (Hget : ∀ i, i < 4 + length payload →
            mem !! (off input + (p + i)) = ext_entry typ payload !! i).
  { intros i Hi. rewrite <- bytes_of_lookup by lia.
    eapply lookup_prefix; [exact Hdrop|].
    unfold ext_entry. rewrite !length_app. simpl. lia. }
  split; [|split; [done|split]].
  - unfold parseExtensions_entry.
    do 5 step_ok.
    rewrite <- !Nat.add_assoc, !Hget by lia.
    unfold ext_entry, put_u16. simpl.
    rewrite u16_put_u16 by done.
    step_ok.
    destruct typ as [t0 t1]. simpl. do 3 f_equal; f_equal; lia.
  - rewrite (bytes_of_sub mem input (p + 4)) by lia.
    rewrite <- drop_drop, Hdrop.
    unfold ext_entry, put_u16. simpl. by rewrite drop_0, take_app_length.
  - replace (p + 4 + length payload) with (p + (4 + length payload)) by lia.
    rewrite <- drop_drop, Hdrop.
    unfold ext_entry, put_u16. simpl. by rewrite drop_app_length.
Qed.

Lemma parseExtensions_loop_encoded mem input es :
  slice_ok mem input →
  Forall (λ e, length e.2 < 256 * 256) es →
  ∀ fuel p ret,
    drop p (bytes_of mem input) = encode_extensions es →
    len input - p ≤ fuel →
    ∃ m, parseExtensions_loop fuel mem input p ret = Some (m, None)
       ∧ ∀ typ, bytes_of mem <$> m !! typ
                = match last_payload typ es with
                  | Some payload => Some payload
                  | None => bytes_of mem <$> ret !! typ
                  end.
Proof.
  intros Hok Hwf. induction Hwf as [|[t payload] es Hlen Hwf IH];
    intros fuel p ret Hdrop Hfuel.
  - exists ret. split; [|done].
    assert (len input ≤ p).
    { apply (f_equal length) in Hdrop.
      rewrite length_drop, length_bytes_of in Hdrop by done. simpl in Hdrop. lia. }
    destruct fuel; simpl; destruct (Nat.ltb_spec p (len input)); done || lia.
  - simpl in Hlen. change (encode_extensions ((t, payload) :: es))
      with (ext_entry t payload ++ encode_extensions es) in Hdrop.
    destruct (parseExtensions_entry_encoded _ _ _ _ _ _ Hok Hdrop Hlen)
      as (Hentry & Hfit & Hdata & Hrest).
    destruct fuel as [|fuel]; [lia|]. simpl.
    destruct (Nat.ltb_spec p (len input)); [|lia].
    rewrite Hentry.
    destruct (IH fuel (p + 4 + length payload)
                (<[t := Slice (off input + (p + 4)) (length payload)
                         (cap input - (p + 4))]> ret) Hrest)
      as (m & Hm & Hlook); [lia|].
    exists m. split; [done|]. intros typ. rewrite Hlook.
    destruct (last_payload typ es); [done|].
    destruct (decide (t = typ)) as [->|Hne].
    + by rewrite lookup_insert_eq; simpl; rewrite Hdata.
    + by rewrite lookup_insert_ne.
Qed.

Lemma parseExtensions_encoded mem input es :
  slice_ok mem input →
  Forall (λ e, length e.2 < 256 * 256) es →
  bytes_of mem input = encode_extensions es →
  ∃ m, parseExtensions mem input = (m, None)
     ∧ ∀ typ, bytes_of mem <$> m !! typ = last_payload typ es.
Proof.
  intros Hok Hwf Hbytes.
  destruct (parseExtensions_loop_encoded mem input es Hok Hwf (len input) 0 ∅)
    as (m & Hm & Hlook); [by rewrite drop_0 | lia |].
  exists m. split.
  - pose proof (parseExtensions_unfold mem input) as Hu. congruence.
  - intros typ. rewrite Hlook, lookup_empty. by destruct (last_payload typ es).
Qed.

Lemma last_payload_app typ es1 es2 :
  last_payload typ (es1 ++ es2)
  = match last_payload typ es2 with
    | Some p => Some p
    | None => last_payload typ es1
    end.
Proof.
  induction es1 as [|[t p] es1 IH]; simpl.
  - by destruct (last_payload typ es2).
  - rewrite IH. by destruct (last_payload typ es2).
Qed.

Lemma last_payload_absent typ es : typ ∉ es.*1 → last_payload typ es = None.
Proof.
  induction es as [|[t p] es IH]; simpl; [done|].
  rewrite not_elem_of_cons. intros [Hne Hnot]. rewrite IH by done.
  by destruct (decide (t = typ)).
Qed.

(** * parseKeyShare *)

Lemma parseKeyShare_entry_Ret mem input p r :
  parseKeyShare_entry mem input p = Ret r →
  match r with
  | inl p' => p + 4 ≤ p'
  | inr (ks, None) =>
      ks = Slice (off input + (p + 4)) 32 (cap input - (p + 4))
      ∧ p + 4 + 32 ≤ cap input
  | inr (ks, Some e) =>
      ks = nil_slice ∧ ∃ n, n ≠ 32 ∧ e = ErrKeyShareLength n
  end.
Proof.
  unfold parseKeyShare_entry. intros H.
  apply outcome_bind_Ret in H as (g & Hg & H). apply slice_range_Ret in Hg as (_ & _ & ->).
  case_bool_decide.
  - apply outcome_bind_Ret in H as (l & Hl & H). apply slice_range_Ret in Hl as (_ & _ & ->).
    apply outcome_bind_Ret in H as (n & Hn & H). apply u16_Ret in Hn as [_ Hn].
    destruct (Nat.eqb_spec n 32) as [->|Hne]; simpl in H.
    + apply outcome_bind_Ret in H as (d & Hd & [= <-]).
      apply slice_range_Ret in Hd as (_ & Hd & ->). simpl.
      split; [f_equal; lia | lia].
    + injection H as <-. split; [done|]. by exists n.
  - apply outcome_bind_Ret in H as (l & Hl & H). apply slice_range_Ret in Hl as (_ & _ & ->).
    apply outcome_bind_Ret in H as (n & Hn & H).
    apply outcome_bind_Ret in H as (d & Hd & [= <-]). lia.
Qed.

Lemma parseKeyShare_loop_fuel mem input totalLen fuel :
  ∀ p, totalLen - p ≤ fuel →
    is_Some (parseKeyShare_loop fuel mem input totalLen p).
Proof.
  induction fuel as [|fuel IH]; intros p Hfuel; simpl.
  - destruct (Nat.ltb_spec p totalLen); [lia | by eexists].
  - destruct (Nat.ltb_spec p totalLen); [|by eexists].
    destruct (parseKeyShare_entry mem input p) as [[p'|r]|] eqn:E; try by eexists.
    apply parseKeyShare_entry_Ret in E. apply IH. lia.
Qed.

(** The fuel of [parseKeyShare_body] is enough: the third case of
    [parseKeyShare] is never taken. *)
Lemma parseKeyShare_body_fuel mem input : is_Some (parseKeyShare_body mem input).
Proof.
  unfold parseKeyShare_body.
  destruct (_ ≫= _) as [totalLen|]; [|by eexists].
  apply parseKeyShare_loop_fuel. lia.
Qed.

Lemma parseKeyShare_loop_Ret mem input totalLen fuel :
  ∀ p r, parseKeyShare_loop fuel mem input totalLen p = Some (Ret r) →
    match r with
    | (ks, None) =>
        ∃ q, p ≤ q ∧ ks = Slice (off input + (q + 4)) 32 (cap input - (q + 4))
           ∧ q + 4 + 32 ≤ cap input
    | (ks, Some e) =>
        ks = nil_slice ∧ (e = ErrNoX25519 ∨ ∃ n, n ≠ 32 ∧ e = ErrKeyShareLength n)
    end.
Proof.
  induction fuel as [|fuel IH]; intros p r; simpl.
  - destruct (p <? totalLen); [done|]. intros [= <-]. eauto.
  - destruct (p <? totalLen); [|intros [= <-]; eauto].
    destruct (parseKeyShare_entry mem input p) as [[p'|r']|] eqn:E; [| |done].
    + apply parseKeyShare_entry_Ret in E. intros H. apply IH in H.
      destruct r as [ks [e|]]; [done|].
      destruct H as (q & ? & ? & ?). exists q. split; [lia | done].
    + apply parseKeyShare_entry_Ret in E. intros [= <-].
      destruct r' as [ks [e|]].
      * destruct E as [-> ?]. eauto.
      * destruct E as [-> ?]. exists p. eauto.
Qed.

(** A key share that was found: 32 bytes, behind the two-byte list
    length and a four-byte entry header. *)
Lemma parseKeyShare_found mem input ks :
  parseKeyShare mem input = (ks, None) →
  ∃ q, 2 ≤ q ∧ ks = Slice (off input + (q + 4)) 32 (cap input - (q + 4))
     ∧ q + 4 + 32 ≤ cap input.
Proof.
  unfold parseKeyShare, parseKeyShare_body.
  destruct (_ ≫= _) as [totalLen|]; [|done].
  destruct (parseKeyShare_loop _ _ _ _ _) as [[r|]|] eqn:E; [|done..].
  intros ->. by apply parseKeyShare_loop_Ret in E.
Qed.

Lemma parseKeyShare_failed mem input ks e :
  parseKeyShare mem input = (ks, Some e) → ks = nil_slice ∧ keyShare_error e.
Proof.
  unfold parseKeyShare, parseKeyShare_body, keyShare_error.
  destruct (_ ≫= _) as [totalLen|]; [|intros [= <- <-]; eauto].
  destruct (parseKeyShare_loop _ _ _ _ _) as [[r|]|] eqn:E;
    [|intros [= <- <-]; eauto..].
  intros ->. apply parseKeyShare_loop_Ret in E as [-> [->|?]]; eauto.
Qed.

Lemma parseKeyShare_nil mem :
  parseKeyShare mem nil_slice = (nil_slice, Some ErrMalformedKeyShare).
Proof. reflexivity. Qed.

(** * parseClientHello *)

Lemma parseClientHello_body_Ret arr data mem ret err :
  parseClientHello_body arr data = Ret (mem, ret, err) →
  match ret with
  | Some ch => framed arr data mem ch err
  | None => err = Some ErrWrongMagic ∨ err = Some ErrNotAClientHello
            ∨ err = Some ErrHelloLength
  end.
Proof.
  intros E. unfold parseClientHello_body in E.
  inv_bind E. case_bool_decide as Hm; [|injection E as <- <- <-; auto].
  cbn [negb] in E.
  do 2 inv_bind E.
  set (m := go_copy _ _) in E.
  assert (Hlm : length m = len data - 5)
    by (unfold m; by rewrite length_go_copy, length_replicate).
  inv_bind E. case_bool_decide as Ht; [|injection E as <- <- <-; auto].
  cbn [negb] in E.
  do 3 inv_bind E.
  match type of E with context [negb (?a =? ?b)] =>
    destruct (Nat.eqb_spec a b) as [Hl|]; [|injection E as <- <- <-; auto] end.
  cbn [negb] in E.
  simpl in Hl. rewrite !bytes_of_lookup in Hl by (simpl; lia). simpl in Hl.
  do 12 inv_bind E.
  destruct (parseExtensions _ _) as [exts e] eqn:Hext.
  injection E as <- <- <-.
  constructor; unfold ext_start;
    cbn [Nat.add handshakeType length_ clientVersion random sessionIdLen sessionId
         cipherSuitesLen cipherSuites compressionMethodsLen compressionMethods
         extensionsLen extensions] in *.
  - done.
  - by rewrite Nat.add_0_r in Hm.
  - done.
  - done.
  - rewrite !bytes_of_lookup by (simpl; lia). simpl. split; lia.
  - f_equal; lia.
  - f_equal; lia.
  - done.
  - f_equal; lia.
  - f_equal; lia.
  - f_equal; lia.
  - lia.
  - rewrite <- Hext. f_equal. f_equal; lia.
Qed.

Lemma parseClientHello_ok arr data mem ret :
  parseClientHello arr data = (mem, ret, None) →
  ∃ ch, ret = Some ch ∧ parsed arr data mem ch.
Proof.
  unfold parseClientHello.
  destruct (parseClientHello_body arr data) as [r|] eqn:E; [|done].
  intros ->. apply parseClientHello_body_Ret in E.
  destruct ret as [ch|]; [by exists ch|]. by destruct E as [|[|]].
Qed.




Lemma framed_length arr data mem ch err :
  framed arr data mem ch err → length mem = len data - 5 ∧ 49 ≤ len data.
Proof.
  intros F. pose proof (parsed_mem _ _ _ _ _ F) as Hm.
  apply (f_equal length) in Hm. rewrite length_go_copy, length_replicate in Hm.
  pose proof (parsed_fit _ _ _ _ _ F). pose proof (parsed_len _ _ _ _ _ F).
  unfold ext_start in *. lia.
Qed.

(** * The in-place append *)

Lemma take_drop_app_l {A} (X Y : list A) o l :
  o + l ≤ length X → take l (drop o (X ++ Y)) = take l (drop o X).
Proof.
  intros H. rewrite drop_app_le by lia. rewrite take_app_le; [done|].
  rewrite length_drop. lia.
Qed.

Lemma append_in_spec mem s t mem' ct :
  slice_ok mem s →
  append_in mem s t = (mem', ct) →
  ct = bytes_of mem s ++ t
  ∧ length mem' = length mem
  ∧ ∀ s', off s' + len s' ≤ off s + len s → bytes_of mem' s' = bytes_of mem s'.
Proof.
  intros [Hlc Hcap]. unfold append_in.
  destruct (Nat.leb_spec (len s + length t) (cap s)) as [Hfit|_];
    [|by intros [= <- <-]].
  intros [= <- <-].
  assert (Hl : length (take (off s + len s) mem) = off s + len s)
    by (rewrite length_take; lia).
  split; [|split].
  - unfold bytes_of; simpl.
    rewrite drop_app_le by lia. rewrite take_app_ge; rewrite length_drop, Hl; [|lia].
    replace (len s + length t - (off s + len s - off s)) with (length t) by lia.
    rewrite take_app_length. f_equal.
    rewrite skipn_firstn_comm. f_equal. lia.
  - rewrite !length_app, length_drop, Hl. lia.
  - intros s' Hs'. unfold bytes_of.
    rewrite take_drop_app_l by lia.
    rewrite (take_drop_commute _ (len s')), take_take, Nat.min_l by lia.
    by rewrite <- take_drop_commute.
Qed.

(** The in-place case, spelled out. *)
Lemma append_in_place mem s t :
  len s + length t ≤ cap s →
  (append_in mem s t).1
  = take (off s + len s) mem ++ t ++ drop (off s + len s + length t) mem.
Proof.
  intros H. unfold append_in. by destruct (Nat.leb_spec (len s + length t) (cap s)); [|lia].
Qed.

(** * unmarshalClientHello on a parsed ClientHello *)

Section Unmarshal.

Context `{Collaborators}.

Lemma parsed_slices arr data mem ch err :
  framed arr data mem ch err →
  slice_ok mem (random ch) ∧ slice_ok mem (sessionId ch)
  ∧ len (random ch) = 32 ∧ len (sessionId ch) = sessionIdLen ch
  ∧ off (random ch) + 32 ≤ off (sessionId ch)
  ∧ map_Forall (λ _ s, off (sessionId ch) + len (sessionId ch) + 5 + 4 ≤ off s
                       ∧ len s ≤ cap s ∧ off s + cap s = length mem)
      (extensions ch).
Proof.
  intros F. destruct (framed_length _ _ _ _ _ F) as [Hlm Hlen].
  pose proof (parsed_fit _ _ _ _ _ F) as Hfit. unfold ext_start in Hfit.
  rewrite (parsed_random _ _ _ _ _ F), (parsed_sessionId _ _ _ _ _ F).
  unfold slice_ok; simpl. split_and!; try lia.
  pose proof (parseExtensions_within _ _ _ _ (parsed_extensions _ _ _ _ _ F)) as Hw.
  eapply map_Forall_impl; [exact Hw|].
  intros k s (? & ? & ?); simpl in *. unfold ext_start in *. lia.
Qed.

Lemma unmarshalClientHello_parsed arr data mem ch pv w :
  parsed arr data mem ch →
  let r := bytes_of mem (random ch) in
  let input := default nil_slice (extensions ch !! (x00, x33)) in
  unmarshalClientHello mem ch pv w =
  match ecdh_Unmarshal r with
  | None =>
      (Ret (mem, mkAuthenticationInfo [] [] [], Some ErrInvalidPubKey),
       World (usedRandom w) (entropy w) (trace w ++ [EvEcdhUnmarshal r]))
  | Some ephPub =>
      let w' := World (usedRandom w) (entropy w)
                  ((trace w ++ [EvEcdhUnmarshal r]) ++ [EvGenerateSharedSecret]) in
      match parseKeyShare mem input with
      | (_, Some e) =>
          (Ret (mem, mkAuthenticationInfo (ecdh_GenerateSharedSecret pv ephPub)
                       (take 12 r) [], Some e), w')
      | (keyShare, None) =>
          (Ret ((append_in mem (sessionId ch) (bytes_of mem keyShare)).1,
                payload_of mem ch pv ephPub (bytes_of mem keyShare),
                if sessionIdLen ch =? 32 then None
                else Some (ErrCiphertextLength (sessionIdLen ch + 32))), w')
      end
  end.
Proof.
  intros F r input.
  destruct (parsed_slices _ _ _ _ _ F) as (Hr & Hs & Hrl & Hsl & Hrs & Hext).
  unfold unmarshalClientHello.
  unfold mbind, IO_bind, emit. cbn [trace usedRandom entropy]. fold r.
  destruct (ecdh_Unmarshal r) as [ephPub|]; [|done].
  assert (Hn : slice_to (random ch) 12
               = Ret (Slice (off (random ch)) 12 (cap (random ch)))).
  { unfold slice_to. rewrite slice_range_ok by (destruct Hr; lia).
    do 2 f_equal; lia. }
  rewrite Hn. unfold lift. cbn [trace usedRandom entropy]. fold input.
  assert (Hnonce : ∀ m', (∀ s', off s' + len s' ≤ off (sessionId ch) + len (sessionId ch)
                             → bytes_of m' s' = bytes_of mem s') →
            bytes_of m' (Slice (off (random ch)) 12 (cap (random ch))) = take 12 r).
  { intros m' Hm'. rewrite Hm' by (simpl; lia).
    rewrite <- (Nat.add_0_r (off (random ch))).
    rewrite (bytes_of_sub mem (random ch) 0 12) by lia. by rewrite drop_0. }
  destruct (parseKeyShare mem input) as [keyShare [e|]] eqn:Hks.
  - unfold mret, IO_ret. by rewrite Hnonce.
  - destruct (append_in mem (sessionId ch) (bytes_of mem keyShare))
      as [mem' ct] eqn:Happ.
    destruct (append_in_spec _ _ _ _ _ Hs Happ) as (-> & Hlen' & Hsame).
    rewrite (Hnonce mem' Hsame). cbn [fst].
    apply parseKeyShare_found in Hks as (q & Hq & -> & Hcap).
    assert (Hin : ∃ s, extensions ch !! (x00, x33) = Some s ∧ input = s).
    { unfold input in *. destruct (extensions ch !! (x00, x33)) as [s|]; [eauto|].
      simpl in Hcap. lia. }
    destruct Hin as (s & Hlook & ->).
    apply Hext in Hlook as (Ho & Hlc & Hoc).
    rewrite length_app, !length_bytes_of; [|unfold slice_ok; simpl; lia|done].
    cbn [len]. rewrite Hsl.
    destruct (Nat.eqb_spec (sessionIdLen ch + 32) 64),
             (Nat.eqb_spec (sessionIdLen ch) 32); try lia; done.
Qed.

End Unmarshal.

(** * The reply *)

Lemma addRecordLayer_eq input typ ver :
  length typ = 1 → length ver = 2 →
  addRecordLayer input typ ver
  = typ ++ ver ++ put_u16 (length input mod (256 * 256)) ++ input.
Proof.
  intros Ht Hv.
  destruct typ as [|t [|]]; try done. destruct ver as [|v0 [|v1 [|]]]; try done.
  unfold addRecordLayer, put_u16.
  simpl. do 5 f_equal.
  apply go_copy_same_length. by rewrite !drop_0, length_replicate.
Qed.

Lemma length_addRecordLayer input typ ver :
  length typ = 1 → length ver = 2 →
  length (addRecordLayer input typ ver) = 5 + length input.
Proof.
  intros. rewrite addRecordLayer_eq by done.
  rewrite !length_app. unfold put_u16. simpl. lia.
Qed.

Lemma keyExchange_fill (x : list byte) :
  length x = 28 → take 28 (go_copy (replicate 32 x00) x) = x.
Proof.
  intros Hx. unfold go_copy. rewrite length_replicate, Hx.
  rewrite (take_ge x) by lia. rewrite take_app_length'; done.
Qed.

Section Reply.

Context `{Collaborators}.

Lemma composeServerHello_run sessionId sharedSecret sessionKey w :
  let nonce := entropy w <$> seq 0 12 in
  let w1 := World (usedRandom w) (λ i, entropy w (12 + i))
              ((trace w ++ [EvRandRead 12])
               ++ [EvAESGCMEncrypt nonce sharedSecret sessionKey]) in
  composeServerHello sessionId sharedSecret sessionKey w =
  match util_AESGCMEncrypt nonce sharedSecret sessionKey with
  | inl err => (Ret ([], Some err), w1)
  | inr encryptedKey =>
      if 48 <=? length encryptedKey then
        let pad := entropy w <$> seq 12 4 in
        (Ret (serverHello_layout nonce encryptedKey sessionId pad, None),
         World (usedRandom w) (λ i, entropy w (12 + (4 + i)))
           (trace w1 ++ [EvRandRead 4]))
      else (Panic, w1)
  end.
Proof.
  intros nonce w1. subst w1.
  assert (Hnl : length nonce = 12) by (unfold nonce; by rewrite length_fmap, length_seq).
  unfold composeServerHello.
  unfold mbind, IO_bind, rand_Read, emit, lift, mret, IO_ret.
  cbn [trace usedRandom entropy]. fold nonce. clearbody nonce.
  destruct (util_AESGCMEncrypt nonce sharedSecret sessionKey) as [err|ct]; [done|].
  unfold whole. rewrite Hnl. rewrite slice_range_ok by (simpl; lia).
  destruct (Nat.leb_spec 48 (length ct)) as [Hct|Hct].
  - rewrite !slice_range_ok by (simpl; lia).
    cbn [trace usedRandom entropy]. f_equal. do 2 f_equal.
    unfold serverHello_layout, bytes_of. cbn [off len concat Nat.sub Nat.add].
    rewrite !drop_0, app_nil_r, (take_ge nonce) by lia.
    rewrite keyExchange_fill by (rewrite length_take, length_drop; lia).
    reflexivity.
  - destruct (Nat.leb_spec 20 (length ct)).
    + rewrite slice_range_ok by (simpl; lia).
      assert (slice_range {| off := 0; len := length ct; cap := length ct |} 20 48
              = Panic) as -> by (apply slice_range_Panic; simpl; lia).
      done.
    + assert (slice_range {| off := 0; len := length ct; cap := length ct |} 0 20
              = Panic) as -> by (apply slice_range_Panic; simpl; lia).
      done.
Qed.

End Reply.

(** * Runs of composeReply, the finisher and PrepareConnection *)

Section Runs.

Context `{Collaborators}.

Lemma composeReply_run mem ch sharedSecret sessionKey w :
  let nonce := entropy w <$> seq 0 12 in
  let w1 := World (usedRandom w) (λ i, entropy w (12 + i))
              ((trace w ++ [EvRandRead 12])
               ++ [EvAESGCMEncrypt nonce sharedSecret sessionKey]) in
  composeReply mem ch sharedSecret sessionKey w =
  match util_AESGCMEncrypt nonce sharedSecret sessionKey with
  | inl err => (Ret ([], Some err), w1)
  | inr encryptedKey =>
      if 48 <=? length encryptedKey then
        (Ret (reply_layout nonce encryptedKey (bytes_of mem (sessionId ch))
                (entropy w <$> seq 12 4) (entropy w <$> seq 16 68), None),
         World (usedRandom w) (λ i, entropy w (12 + (4 + (68 + i))))
           ((trace w1 ++ [EvRandRead 4]) ++ [EvRandRead 68]))
      else (Panic, w1)
  end.
Proof.
  intros nonce w1. unfold composeReply.
  unfold mbind at 1. unfold IO_bind. rewrite composeServerHello_run.
  fold nonce. fold w1.
  destruct (util_AESGCMEncrypt nonce sharedSecret sessionKey) as [err|ct]; [done|].
  destruct (48 <=? length ct); [|done].
  unfold mbind, IO_bind, rand_Read, mret, IO_ret. cbn [trace usedRandom entropy].
  unfold reply_layout. rewrite <- app_assoc. do 5 f_equal.
Qed.

Lemma finisher_run mem ch ai conn sessionKey w :
  finisher mem ch ai conn sessionKey w =
  match composeReply mem ch (sharedSecret ai) sessionKey w with
  | (Ret (reply, None), w') =>
      let w'' := World (usedRandom w') (entropy w') (trace w' ++ [EvConnWrite reply]) in
      match conn_Write conn reply with
      | Some err =>
          (Ret (Some err),
           World (usedRandom w') (entropy w') (trace w'' ++ [EvConnClose]))
      | None => (Ret None, w'')
      end
  | (Ret (_, Some err), w') => (Ret (Some err), w')
  | (Panic, w') => (Panic, w')
  end.
Proof.
  unfold finisher, mbind, IO_bind.
  destruct (composeReply _ _ _ _ _) as [[[reply [err|]]|] w']; try done.
  unfold emit. cbn [trace usedRandom entropy].
  by destruct (conn_Write conn reply).
Qed.

Lemma PrepareConnection_failed_run arr data mem ret e sta conn w :
  parseClientHello arr data = (mem, ret, Some e) →
  PrepareConnection arr data sta conn w
  = (Ret (mkClientInfo EmptyString [], None, Some ErrBadClientHello),
     World (usedRandom w) (entropy w) (trace w ++ [EvLogDebug e])).
Proof. intros Hp. unfold PrepareConnection. by rewrite Hp. Qed.

Lemma PrepareConnection_parsed_run arr data mem ch sta conn w :
  parseClientHello arr data = (mem, Some ch, None) →
  let r := bytes_of mem (random ch) in
  let w1 := World ({[ r ]} ∪ usedRandom w) (entropy w)
              (trace w ++ [EvRegisterRandom r]) in
  PrepareConnection arr data sta conn w =
  if bool_decide (r ∈ usedRandom w)
  then (Ret (mkClientInfo EmptyString [], None, Some ErrReplay), w1)
  else
    match unmarshalClientHello mem ch (staticPv sta) w1 with
    | (Ret (_, _, Some err), w2) => (Ret (mkClientInfo EmptyString [], None, Some err), w2)
    | (Ret (mem', ai, None), w2) =>
        let w3 := World (usedRandom w2) (entropy w2) (trace w2 ++ [EvTouchStone ai]) in
        match touchStone ai (Now sta) with
        | (info, Some err) =>
            (Ret (info, None, Some ErrNotCloak),
             World (usedRandom w2) (entropy w2) (trace w3 ++ [EvLogDebug err]))
        | (info, None) =>
            let w4 := World (usedRandom w2) (entropy w2)
                        (trace w3 ++ [EvProxyBook (ProxyMethod info)]) in
            if bool_decide (ProxyMethod info ∈ ProxyBook sta)
            then (Ret (info, Some (finisher mem' ch ai conn), None), w4)
            else (Ret (info, None, Some ErrBadProxyMethod), w4)
        end
    | (Panic, w2) => (Panic, w2)
    end.
Proof.
  intros Hp r w1. unfold PrepareConnection. rewrite Hp.
  unfold mbind, IO_bind, lift, registerRandom. fold r. fold w1.
  destruct (bool_decide (r ∈ usedRandom w)); [done|].
  destruct (unmarshalClientHello mem ch (staticPv sta) w1)
    as [[[[mem' ai] [err|]]|] w2]; try done.
  unfold emit. cbn [trace usedRandom entropy].
  destruct (touchStone ai (Now sta)) as [info [err|]]; [done|].
  cbn [trace usedRandom entropy].
  by destruct (bool_decide (ProxyMethod info ∈ ProxyBook sta)).
Qed.

End Runs.

Section Orchestrator.

Context `{Collaborators}.

(** A key share found in a parsed ClientHello lies in [peeled], behind
    the session id. *)
Lemma parsed_keyShare arr data mem ch keyShare :
  parsed arr data mem ch →
  parseKeyShare mem (default nil_slice (extensions ch !! (x00, x33)))
    = (keyShare, None) →
  slice_ok mem keyShare ∧ len keyShare = 32
  ∧ length (bytes_of mem keyShare) = 32
  ∧ len (sessionId ch) + 32 ≤ cap (sessionId ch).
Proof.
  intros F Hks.
  destruct (parsed_slices _ _ _ _ _ F) as (Hr & Hs & Hrl & Hsl & Hrs & Hext).
  apply parseKeyShare_found in Hks as (q & Hq & -> & Hcap).
  destruct (extensions ch !! (x00, x33)) as [s|] eqn:Hlook;
    [|simpl in Hcap; lia].
  apply Hext in Hlook as (Ho & Hlc & Hoc). cbn [default id] in *.
  assert (Hok : slice_ok mem (Slice (off s + (q + 4)) 32 (cap s - (q + 4))))
    by (unfold slice_ok; simpl; lia).
  split_and!; [done | done | by rewrite length_bytes_of |].
  rewrite (parsed_sessionId _ _ _ _ _ F) in *. cbn [off len cap] in *. lia.
Qed.

(** All runs of [PrepareConnection] on a packet that parses. *)
Lemma PrepareConnection_spec arr data mem ch sta conn w :
  parseClientHello arr data = (mem, Some ch, None) →
  let r := bytes_of mem (random ch) in
  let input := default nil_slice (extensions ch !! (x00, x33)) in
  let W evs := World ({[ r ]} ∪ usedRandom w) (entropy w) (trace w ++ evs) in
  let info0 := mkClientInfo EmptyString [] in
  PrepareConnection arr data sta conn w =
  if bool_decide (r ∈ usedRandom w)
  then (Ret (info0, None, Some ErrReplay), W [EvRegisterRandom r])
  else
    match ecdh_Unmarshal r with
    | None =>
        (Ret (info0, None, Some ErrInvalidPubKey),
         W [EvRegisterRandom r; EvEcdhUnmarshal r])
    | Some ephPub =>
        match parseKeyShare mem input with
        | (_, Some err) =>
            (Ret (info0, None, Some err),
             W [EvRegisterRandom r; EvEcdhUnmarshal r; EvGenerateSharedSecret])
        | (keyShare, None) =>
            let ai := payload_of mem ch (staticPv sta) ephPub (bytes_of mem keyShare) in
            let mem' := (append_in mem (sessionId ch) (bytes_of mem keyShare)).1 in
            if sessionIdLen ch =? 32 then
              match touchStone ai (Now sta) with
              | (info, Some err) =>
                  (Ret (info, None, Some ErrNotCloak),
                   W [EvRegisterRandom r; EvEcdhUnmarshal r; EvGenerateSharedSecret;
                      EvTouchStone ai; EvLogDebug err])
              | (info, None) =>
                  if bool_decide (ProxyMethod info ∈ ProxyBook sta)
                  then (Ret (info, Some (finisher mem' ch ai conn), None),
                        W [EvRegisterRandom r; EvEcdhUnmarshal r;
                           EvGenerateSharedSecret; EvTouchStone ai;
                           EvProxyBook (ProxyMethod info)])
                  else (Ret (info, None, Some ErrBadProxyMethod),
                        W [EvRegisterRandom r; EvEcdhUnmarshal r;
                           EvGenerateSharedSecret; EvTouchStone ai;
                           EvProxyBook (ProxyMethod info)])
              end
            else
              (Ret (info0, None, Some (ErrCiphertextLength (sessionIdLen ch + 32))),
               W [EvRegisterRandom r; EvEcdhUnmarshal r; EvGenerateSharedSecret])
        end
    end.
Proof.
  intros Hp r input W info0.
  rewrite (PrepareConnection_parsed_run _ _ _ _ _ _ _ Hp). fold r.
  destruct (bool_decide (r ∈ usedRandom w)); [done|].
  apply parseClientHello_ok in Hp as (? & [= <-] & F).
  rewrite (unmarshalClientHello_parsed _ _ _ _ _ _ F).
  fold r. fold input. cbn [trace usedRandom entropy].
  destruct (ecdh_Unmarshal r) as [ephPub|];
    [|unfold W; by rewrite <- !app_assoc].
  destruct (parseKeyShare mem input) as [keyShare [err|]];
    [unfold W; by rewrite <- !app_assoc|].
  destruct (sessionIdLen ch =? 32);
    [|unfold W; by rewrite <- !app_assoc].
  cbn [trace usedRandom entropy].
  destruct (touchStone _ _) as [info [err|]];
    [unfold W; by rewrite <- !app_assoc|].
  destruct (bool_decide (ProxyMethod info ∈ ProxyBook sta));
    unfold W; by rewrite <- !app_assoc.
Qed.

End Orchestrator.

(** * The claims *)



Section DecoderClaims.

Context `{Collaborators}.


(** C10.  In a region of well-formed {type, length, payload} entries
    in which a type occurs twice or more, the map [parseExtensions]
    returns holds for that type the payload of its last occurrence:
    the later entry overwrites the earlier one, without an error. *)
Theorem parseExtensions_last_wins (mem : list byte) (input : slice)
    (typ : byte * byte) (p1 p2 : list byte)
    (es1 es2 es3 : list ((byte * byte) * list byte)) :
  let es := es1 ++ (typ, p1) :: es2 ++ (typ, p2) :: es3 in
  slice_ok mem input →
  bytes_of mem input = encode_extensions es →
  Forall (λ e, length e.2 < 256 * 256) es →
  typ ∉ es3.*1 →
  ∃ m data,
    parseExtensions mem input = (m, None)
    ∧ m !! typ = Some data
    ∧ bytes_of mem data = p2.
Proof.
  intros es Hok Hbytes Hwf Hlast.
  destruct (parseExtensions_encoded mem input es Hok Hwf Hbytes) as (m & Hm & Hlook).
  specialize (Hlook typ). unfold es in Hlook.
  rewrite last_payload_app in Hlook. cbn [last_payload] in Hlook.
  rewrite last_payload_app in Hlook. cbn [last_payload] in Hlook.
  rewrite (last_payload_absent _ _ Hlast), decide_True in Hlook by done.
  destruct (m !! typ) as [data|] eqn:Hd; [|done].
  injection Hlook as Hdata. by exists m, data.
Qed.

End DecoderClaims.

Lemma length_serverHello_layout nonce encryptedKey sessionId pad :
  length nonce = 12 → 48 ≤ length encryptedKey → length pad = 4 →
  length (serverHello_layout nonce encryptedKey sessionId pad) = 90 + length sessionId.
Proof.
  intros Hn He Hp. unfold serverHello_layout.
  rewrite !length_app, !length_take, length_drop, Hn, Hp. cbn [length]. lia.
Qed.

Lemma length_entropy (f : nat → byte) (a n : nat) : length (f <$> seq a n) = n.
Proof. by rewrite length_fmap, length_seq. Qed.

Section ReplyClaims.

Context `{Collaborators}.

(** C2, for a session id of 32 bytes.  For a ClientHello whose
    session id is 32 bytes long (as it is for every ClientHello that [PrepareConnection]
    hands to its finisher), a shared secret and a session key that the
    cipher turns into a 48-byte ciphertext, [composeReply] returns
    three records in the order ServerHello, ChangeCipherSpec,
    application data, 206 bytes in all, in which everything but the
    nonce, the ciphertext, the echoed session id and the random
    padding is constant. *)
Theorem composeReply_fixed (mem : list byte) (ch : ClientHello)
    (sharedSecret sessionKey encryptedKey : list byte) (w : world) :
  length (bytes_of mem (sessionId ch)) = 32 →
  util_AESGCMEncrypt (entropy w <$> seq 0 12) sharedSecret sessionKey
    = inr encryptedKey →
  length encryptedKey = 48 →
  ∃ reply w',
    composeReply mem ch sharedSecret sessionKey w = (Ret (reply, None), w')
    ∧ length reply = 206
    ∧ reply =
        (* ServerHello record: handshake, TLS 1.2, 122 bytes *)
        [x16; x03; x03; x00; x7a]
        ++ [x02; x00; x00; x76; x03; x03]
        ++ (entropy w <$> seq 0 12) ++ take 20 encryptedKey
        ++ [x20] ++ bytes_of mem (sessionId ch)
        ++ [xc0; x30; x00; x00; x2e]
        ++ [x00; x33; x00; x24; x00; x1d; x00; x20]
        ++ drop 20 encryptedKey ++ (entropy w <$> seq 12 4)
        ++ [x00; x2b; x00; x02; x03; x04]
        (* ChangeCipherSpec record: one byte *)
        ++ [x14; x03; x03; x00; x01; x01]
        (* application data record: 68 bytes *)
        ++ [x17; x03; x03; x00; x44] ++ (entropy w <$> seq 16 68).
Proof.
  intros Hsid Henc Hlen.
  rewrite composeReply_run, Henc, Hlen. cbn [Nat.leb].
  eexists _, _. split; [done|].
  unfold reply_layout. rewrite !addRecordLayer_eq by done.
  rewrite length_serverHello_layout, Hsid, length_entropy
    by (rewrite ?length_entropy; lia).
  change (put_u16 ((90 + 32) `mod` (256 * 256))) with [x00; x7a].
  change (put_u16 (length [x01] `mod` (256 * 256))) with [x00; x01].
  change (put_u16 (68 `mod` (256 * 256))) with [x00; x44].
  assert (Htail : take 28 (drop 20 encryptedKey) = drop 20 encryptedKey)
    by (apply take_ge; rewrite length_drop; lia).
  unfold serverHello_layout. rewrite Htail. split.
  - rewrite !length_app, !length_entropy, length_take, length_drop, Hsid, Hlen.
    reflexivity.
  - rewrite <- !app_assoc. reflexivity.
Qed.

(** C4.  In a ServerHello that [composeServerHello] returns, bytes
    0..11 of the random field are the nonce the key was encrypted
    under, and bytes 12..31 of the random field followed by the first
    28 bytes of the key-exchange field of the key_share extension are
    the first 48 bytes of the ciphertext: all of it, bit for bit, when
    the ciphertext is 48 bytes long. *)
Theorem composeServerHello_split (sessionId sharedSecret sessionKey : list byte)
    (w w' : world) (sh : list byte) :
  composeServerHello sessionId sharedSecret sessionKey w = (Ret (sh, None), w') →
  let random := take 32 (drop 6 sh) in
  let keyExchange := take 32 (drop (52 + length sessionId) sh) in
  ∃ nonce encryptedKey,
    nonce = entropy w <$> seq 0 12
    ∧ util_AESGCMEncrypt nonce sharedSecret sessionKey = inr encryptedKey
    ∧ length random = 32 ∧ length keyExchange = 32
    ∧ take 12 random = nonce
    ∧ drop 12 random ++ take 28 keyExchange = take 48 encryptedKey
    ∧ (length encryptedKey = 48 →
       drop 12 random ++ take 28 keyExchange = encryptedKey).
Proof.
  intros Hrun random keyExchange.
  rewrite composeServerHello_run in Hrun. cbv zeta in Hrun.
  assert (Hn : length (entropy w <$> seq 0 12) = 12) by apply length_entropy.
  assert (Hp : length (entropy w <$> seq 12 4) = 4) by apply length_entropy.
  remember (entropy w <$> seq 0 12) as nonce eqn:Hnonce.
  remember (entropy w <$> seq 12 4) as pad eqn:Hpad.
  destruct (util_AESGCMEncrypt _ _ _) as [err|ct] eqn:Henc; [done|].
  destruct (Nat.leb_spec 48 (length ct)) as [Hct|]; [|done].
  injection Hrun as Hsh _.
  exists nonce, ct. split; [done|]. split; [done|]. clear Hnonce Hpad.
  subst sh.
  assert (Hrandom : random = nonce ++ take 20 ct).
  { unfold random, serverHello_layout. cbn [app drop].
    rewrite <- app_assoc, (app_assoc nonce).
    apply take_app_length'. rewrite length_app, length_take. lia. }
  assert (Hkx : keyExchange = take 28 (drop 20 ct) ++ pad).
  { unfold keyExchange, serverHello_layout.
    rewrite !app_assoc.
    rewrite <- (app_assoc _ (take 28 (drop 20 ct))).
    rewrite <- (app_assoc _ (take 28 (drop 20 ct) ++ pad)).
    rewrite drop_app_length'.
    - apply take_app_length'. rewrite length_app, length_take, length_drop. lia.
    - rewrite !length_app, length_take, Hn. cbn [length]. lia. }
  rewrite Hrandom, Hkx.
  assert (Hjoin : drop 12 (nonce ++ take 20 ct) ++ take 28 (take 28 (drop 20 ct) ++ pad)
                  = take 48 ct).
  { rewrite drop_app_length' by done.
    rewrite take_app_length' by (rewrite length_take, length_drop; lia).
    rewrite <- (take_drop 20 (take 48 ct)). rewrite take_take. f_equal.
    by rewrite skipn_firstn_comm. }
  split_and!.
  - rewrite length_app, length_take. lia.
  - rewrite length_app, length_take, length_drop. lia.
  - by apply take_app_length'.
  - done.
  - intros Hlen. rewrite Hjoin. apply take_ge. lia.
Qed.

End ReplyClaims.

Lemma conn_writes_app evs1 evs2 :
  conn_writes (evs1 ++ evs2) = conn_writes evs1 ++ conn_writes evs2.
Proof. apply omap_app. Qed.

(** Where the session id sits in a reply. *)
Lemma reply_layout_sessionId nonce encryptedKey sessionId pad cert :
  length nonce = 12 → 48 ≤ length encryptedKey → length pad = 4 →
  reply_layout nonce encryptedKey sessionId pad cert !! 43 = Some x20
  ∧ take (length sessionId)
      (drop 44 (reply_layout nonce encryptedKey sessionId pad cert)) = sessionId.
Proof.
  intros Hn He Hp. unfold reply_layout.
  rewrite (addRecordLayer_eq (serverHello_layout _ _ _ _)) by done.
  unfold serverHello_layout, put_u16.
  set (tail := [xc0; x30] ++ _).
  generalize (length ([x02] ++ [x00; x00; x76] ++ [x03; x03] ++ (nonce ++ take 20 encryptedKey)
                      ++ [x20] ++ sessionId ++ tail) `mod` (256 * 256)).
  intros l. generalize (byte_of_nat (l `div` 256)) (byte_of_nat l). intros b3 b4.
  assert (Heq : ∀ rest,
    ([x16] ++ [x03; x03] ++ [b3; b4]
     ++ [x02] ++ [x00; x00; x76] ++ [x03; x03]
     ++ (nonce ++ take 20 encryptedKey) ++ [x20] ++ sessionId ++ tail) ++ rest
    = ([x16; x03; x03; b3; b4;
        x02; x00; x00; x76; x03; x03] ++ nonce ++ take 20 encryptedKey)
      ++ x20 :: sessionId ++ tail ++ rest).
  { intros rest. rewrite <- !app_assoc. reflexivity. }
  rewrite Heq.
  assert (Hpre : length ([x16; x03; x03; b3; b4;
                          x02; x00; x00; x76; x03; x03] ++ nonce ++ take 20 encryptedKey)
                 = 43).
  { rewrite !length_app, length_take, Hn. cbn [length]. lia. }
  split.
  - rewrite lookup_app_r by lia. by rewrite Hpre.
  - change 44 with (43 + 1). rewrite <- drop_drop, <- Hpre, drop_app_length.
    cbn [drop]. by rewrite drop_0, take_app_length.
Qed.

(** An event that is none of the events of a list. *)
Ltac absent :=
  let Hin := fresh "Hin" in
  intros Hin;
  repeat (apply elem_of_cons in Hin as [Hin|Hin]; [discriminate|]);
  by apply elem_of_nil in Hin.

Section OrchestratorClaims.

Context `{Collaborators}.

(** C3.  For a parsed ClientHello whose random decodes to a public key
    and whose key_share extension yields an x25519 share, which is 32
    bytes long, [unmarshalClientHello] returns a payload whose nonce is
    the first twelve bytes of the random and whose ciphertext-with-tag
    is the session id followed by the key share; the function reports
    an error exactly when the session id is not 32 bytes long. *)
Theorem unmarshalClientHello_payload (arr : list byte) (data : slice)
    (mem : list byte) (ch : ClientHello) (staticPv : PrivateKey)
    (ephPub : PublicKey) (keyShare : slice) (w : world) :
  parseClientHello arr data = (mem, Some ch, None) →
  ecdh_Unmarshal (bytes_of mem (random ch)) = Some ephPub →
  parseKeyShare mem (default nil_slice (extensions ch !! (x00, x33)))
    = (keyShare, None) →
  ∃ mem' ai err w',
    unmarshalClientHello mem ch staticPv w = (Ret (mem', ai, err), w')
    ∧ length (bytes_of mem (random ch)) = 32
    ∧ length (bytes_of mem keyShare) = 32
    ∧ nonce ai = take 12 (bytes_of mem (random ch))
    ∧ ciphertextWithTag ai = bytes_of mem (sessionId ch) ++ bytes_of mem keyShare
    ∧ (err = None ↔ length (ciphertextWithTag ai) = 64).
Proof.
  intros Hp Hunm Hks.
  apply parseClientHello_ok in Hp as (? & [= <-] & F).
  destruct (parsed_slices _ _ _ _ _ F) as (Hr & Hs & Hrl & Hsl & _).
  destruct (parsed_keyShare _ _ _ _ _ F Hks) as (_ & _ & Hkl & _).
  rewrite (unmarshalClientHello_parsed _ _ _ _ _ _ F). cbv zeta.
  rewrite Hunm, Hks. eexists _, _, _, _. split; [done|].
  cbn [nonce ciphertextWithTag payload_of].
  split_and!; try done.
  - by rewrite length_bytes_of.
  - rewrite length_app, Hkl, length_bytes_of, Hsl by done.
    destruct (Nat.eqb_spec (sessionIdLen ch) 32); split; (done || lia).
Qed.

(** C5, with the extractor set apart.  In the step from a derived key to an
    authenticated client, a failure of the decision service makes
    [PrepareConnection] return [ErrNotCloak], after logging the cause;
    a failure of the key-share extractor, or a ciphertext that is not
    64 bytes long, is returned as the error [unmarshalClientHello]
    gave, which is never [ErrNotCloak]. *)
Theorem PrepareConnection_authentication_failures (arr : list byte)
    (data : slice) (mem : list byte) (ch : ClientHello) (sta : State)
    (conn : Conn) (w : world) (ephPub : PublicKey) :
  parseClientHello arr data = (mem, Some ch, None) →
  bytes_of mem (random ch) ∉ usedRandom w →
  ecdh_Unmarshal (bytes_of mem (random ch)) = Some ephPub →
  ∃ info fin err w',
    PrepareConnection arr data sta conn w = (Ret (info, fin, err), w')
    ∧ match parseKeyShare mem (default nil_slice (extensions ch !! (x00, x33))) with
      | (_, Some e) =>
          err = Some e ∧ keyShare_error e ∧ e ≠ ErrNotCloak ∧ fin = None
      | (keyShare, None) =>
          if sessionIdLen ch =? 32 then
            match touchStone (payload_of mem ch (staticPv sta) ephPub
                                (bytes_of mem keyShare)) (Now sta) with
            | (_, Some e) =>
                err = Some ErrNotCloak ∧ fin = None
                ∧ last (trace w') = Some (EvLogDebug e)
            | (_, None) => err ≠ Some ErrNotCloak
            end
          else err = Some (ErrCiphertextLength (sessionIdLen ch + 32)) ∧ fin = None
      end.
Proof.
  intros Hp Hfresh Hunm.
  rewrite (PrepareConnection_spec _ _ _ _ _ _ _ Hp). cbv zeta.
  rewrite bool_decide_eq_false_2, Hunm by done.
  destruct (parseKeyShare mem _) as [keyShare [e|]] eqn:Hks.
  - eexists _, _, _, _. split; [done|].
    apply parseKeyShare_failed in Hks as [_ He]. split_and!; try done.
    by destruct He as [->|[->|(n & _ & ->)]].
  - destruct (sessionIdLen ch =? 32); [|by eexists _, _, _, _].
    destruct (touchStone _ _) as [info [e|]].
    + eexists _, _, _, _. split; [done|]. split_and!; try done.
      cbn [trace]. by rewrite last_app.
    + destruct (bool_decide _); by eexists _, _, _, _.
Qed.


(** C7.  For a packet that parses, the first thing [PrepareConnection]
    does is to register the 32-byte random with the replay guard:
    before the key exchange, the authentication and the look-up of the
    proxy method.  Whatever the outcome, the random is in the guard
    afterwards; and when it was there already, the attempt ends with
    [ErrReplay] and nothing else has been called. *)
Theorem PrepareConnection_registers_first (arr : list byte) (data : slice)
    (mem : list byte) (ch : ClientHello) (sta : State) (conn : Conn) (w : world) :
  parseClientHello arr data = (mem, Some ch, None) →
  let r := bytes_of mem (random ch) in
  ∃ res w' evs,
    PrepareConnection arr data sta conn w = (Ret res, w')
    ∧ length r = 32
    ∧ trace w' = trace w ++ EvRegisterRandom r :: evs
    ∧ (∀ r', EvRegisterRandom r' ∉ evs)
    ∧ usedRandom w' = {[ r ]} ∪ usedRandom w
    ∧ (r ∈ usedRandom w →
       res = (mkClientInfo EmptyString [], None, Some ErrReplay) ∧ evs = [])
    ∧ (r ∉ usedRandom w → (res.2) ≠ Some ErrReplay ∧ evs ≠ []).
Proof.
  intros Hp r.
  destruct (parseClientHello_ok _ _ _ _ Hp) as (? & [= <-] & F).
  destruct (parsed_slices _ _ _ _ _ F) as (Hr & Hs & Hrl & Hsl & _).
  assert (Hlen : length r = 32) by (unfold r; by rewrite length_bytes_of).
  rewrite (PrepareConnection_spec _ _ _ _ _ _ _ Hp). cbv zeta. fold r.
  case_bool_decide as Hin.
  { eexists _, _, []. split_and!; try done. intros r'. apply not_elem_of_nil. }
  assert (Hkse : ∀ ks e, parseKeyShare mem
                   (default nil_slice (extensions ch !! (x00, x33))) = (ks, Some e) →
                 e ≠ ErrReplay).
  { intros ks e Hks. apply parseKeyShare_failed in Hks as [_ He].
    by destruct He as [->|[->|(n & _ & ->)]]. }
  destruct (ecdh_Unmarshal r) as [ephPub|].
  2: { eexists _, _, _. split_and!; try done.
       intros r'. absent. }
  destruct (parseKeyShare mem _) as [keyShare [e|]] eqn:Hks.
  { eexists _, _, _. split_and!; try done.
    - intros r'. absent.
    - intros _. split; [|done]. cbn. intros [= ->]. by eapply Hkse. }
  destruct (sessionIdLen ch =? 32).
  2: { eexists _, _, _. split_and!; try done.
       intros r'. absent. }
  destruct (touchStone _ _) as [info [e|]].
  { eexists _, _, _. split_and!; try done.
    intros r'. absent. }
  destruct (bool_decide (ProxyMethod info ∈ ProxyBook sta));
    eexists _, _, _; split_and!; try done;
    intros r'; absent.
Qed.

(** What a finisher does to the transport: nothing when the reply could
    not be composed, else one write of the reply, and a close after it
    when the write failed. *)
Lemma finisher_writes mem ch ai conn sessionKey w :
  ∃ r w' evs,
    finisher mem ch ai conn sessionKey w = (r, w')
    ∧ trace w' = trace w ++ evs
    ∧ match r with
      | Ret None =>
          ∃ pre reply, evs = pre ++ [EvConnWrite reply] ∧ conn_writes pre = []
                       ∧ conn_Write conn reply = None
      | Ret (Some e) =>
          conn_writes evs = []
          ∨ ∃ pre reply, evs = pre ++ [EvConnWrite reply; EvConnClose]
                         ∧ conn_writes pre = []
                         ∧ conn_Write conn reply = Some e
      | Panic => conn_writes evs = []
      end
    ∧ ∀ reply, reply ∈ conn_writes evs →
        ∃ encryptedKey,
          48 ≤ length encryptedKey
          ∧ reply = reply_layout (entropy w <$> seq 0 12) encryptedKey
                      (bytes_of mem (sessionId ch))
                      (entropy w <$> seq 12 4) (entropy w <$> seq 16 68).
Proof.
  rewrite finisher_run, composeReply_run. cbv zeta.
  destruct (util_AESGCMEncrypt _ _ _) as [e|ct].
  { eexists _, _, _. split; [done|]. cbn [trace]. rewrite <- app_assoc.
    split; [done|]. split; [by left|]. intros reply. cbn. by rewrite elem_of_nil. }
  destruct (Nat.leb_spec 48 (length ct)) as [Hct|Hct].
  2: { eexists _, _, _. split; [done|]. cbn [trace]. rewrite <- app_assoc.
       split; [done|]. split; [done|]. intros reply. cbn. by rewrite elem_of_nil. }
  cbn [trace usedRandom entropy].
  destruct (conn_Write conn _) as [e|] eqn:Hw.
  - eexists _, _, _. split; [done|]. cbn [trace]. rewrite <- !app_assoc.
    split; [done|]. split.
    + right. eexists [_; _; _; _], _. by split_and!.
    + intros reply. cbn. rewrite list_elem_of_singleton. intros ->. by exists ct.
  - eexists _, _, _. split; [done|]. cbn [trace]. rewrite <- !app_assoc.
    split; [done|]. split.
    + eexists [_; _; _; _], _. by split_and!.
    + intros reply. cbn. rewrite list_elem_of_singleton. intros ->. by exists ct.
Qed.

(** C8.  [PrepareConnection] writes nothing to the transport, on the
    paths that fail (a malformed packet, a replay, an invalid public
    key, a failed authentication, a proxy method that is not enabled)
    as on the one that succeeds, and it returns a finisher only
    without an error.  The one transport write of the handshake is
    made by the finisher: the reply, once, when it could be composed. *)
Theorem PrepareConnection_writes_nothing (arr : list byte) (data : slice)
    (sta : State) (conn : Conn) (w : world) :
  ∃ info fin err w' evs,
    PrepareConnection arr data sta conn w = (Ret (info, fin, err), w')
    ∧ trace w' = trace w ++ evs
    ∧ conn_writes evs = [] ∧ (EvConnClose ∉ evs)
    ∧ (err ≠ None → fin = None)
    ∧ ∀ f, fin = Some f → ∀ sessionKey w1,
        ∃ r w2 evs2,
          f sessionKey w1 = (r, w2)
          ∧ trace w2 = trace w1 ++ evs2
          ∧ match r with
            | Ret None =>
                ∃ pre reply, evs2 = pre ++ [EvConnWrite reply]
                             ∧ conn_writes pre = []
                             ∧ conn_Write conn reply = None
            | Ret (Some e) =>
                conn_writes evs2 = []
                ∨ ∃ pre reply, evs2 = pre ++ [EvConnWrite reply; EvConnClose]
                               ∧ conn_writes pre = []
                               ∧ conn_Write conn reply = Some e
            | Panic => conn_writes evs2 = []
            end.
Proof.
  destruct (parseClientHello arr data) as [[mem ret] [e|]] eqn:Hp.
  { rewrite (PrepareConnection_failed_run _ _ _ _ _ _ _ _ Hp).
    eexists _, _, _, _, _. split; [done|]. split; [done|].
    split_and!; try done. absent. }
  destruct (parseClientHello_ok _ _ _ _ Hp) as (ch & -> & F).
  rewrite (PrepareConnection_spec _ _ _ _ _ _ _ Hp). cbv zeta.
  destruct (bool_decide _).
  { eexists _, _, _, _, _. split; [done|]. split; [done|].
    split_and!; try done. absent. }
  destruct (ecdh_Unmarshal _) as [ephPub|].
  2: { eexists _, _, _, _, _. split; [done|]. split; [done|].
       split_and!; try done. absent. }
  destruct (parseKeyShare mem _) as [keyShare [e|]].
  { eexists _, _, _, _, _. split; [done|]. split; [done|].
    split_and!; try done. absent. }
  destruct (sessionIdLen ch =? 32).
  2: { eexists _, _, _, _, _. split; [done|]. split; [done|].
       split_and!; try done. absent. }
  destruct (touchStone _ _) as [info [e|]].
  { eexists _, _, _, _, _. split; [done|]. split; [done|].
    split_and!; try done. absent. }
  destruct (bool_decide _).
  2: { eexists _, _, _, _, _. split; [done|]. split; [done|].
       split_and!; try done. absent. }
  eexists _, _, _, _, _. split; [done|]. split; [done|].
  split_and!; try done; [absent|].
  intros f [= <-] sessionKey w1.
  destruct (finisher_writes
              (append_in mem (sessionId ch) (bytes_of mem keyShare)).1 ch
              (payload_of mem ch (staticPv sta) ephPub (bytes_of mem keyShare))
              conn sessionKey w1) as (r & w2 & evs2 & Hf & Ht & Hr & _).
  by exists r, w2, evs2.
Qed.

(** C9.  When [PrepareConnection] returns a finisher, the session id
    of the parsed ClientHello is exactly 32 bytes long, so that in
    every reply the finisher writes, the session-id length byte 0x20
    of the ServerHello is followed by the 32 bytes of that session
    id. *)
Theorem PrepareConnection_session_id_32 (arr : list byte) (data : slice)
    (sta : State) (conn : Conn) (w w' : world) (info : ClientInfo)
    (f : list byte → IO (option error)) (err : option error) :
  PrepareConnection arr data sta conn w = (Ret (info, Some f, err), w') →
  ∃ mem ch,
    parseClientHello arr data = (mem, Some ch, None)
    ∧ err = None
    ∧ sessionIdLen ch = 32 ∧ len (sessionId ch) = 32
    ∧ length (bytes_of mem (sessionId ch)) = 32
    ∧ ∀ sessionKey w1,
        ∃ r w2 evs,
          f sessionKey w1 = (r, w2)
          ∧ trace w2 = trace w1 ++ evs
          ∧ ∀ reply, reply ∈ conn_writes evs →
              reply !! 43 = Some x20
              ∧ take 32 (drop 44 reply) = bytes_of mem (sessionId ch).
Proof.
  intros Hrun.
  destruct (parseClientHello arr data) as [[mem ret] [e|]] eqn:Hp.
  { by rewrite (PrepareConnection_failed_run _ _ _ _ _ _ _ _ Hp) in Hrun. }
  destruct (parseClientHello_ok _ _ _ _ Hp) as (ch & -> & F).
  exists mem, ch. split; [done|].
  destruct (parsed_slices _ _ _ _ _ F) as (Hr & Hs & Hrl & Hsl & _).
  rewrite (PrepareConnection_spec _ _ _ _ _ _ _ Hp) in Hrun. cbv zeta in Hrun.
  destruct (bool_decide _); [done|].
  destruct (ecdh_Unmarshal _) as [ephPub|]; [|done].
  destruct (parseKeyShare mem _) as [keyShare [e|]] eqn:Hks; [done|].
  destruct (Nat.eqb_spec (sessionIdLen ch) 32) as [H32|]; [|done].
  destruct (touchStone _ _) as [info' [e|]]; [done|].
  destruct (bool_decide _); [|done].
  injection Hrun as _ <- <- _.
  assert (Hlen : length (bytes_of mem (sessionId ch)) = 32)
    by (rewrite length_bytes_of by done; lia).
  split_and!; try done; [lia|].
  intros sessionKey w1.
  set (mem' := (append_in mem (sessionId ch) (bytes_of mem keyShare)).1).
  assert (Hsame : bytes_of mem' (sessionId ch) = bytes_of mem (sessionId ch)).
  { unfold mem'.
    destruct (append_in mem (sessionId ch) (bytes_of mem keyShare)) as [m c] eqn:Ha.
    destruct (append_in_spec _ _ _ _ _ Hs Ha) as (_ & _ & Hkeep). by apply Hkeep. }
  destruct (finisher_writes mem' ch
              (payload_of mem ch (staticPv sta) ephPub (bytes_of mem keyShare))
              conn sessionKey w1) as (r & w2 & evs & Hf & Ht & _ & Hreply).
  exists r, w2, evs. split; [done|]. split; [done|].
  intros reply Hin. apply Hreply in Hin as (ct & Hct & ->).
  rewrite Hsame.
  destruct (reply_layout_sessionId (entropy w1 <$> seq 0 12) ct
              (bytes_of mem (sessionId ch)) (entropy w1 <$> seq 12 4)
              (entropy w1 <$> seq 16 68)) as [H43 H44];
    [apply length_entropy | done | apply length_entropy |].
  by rewrite Hlen in H44.
Qed.

End OrchestratorClaims.

(** * The claims at concrete inputs *)

(** The decoder on packets that are cut short.  Two bytes: the read of
    the magic is out of range.  Two bytes with a third within the
    capacity of the slice: the magic is read, and the allocation of
    [peeled] panics.  The magic with a wrong version.  A hello cut after
    100 bytes: the declared length does not match.  A session id
    declared longer than the rest.  An extension cut short: the error of
    the extensions walk, next to the ClientHello filled so far. *)
Example parseClientHello_two_bytes :
  parseClientHello [x16; x03] (whole [x16; x03])
  = ([], None, Some ErrMalformedClientHello).
Proof. reflexivity. Qed.

Example parseClientHello_spare_capacity :
  parseClientHello [x16; x03; x01] (Slice 0 2 3)
  = ([], None, Some ErrMalformedClientHello).
Proof. reflexivity. Qed.

Example parseClientHello_wrong_version :
  parseClientHello [x16; x03; x00] (whole [x16; x03; x00])
  = ([], None, Some ErrWrongMagic).
Proof. reflexivity. Qed.

Example parseClientHello_cut_at_100 :
  (parseClientHello (take 100 Example.hello) (whole (take 100 Example.hello))).2
  = Some ErrHelloLength.
Proof. vm_compute. reflexivity. Qed.

Example parseClientHello_session_id_overrun :
  (parseClientHello
     ([x16; x03; x01; x00; x2b; x01; x00; x00; x27; x03; x03]
      ++ Example.random0 ++ [xff; x00; x00; x00; x00])
     (Slice 0 48 48)).2
  = Some ErrMalformedClientHello.
Proof. vm_compute. reflexivity. Qed.

Example parseClientHello_extension_cut :
  ∃ mem ch,
    parseClientHello
      (Example.clientHello_bytes Example.random0 [] (take 7 Example.supportedGroups_ext))
      (whole (Example.clientHello_bytes Example.random0 []
                (take 7 Example.supportedGroups_ext)))
    = (mem, Some ch, Some ErrMalformedExtensions)
    ∧ extensions ch = ∅.
Proof. eexists _, _. split; [vm_compute; reflexivity | reflexivity]. Qed.

(** C10 at a region in which supported_groups occurs twice: the second
    payload is the one in the map. *)
Lemma parseExtensions_last_wins_witness :
  (slice_ok Example.region (whole Example.region)
   ∧ bytes_of Example.region (whole Example.region)
     = encode_extensions
         ([] ++ ((x00, x0a), [x00; x02; x00; x17])
             :: [((x00, x2b), [x02; x03; x04])]
             ++ ((x00, x0a), [x00; x02; x00; x1d]) :: []))
  ∧ ∃ m data,
      parseExtensions Example.region (whole Example.region) = (m, None)
      ∧ m !! (x00, x0a) = Some data
      ∧ bytes_of Example.region data = [x00; x02; x00; x1d].
Proof.
  assert (Hok : slice_ok Example.region (whole Example.region))
    by (vm_compute; lia).
  split; [split; [exact Hok | reflexivity]|].
  apply (parseExtensions_last_wins Example.region (whole Example.region)
           (x00, x0a) [x00; x02; x00; x17] [x00; x02; x00; x1d]
           [] [((x00, x2b), [x02; x03; x04])] []).
  - exact Hok.
  - reflexivity.
  - cbn [app]. repeat (apply Forall_cons_2; [cbn [length snd]; lia|]). apply Forall_nil_2.
  - apply not_elem_of_nil.
Defined.

(** The example packets and what the decoder makes of them. *)
Lemma hello_parses :
  parseClientHello Example.hello (whole Example.hello)
  = (Example.peeled, Some Example.ch, None).
Proof. vm_compute. reflexivity. Defined.


Lemma hello_stranger_parses :
  parseClientHello Example.hello_stranger (whole Example.hello_stranger)
  = (Example.peeled_stranger, Some Example.ch, None).
Proof. vm_compute. reflexivity. Defined.

Lemma hello_random : bytes_of Example.peeled (random Example.ch) = Example.random0.
Proof. vm_compute. reflexivity. Defined.

Lemma hello_keyShare :
  parseKeyShare Example.peeled (default nil_slice (extensions Example.ch !! (x00, x33)))
  = (Slice 97 32 32, None).
Proof. vm_compute. reflexivity. Defined.

Lemma hello_share : bytes_of Example.peeled (Slice 97 32 32) = Example.share0.
Proof. vm_compute. reflexivity. Defined.

(** [hello] is accepted: the run of [PrepareConnection] on it. *)
Lemma hello_accepted :
  @PrepareConnection Example.collaborators Example.hello (whole Example.hello)
    Example.sta Example.conn Example.world0
  = (Ret (mkClientInfo "shadowsocks" [],
          Some (@finisher Example.collaborators
                  (append_in Example.peeled (sessionId Example.ch) Example.share0).1
                  Example.ch
                  (@payload_of Example.collaborators Example.peeled Example.ch [x01]
                     Example.random0 Example.share0)
                  Example.conn),
          None),
     World ({[ Example.random0 ]} ∪ ∅) (entropy Example.world0)
       ([] ++ [EvRegisterRandom Example.random0; EvEcdhUnmarshal Example.random0;
        EvGenerateSharedSecret;
        EvTouchStone (@payload_of Example.collaborators Example.peeled Example.ch [x01]
                        Example.random0 Example.share0);
        EvProxyBook "shadowsocks"])).
Proof.
  rewrite (@PrepareConnection_spec Example.collaborators _ _ _ _ Example.sta
             Example.conn Example.world0 hello_parses).
  cbv zeta. rewrite hello_random, hello_keyShare, hello_share.
  rewrite bool_decide_eq_false_2 by apply not_elem_of_empty.
  change (@ecdh_Unmarshal Example.collaborators Example.random0) with (Some Example.random0).
  change (sessionIdLen Example.ch =? 32) with true. cbv iota.
  assert (Hts : @touchStone Example.collaborators
            (@payload_of Example.collaborators Example.peeled Example.ch
               (@staticPv Example.collaborators Example.sta) Example.random0 Example.share0)
            (@Now Example.collaborators Example.sta)
          = (mkClientInfo "shadowsocks" [], None)) by (vm_compute; reflexivity).
  rewrite Hts.
  rewrite bool_decide_eq_true_2 by (cbn; set_solver).
  reflexivity.
Defined.

(** C2 fails for a session id that is not 32 bytes long: with the 31
    bytes of [hello_sid31], the ServerHello record is 121 bytes long and
    the reply 205. *)
Lemma composeReply_session_id_31 :
  length Example.sessionKey0 = 32
  ∧ @util_AESGCMEncrypt Example.collaborators
      (entropy Example.world0 <$> seq 0 12) [] Example.sessionKey0
    = inr (Example.sessionKey0 ++ replicate 16 xff)
  ∧ ∃ reply,
      (@composeReply Example.collaborators Example.peeled_sid31 Example.ch_sid31
         [] Example.sessionKey0 Example.world0).1 = Ret (reply, None)
      ∧ length reply = 205
      ∧ take 5 reply = [x16; x03; x03; x00; x79].
Proof.
  split; [reflexivity|]. split; [reflexivity|].
  eexists. split; [vm_compute; reflexivity|]. split; reflexivity.
Defined.

(** C2 at the reply to [hello], whose session id is 32 bytes long. *)
Lemma composeReply_fixed_witness :
  (length (bytes_of Example.peeled (sessionId Example.ch)) = 32
   ∧ @util_AESGCMEncrypt Example.collaborators
       (entropy Example.world0 <$> seq 0 12) [] Example.sessionKey0
     = inr (Example.sessionKey0 ++ replicate 16 xff)
   ∧ length (Example.sessionKey0 ++ replicate 16 xff) = 48)
  ∧ ∃ reply w',
      @composeReply Example.collaborators Example.peeled Example.ch
        [] Example.sessionKey0 Example.world0 = (Ret (reply, None), w')
      ∧ length reply = 206
      ∧ take 5 reply = [x16; x03; x03; x00; x7a].
Proof.
  split; [by split_and!|].
  destruct (@composeReply_fixed Example.collaborators Example.peeled Example.ch
              [] Example.sessionKey0 (Example.sessionKey0 ++ replicate 16 xff)
              Example.world0) as (reply & w' & Hrun & Hlen & Heq);
    [reflexivity..|].
  exists reply, w'. split; [exact Hrun|]. split; [exact Hlen|].
  rewrite Heq. reflexivity.
Defined.

(** C3 at [hello]. *)
Lemma unmarshalClientHello_payload_witness :
  (parseClientHello Example.hello (whole Example.hello)
   = (Example.peeled, Some Example.ch, None)
   ∧ @ecdh_Unmarshal Example.collaborators
       (bytes_of Example.peeled (random Example.ch)) = Some Example.random0
   ∧ parseKeyShare Example.peeled
       (default nil_slice (extensions Example.ch !! (x00, x33)))
     = (Slice 97 32 32, None))
  ∧ ∃ mem' ai err w',
      @unmarshalClientHello Example.collaborators Example.peeled Example.ch [x01]
        Example.world0 = (Ret (mem', ai, err), w')
      ∧ nonce ai = replicate 12 x07
      ∧ ciphertextWithTag ai = replicate 32 x09 ++ replicate 32 x0a
      ∧ err = None.
Proof.
  assert (H1 := hello_parses).
  assert (H2 : @ecdh_Unmarshal Example.collaborators
                 (bytes_of Example.peeled (random Example.ch)) = Some Example.random0)
    by (vm_compute; reflexivity).
  assert (H3 : parseKeyShare Example.peeled
                 (default nil_slice (extensions Example.ch !! (x00, x33)))
               = (Slice 97 32 32, None))
    by (vm_compute; reflexivity).
  split; [by split_and!|].
  destruct (@unmarshalClientHello_payload Example.collaborators
              Example.hello (whole Example.hello) Example.peeled Example.ch
              [x01] Example.random0 (Slice 97 32 32) Example.world0 H1 H2 H3)
    as (mem' & ai & err & w' & Hrun & _ & _ & Hn & Hc & He).
  exists mem', ai, err, w'. split; [exact Hrun|]. split; [|split].
  - rewrite Hn. vm_compute. reflexivity.
  - rewrite Hc. vm_compute. reflexivity.
  - apply He. rewrite Hc. vm_compute. reflexivity.
Defined.

(** C4 at a ServerHello for the session id of [hello]. *)
Lemma composeServerHello_split_witness :
  @composeServerHello Example.collaborators (replicate 32 x09) [] Example.sessionKey0
    Example.world0
  = (Ret (serverHello_layout (entropy Example.world0 <$> seq 0 12)
            (Example.sessionKey0 ++ replicate 16 xff) (replicate 32 x09)
            (entropy Example.world0 <$> seq 12 4), None),
     (@composeServerHello Example.collaborators (replicate 32 x09) []
        Example.sessionKey0 Example.world0).2)
  ∧ ∃ sh : list byte,
      sh = serverHello_layout (entropy Example.world0 <$> seq 0 12)
             (Example.sessionKey0 ++ replicate 16 xff) (replicate 32 x09)
             (entropy Example.world0 <$> seq 12 4)
      ∧ take 12 (take 32 (drop 6 sh)) = entropy Example.world0 <$> seq 0 12
      ∧ drop 12 (take 32 (drop 6 sh)) ++ take 28 (take 32 (drop 84 sh))
        = Example.sessionKey0 ++ replicate 16 xff.
Proof.
  assert (Hrun :
    @composeServerHello Example.collaborators (replicate 32 x09) []
      Example.sessionKey0 Example.world0
    = (Ret (serverHello_layout (entropy Example.world0 <$> seq 0 12)
              (Example.sessionKey0 ++ replicate 16 xff) (replicate 32 x09)
              (entropy Example.world0 <$> seq 12 4), None),
       (@composeServerHello Example.collaborators (replicate 32 x09) []
          Example.sessionKey0 Example.world0).2))
    by (vm_compute; reflexivity).
  split; [exact Hrun|].
  destruct (@composeServerHello_split Example.collaborators _ _ _ _ _ _ Hrun)
    as (nonce & ct & -> & Hct & _ & _ & Hn & _ & Hjoin).
  injection Hct as <-.
  eexists. split; [reflexivity|]. split; [exact Hn|].
  apply Hjoin. reflexivity.
Defined.

(** C5 fails for the key-share extractor: [hello_noshare] parses, its
    random is new and decodes to a public key, the extractor fails, and
    [PrepareConnection] returns the error of the extractor, not
    [ErrNotCloak]. *)
Lemma PrepareConnection_keyShare_error_passed_on :
  (∃ mem ch,
     parseClientHello Example.hello_noshare (whole Example.hello_noshare)
     = (mem, Some ch, None)
     ∧ (bytes_of mem (random ch) ∉ usedRandom Example.world0)
     ∧ is_Some (@ecdh_Unmarshal Example.collaborators (bytes_of mem (random ch)))
     ∧ parseKeyShare mem (default nil_slice (extensions ch !! (x00, x33)))
       = (nil_slice, Some ErrMalformedKeyShare))
  ∧ (@PrepareConnection Example.collaborators Example.hello_noshare
       (whole Example.hello_noshare) Example.sta Example.conn Example.world0).1
    = Ret (mkClientInfo EmptyString [], None, Some ErrMalformedKeyShare)
  ∧ ErrMalformedKeyShare ≠ ErrNotCloak.
Proof.
  split; [|split; [vm_compute; reflexivity | discriminate]].
  eexists _, _. split; [vm_compute; reflexivity|].
  split; [apply not_elem_of_empty|]. split; [|vm_compute; reflexivity].
  eexists. vm_compute. reflexivity.
Defined.

(** C5 at [hello_stranger], which the decision service turns down. *)
Lemma PrepareConnection_authentication_failures_witness :
  (parseClientHello Example.hello_stranger (whole Example.hello_stranger)
   = (Example.peeled_stranger, Some Example.ch, None)
   ∧ (bytes_of Example.peeled_stranger (random Example.ch) ∉ usedRandom Example.world0)
   ∧ @ecdh_Unmarshal Example.collaborators
       (bytes_of Example.peeled_stranger (random Example.ch)) = Some Example.random0)
  ∧ ∃ info fin err w',
      @PrepareConnection Example.collaborators Example.hello_stranger
        (whole Example.hello_stranger) Example.sta Example.conn Example.world0
      = (Ret (info, fin, err), w')
      ∧ err = Some ErrNotCloak
      ∧ last (trace w') = Some (EvLogDebug (ErrCollaborator "unauthorised")).
Proof.
  assert (H1 := hello_stranger_parses).
  assert (H2 : bytes_of Example.peeled_stranger (random Example.ch)
               ∉ usedRandom Example.world0) by apply not_elem_of_empty.
  assert (H3 : @ecdh_Unmarshal Example.collaborators
                 (bytes_of Example.peeled_stranger (random Example.ch))
               = Some Example.random0) by (vm_compute; reflexivity).
  split; [by split_and!|].
  destruct (@PrepareConnection_authentication_failures Example.collaborators
              _ _ _ _ Example.sta Example.conn Example.world0 _ H1 H2 H3)
    as (info & fin & err & w' & Hrun & Hm).
  exists info, fin, err, w'. split; [exact Hrun|].
  assert (Hks : parseKeyShare Example.peeled_stranger
                  (default nil_slice (extensions Example.ch !! (x00, x33)))
                = (Slice 97 32 32, None)) by (vm_compute; reflexivity).
  rewrite Hks in Hm. change (sessionIdLen Example.ch =? 32) with true in Hm.
  cbv iota in Hm.
  assert (Hts : @touchStone Example.collaborators
            (@payload_of Example.collaborators Example.peeled_stranger Example.ch
               (@staticPv Example.collaborators Example.sta) Example.random0
               (bytes_of Example.peeled_stranger (Slice 97 32 32)))
            (@Now Example.collaborators Example.sta)
          = (mkClientInfo EmptyString [], Some (ErrCollaborator "unauthorised")))
    by (vm_compute; reflexivity).
  rewrite Hts in Hm. destruct Hm as (He & _ & Hl). by split.
Defined.


(** C7 at [hello]. *)
Lemma PrepareConnection_registers_first_witness :
  parseClientHello Example.hello (whole Example.hello)
  = (Example.peeled, Some Example.ch, None)
  ∧ ∃ res w' evs,
      @PrepareConnection Example.collaborators Example.hello (whole Example.hello)
        Example.sta Example.conn Example.world0 = (Ret res, w')
      ∧ trace w' = trace Example.world0 ++ EvRegisterRandom Example.random0 :: evs
      ∧ usedRandom w' = {[ Example.random0 ]} ∪ usedRandom Example.world0.
Proof.
  split; [exact hello_parses|].
  destruct (@PrepareConnection_registers_first Example.collaborators _ _ _ _
              Example.sta Example.conn Example.world0 hello_parses)
    as (res & w' & evs & Hrun & _ & Ht & _ & Hu & _).
  exists res, w', evs. split; [exact Hrun|].
  rewrite <- hello_random. split; [exact Ht | exact Hu].
Defined.

(** C9 at [hello], which is accepted. *)
Lemma PrepareConnection_session_id_32_witness :
  ∃ info f w',
    @PrepareConnection Example.collaborators Example.hello (whole Example.hello)
      Example.sta Example.conn Example.world0 = (Ret (info, Some f, None), w')
    ∧ sessionIdLen Example.ch = 32
    ∧ ∃ r w2 evs,
        f Example.sessionKey0 Example.world0 = (r, w2)
        ∧ trace w2 = trace Example.world0 ++ evs
        ∧ ∀ reply, reply ∈ conn_writes evs →
            reply !! 43 = Some x20
            ∧ take 32 (drop 44 reply) = bytes_of Example.peeled (sessionId Example.ch).
Proof.
  eexists _, _, _. split; [exact hello_accepted|].
  destruct (@PrepareConnection_session_id_32 Example.collaborators _ _ _ _ _ _ _ _ _
              hello_accepted) as (mem & ch & Hp & _ & Hl & _ & _ & Hf).
  rewrite hello_parses in Hp. injection Hp as <- <-.
  split; [exact Hl|]. apply Hf.
Defined.

(** * Further properties of the code *)

(** ** Regions of entries *)

Lemma length_ext_entry typ payload : length (ext_entry typ payload) = 4 + length payload.
Proof. unfold ext_entry, put_u16. rewrite !length_app. simpl. lia. Qed.

Lemma encode_extensions_cons e es :
  encode_extensions (e :: es) = ext_entry e.1 e.2 ++ encode_extensions es.
Proof. done. Qed.

Lemma encode_extensions_app es1 es2 :
  encode_extensions (es1 ++ es2) = encode_extensions es1 ++ encode_extensions es2.
Proof. unfold encode_extensions. by rewrite fmap_app, concat_app. Qed.

Lemma encode_extensions_bound es n :
  length (encode_extensions es) < n → Forall (λ e, length e.2 < n) es.
Proof.
  induction es as [|e es IH]; intros Hn; [apply Forall_nil_2|].
  rewrite encode_extensions_cons, length_app, length_ext_entry in Hn.
  apply Forall_cons_2; [lia | apply IH; lia].
Qed.

Lemma last_payload_NoDup typ payload es :
  NoDup es.*1 → (typ, payload) ∈ es → last_payload typ es = Some payload.
Proof.
  induction es as [|[t p] es IH]; simpl; [by intros _ ?%elem_of_nil|].
  intros [Hnot Hnd]%NoDup_cons [Heq|Hin]%elem_of_cons.
  - injection Heq as <- <-. rewrite last_payload_absent by done.
    by rewrite decide_True.
  - by rewrite IH.
Qed.

Lemma last_payload_Some typ es : is_Some (last_payload typ es) ↔ typ ∈ es.*1.
Proof.
  induction es as [|[t p] es IH]; simpl.
  - split; [by intros [? ?] | by intros ?%elem_of_nil].
  - rewrite elem_of_cons, <- IH. destruct (last_payload typ es) as [q|].
    + split; [intros _; right|]; by eexists.
    + destruct (decide (t = typ)) as [->|Hne].
      * split; [by left | by eexists].
      * split; [by intros [? ?] | intros [?|[? ?]]; done].
Qed.

(** The turn of the loop at an entry that was cut short: one of the
    three slice expressions is out of range. *)
Lemma parseExtensions_entry_cut mem input p typ payload k :
  slice_ok mem input → cap input = len input →
  length payload < 256 * 256 →
  0 < k < 4 + length payload →
  drop p (bytes_of mem input) = take k (ext_entry typ payload) →
  p < len input ∧ parseExtensions_entry mem input p = Panic.
Proof.
  intros Hok Hcap Hlen Hk Hdrop.
  assert (Hfit : len input = p + k).
  { apply (f_equal length) in Hdrop.
    rewrite length_drop, length_bytes_of, length_take, length_ext_entry in Hdrop by done.
    lia. }
  split; [lia|].
  unfold parseExtensions_entry.
  destruct (decide (k < 2)) as [|Hk2].
  { rewrite (proj2 (slice_range_Panic input p (p + 2))) by lia. done. }
  do 3 step_ok.
  destruct (decide (k < 4)) as [|Hk4].
  { rewrite (proj2 (slice_range_Panic input (p + 2) (p + 2 + 2))) by lia. done. }
  do 2 step_ok.
  assert (Hget : ∀ i, i < 4 →
            mem !! (off input + (p + i)) = ext_entry typ payload !! i).
  { intros i Hi. rewrite <- bytes_of_lookup by lia.
    rewrite <- (lookup_take_lt (ext_entry typ payload) k i) by lia.
    rewrite <- Hdrop. by rewrite lookup_drop. }
  rewrite <- !Nat.add_assoc, !Hget by lia.
  unfold ext_entry, put_u16. simpl.
  rewrite u16_put_u16 by done.
  lazymatch goal with
  | |- context [slice_range input ?lo ?hi] =>
      rewrite (proj2 (slice_range_Panic input lo hi)) by lia
  end.
  done.
Qed.

Lemma parseExtensions_loop_cut mem input typ payload k es :
  slice_ok mem input → cap input = len input →
  length payload < 256 * 256 →
  0 < k < 4 + length payload →
  Forall (λ e, length e.2 < 256 * 256) es →
  ∀ fuel p ret,
    drop p (bytes_of mem input)
      = encode_extensions es ++ take k (ext_entry typ payload) →
    len input - p ≤ fuel →
    ∃ m, parseExtensions_loop fuel mem input p ret
         = Some (m, Some ErrMalformedExtensions)
       ∧ ∀ t, bytes_of mem <$> m !! t
              = match last_payload t es with
                | Some q => Some q
                | None => bytes_of mem <$> ret !! t
                end.
Proof.
  intros Hok Hcap Hlen Hk Hwf. induction Hwf as [|[t q] es Hq Hwf IH];
    intros fuel p ret Hdrop Hfuel.
  - exists ret. split; [|done].
    destruct (parseExtensions_entry_cut mem input p typ payload k) as [Hp Hpanic];
      try done.
    destruct fuel as [|fuel]; [lia|]. simpl.
    destruct (Nat.ltb_spec p (len input)); [|lia]. by rewrite Hpanic.
  - simpl in Hq. rewrite encode_extensions_cons, <- app_assoc in Hdrop. simpl fst in Hdrop.
    simpl snd in Hdrop.
    destruct (parseExtensions_entry_encoded _ _ _ _ _ _ Hok Hdrop Hq)
      as (Hentry & Hfit & Hdata & Hrest).
    destruct fuel as [|fuel]; [lia|]. simpl.
    destruct (Nat.ltb_spec p (len input)); [|lia].
    rewrite Hentry.
    destruct (IH fuel (p + 4 + length q)
                (<[t := Slice (off input + (p + 4)) (length q)
                         (cap input - (p + 4))]> ret) Hrest)
      as (m & Hm & Hlook); [lia|].
    exists m. split; [done|]. intros t'. rewrite Hlook.
    destruct (last_payload t' es); [done|].
    destruct (decide (t = t')) as [->|Hne].
    + by rewrite lookup_insert_eq; simpl; rewrite Hdata.
    + by rewrite lookup_insert_ne.
Qed.

(** ** Key shares *)

(** [parseKeyShare] checks its slice expressions against the capacity
    and nothing against the length. *)
Lemma parseKeyShare_loop_len mem o l l' c totalLen fuel :
  ∀ p, parseKeyShare_loop fuel mem (Slice o l c) totalLen p
       = parseKeyShare_loop fuel mem (Slice o l' c) totalLen p.
Proof.
  induction fuel as [|fuel IH]; intros p; simpl; [done|].
  destruct (p <? totalLen); [|done].
  change (parseKeyShare_entry mem (Slice o l' c) p)
    with (parseKeyShare_entry mem (Slice o l c) p).
  destruct (parseKeyShare_entry mem (Slice o l c) p) as [[p'|r]|]; auto.
Qed.

(** The group of the entry at [p]. *)
Lemma keyShare_group mem input p g key rest :
  slice_ok mem input →
  drop p (bytes_of mem input) = ext_entry g key ++ rest →
  bytes_of mem (Slice (off input + p) (p + 2 - p) (cap input - p)) = [g.1; g.2].
Proof.
  intros Hok Hdrop.
  assert (p + 4 + length key ≤ len input).
  { apply (f_equal length) in Hdrop.
    rewrite length_drop, length_bytes_of, length_app, length_ext_entry in Hdrop by done.
    lia. }
  replace (p + 2 - p) with 2 by lia.
  rewrite (bytes_of_sub mem input p) by lia. by rewrite Hdrop.
Qed.

Lemma keyShare_length mem input p g key rest :
  slice_ok mem input →
  drop p (bytes_of mem input) = ext_entry g key ++ rest →
  length key < 256 * 256 →
  p + 4 + length key ≤ len input
  ∧ Byte.to_nat (default x00 (mem !! (off input + (p + 2) + 0))) * 256
    + Byte.to_nat (default x00 (mem !! (off input + (p + 2) + 1)))
    = length key.
Proof.
  intros Hok Hdrop Hlen.
  assert (Hfit : p + 4 + length key ≤ len input).
  { apply (f_equal length) in Hdrop.
    rewrite length_drop, length_bytes_of, length_app, length_ext_entry in Hdrop by done.
    lia. }
  split; [done|].
  assert (Hget : ∀ i, i < 4 →
            mem !! (off input + (p + i)) = ext_entry g key !! i).
  { intros i Hi. rewrite <- bytes_of_lookup by lia.
    eapply lookup_prefix; [exact Hdrop|]. rewrite length_ext_entry. lia. }
  rewrite <- !Nat.add_assoc, !Hget by lia.
  unfold ext_entry, put_u16. simpl. by apply u16_put_u16.
Qed.

(** An entry of another group is stepped over. *)
Lemma parseKeyShare_entry_other mem input p g key rest :
  slice_ok mem input →
  drop p (bytes_of mem input) = ext_entry g key ++ rest →
  length key < 256 * 256 →
  g ≠ x25519 →
  parseKeyShare_entry mem input p = Ret (inl (p + 4 + length key))
  ∧ drop (p + 4 + length key) (bytes_of mem input) = rest.
Proof.
  intros Hok Hdrop Hlen Hg.
  destruct (keyShare_length _ _ _ _ _ _ Hok Hdrop Hlen) as [Hfit Hu].
  pose proof (keyShare_group _ _ _ _ _ _ Hok Hdrop) as Hgroup.
  destruct Hok as [Hlc Hcap].
  split.
  - unfold parseKeyShare_entry. step_ok. rewrite Hgroup.
    rewrite bool_decide_eq_false_2.
    2: { intros [= H0 H1]. apply Hg. destruct g; simpl in *. by subst. }
    do 2 step_ok. rewrite Hu. step_ok. do 2 f_equal. lia.
  - replace (p + 4 + length key) with (p + (4 + length key)) by lia.
    rewrite <- drop_drop, Hdrop, <- length_ext_entry with (typ := g).
    by rewrite drop_app_length.
Qed.

(** The entry of x25519 ends the walk. *)
Lemma parseKeyShare_entry_x25519 mem input p key rest :
  slice_ok mem input →
  drop p (bytes_of mem input) = ext_entry x25519 key ++ rest →
  length key < 256 * 256 →
  parseKeyShare_entry mem input p
  = Ret (inr (if length key =? 32
              then (Slice (off input + (p + 4)) 32 (cap input - (p + 4)), None)
              else (nil_slice, Some (ErrKeyShareLength (length key)))))
  ∧ bytes_of mem (Slice (off input + (p + 4)) (length key) (cap input - (p + 4))) = key.
Proof.
  intros Hok Hdrop Hlen.
  destruct (keyShare_length _ _ _ _ _ _ Hok Hdrop Hlen) as [Hfit Hu].
  pose proof (keyShare_group _ _ _ _ _ _ Hok Hdrop) as Hgroup.
  split.
  - destruct Hok as [Hlc Hcap].
    unfold parseKeyShare_entry. step_ok. rewrite Hgroup.
    rewrite bool_decide_eq_true_2 by done.
    do 2 step_ok. rewrite Hu.
    destruct (Nat.eqb_spec (length key) 32) as [Heq|Hne]; simpl; [|done].
    rewrite Heq. step_ok. do 3 f_equal; f_equal; lia.
  - rewrite (bytes_of_sub mem input (p + 4)) by lia.
    rewrite <- drop_drop, Hdrop.
    unfold ext_entry, put_u16. simpl. by rewrite drop_0, take_app_length.
Qed.

(** The walk over entries of other groups, up to a turn that returns. *)
Lemma parseKeyShare_loop_others mem input totalLen es r :
  slice_ok mem input →
  Forall (λ e, e.1 ≠ x25519 ∧ length e.2 < 256 * 256) es →
  ∀ fuel p rest,
    drop p (bytes_of mem input) = encode_extensions es ++ rest →
    p + length (encode_extensions es) < totalLen →
    totalLen - p ≤ fuel →
    parseKeyShare_entry mem input (p + length (encode_extensions es)) = Ret (inr r) →
    parseKeyShare_loop fuel mem input totalLen p = Some (Ret r).
Proof.
  intros Hok Hwf. induction Hwf as [|[g key] es [Hg Hlen] Hwf IH];
    intros fuel p rest Hdrop Hp Hfuel Hentry.
  - simpl in Hp, Hentry. rewrite Nat.add_0_r in Hp, Hentry.
    destruct fuel as [|fuel]; [lia|]. simpl.
    destruct (Nat.ltb_spec p totalLen); [|lia]. by rewrite Hentry.
  - simpl in Hg, Hlen.
    rewrite encode_extensions_cons, length_app, length_ext_entry in Hp, Hentry.
    rewrite encode_extensions_cons, <- app_assoc in Hdrop.
    simpl fst in *. simpl snd in *.
    destruct (parseKeyShare_entry_other _ _ _ _ _ _ Hok Hdrop Hlen Hg) as [Hstep Hrest].
    destruct fuel as [|fuel]; [lia|]. simpl.
    destruct (Nat.ltb_spec p totalLen); [|lia]. rewrite Hstep.
    apply (IH fuel _ rest); [done | lia | lia |].
    rewrite <- Hentry. f_equal. lia.
Qed.

(** The walk over a list without x25519, whatever the declared length
    is up to the end of the list. *)
Lemma parseKeyShare_loop_none mem input totalLen es :
  slice_ok mem input →
  Forall (λ e, e.1 ≠ x25519 ∧ length e.2 < 256 * 256) es →
  ∀ fuel p,
    drop p (bytes_of mem input) = encode_extensions es →
    totalLen ≤ p + length (encode_extensions es) →
    totalLen - p ≤ fuel →
    parseKeyShare_loop fuel mem input totalLen p
    = Some (Ret (nil_slice, Some ErrNoX25519)).
Proof.
  intros Hok Hwf. induction Hwf as [|[g key] es [Hg Hlen] Hwf IH];
    intros fuel p Hdrop Hp Hfuel.
  - simpl in Hp. destruct fuel; simpl; destruct (Nat.ltb_spec p totalLen); done || lia.
  - simpl in Hg, Hlen.
    rewrite encode_extensions_cons, length_app, length_ext_entry in Hp.
    rewrite encode_extensions_cons in Hdrop.
    simpl fst in *. simpl snd in *.
    destruct (parseKeyShare_entry_other _ _ _ _ _ _ Hok Hdrop Hlen Hg) as [Hstep Hrest].
    destruct fuel as [|fuel]; simpl; destruct (Nat.ltb_spec p totalLen); try done; [lia|].
    rewrite Hstep. apply IH; [done | lia | lia].
Qed.

(** The two bytes in front of the list. *)
Lemma parseKeyShare_body_encoded mem input es :
  slice_ok mem input →
  bytes_of mem input = encode_keyShare es →
  length (encode_extensions es) < 256 * 256 →
  parseKeyShare_body mem input
  = parseKeyShare_loop (length (encode_extensions es)) mem input
      (length (encode_extensions es)) 2
  ∧ drop 2 (bytes_of mem input) = encode_extensions es.
Proof.
  intros Hok Hbytes Hlen.
  assert (Hl : 2 ≤ len input).
  { apply (f_equal length) in Hbytes.
    rewrite length_bytes_of in Hbytes by done. unfold encode_keyShare in Hbytes.
    rewrite length_app in Hbytes. simpl in Hbytes. lia. }
  split; [|by rewrite Hbytes].
  destruct Hok as [Hlc Hcap].
  unfold parseKeyShare_body. step_ok. rewrite u16_ok by (simpl; lia).
  cbn [off]. rewrite <- !Nat.add_assoc, <- !bytes_of_lookup, Hbytes by lia.
  unfold encode_keyShare, put_u16. simpl. by rewrite u16_put_u16.
Qed.

(** ** The record layer *)

Lemma go_copy_nil dst : go_copy dst [] = dst.
Proof. unfold go_copy. by rewrite take_nil. Qed.

(** The walk of [parseKeyShare] over a well-formed list up to its first
    entry of x25519. *)
Lemma parseKeyShare_encoded mem input ks1 key ks2 :
  slice_ok mem input →
  bytes_of mem input = encode_keyShare (ks1 ++ (x25519, key) :: ks2) →
  length (encode_extensions (ks1 ++ (x25519, key) :: ks2)) < 256 * 256 →
  Forall (λ e, e.1 ≠ x25519) ks1 →
  let s := Slice (off input + (2 + length (encode_extensions ks1) + 4)) 32
             (cap input - (2 + length (encode_extensions ks1) + 4)) in
  parseKeyShare mem input
  = (if length key =? 32 then (s, None)
     else (nil_slice, Some (ErrKeyShareLength (length key))))
  ∧ (length key = 32 → bytes_of mem s = key).
Proof.
  intros Hok Hbytes Hlen Hother s.
  destruct (parseKeyShare_body_encoded _ _ _ Hok Hbytes Hlen) as [Hbody Hdrop].
  pose proof Hlen as Hlen'.
  rewrite encode_extensions_app, encode_extensions_cons, !length_app,
    length_ext_entry in Hlen'. simpl snd in Hlen'.
  rewrite encode_extensions_app, encode_extensions_cons in Hdrop.
  simpl fst in Hdrop. simpl snd in Hdrop.
  assert (Hat : drop (2 + length (encode_extensions ks1)) (bytes_of mem input)
                = ext_entry x25519 key ++ encode_extensions ks2).
  { by rewrite <- drop_drop, Hdrop, drop_app_length. }
  destruct (parseKeyShare_entry_x25519 _ _ _ _ _ Hok Hat) as [Hentry Hkey]; [lia|].
  split.
  - unfold parseKeyShare. rewrite Hbody.
    erewrite (parseKeyShare_loop_others mem input _ ks1); [done | done | | exact Hdrop | | lia
      | exact Hentry].
    + apply Forall_and. split; [done|].
      apply encode_extensions_bound. lia.
    + rewrite encode_extensions_app, encode_extensions_cons, !length_app,
        length_ext_entry. lia.
  - intros H32. subst s. by rewrite <- H32 at 1.
Qed.

(** * parseClientHello, forwards *)

Lemma u32_ok mem s :
  4 ≤ len s →
  u32 mem s = Ret (((Byte.to_nat (default x00 (mem !! (off s + 0))) * 256
        + Byte.to_nat (default x00 (mem !! (off s + 1)))) * 256
       + Byte.to_nat (default x00 (mem !! (off s + 2)))) * 256
      + Byte.to_nat (default x00 (mem !! (off s + 3)))).
Proof. intros. by apply u32_Ret. Qed.

Lemma byte_at_eq mem i j :
  i = j → Byte.to_nat (default x00 (mem !! i)) = byte_at mem j.
Proof. by intros ->. Qed.

Lemma u16_at_eq mem i i' j :
  i = j → i' = j + 1 →
  Byte.to_nat (default x00 (mem !! i)) * 256 + Byte.to_nat (default x00 (mem !! i'))
  = u16_at mem j.
Proof. by intros -> ->. Qed.

Lemma ClientHello_eq t t' n n' v v' r r' sl sl' s s' cl cl' c c' ml ml' m m' el el' e e' :
  t = t' → n = n' → v = v' → r = r' → sl = sl' → s = s' → cl = cl' → c = c' →
  ml = ml' → m = m' → el = el' → e = e' →
  mkClientHello t n v r sl s cl c ml m el e
  = mkClientHello t' n' v' r' sl' s' cl' c' ml' m' el' e'.
Proof. by intros -> -> -> -> -> -> -> -> -> -> -> ->. Qed.

(** The array [peeled] of a packet. *)
Lemma peeled_drop arr data :
  slice_ok arr data → 5 ≤ len data →
  go_copy (replicate (len data - 5) x00)
    (bytes_of arr (Slice (off data + 5) (len data - 5) (cap data - 5)))
  = drop 5 (bytes_of arr data).
Proof.
  intros Hok Hlen.
  rewrite (bytes_of_sub arr data 5) by lia.
  rewrite take_ge by (rewrite length_drop, length_bytes_of by done; lia).
  apply go_copy_same_length.
  rewrite length_replicate, length_drop, length_bytes_of by done. lia.
Qed.

Lemma parseClientHello_body_framed arr data :
  slice_ok arr data →
  well_framed (bytes_of arr data) →
  parseClientHello_body arr data
  = Ret (drop 5 (bytes_of arr data),
         Some (decoded (drop 5 (bytes_of arr data))).1,
         (decoded (drop 5 (bytes_of arr data))).2).
Proof.
  intros Hok (Hmagic & Htype & Hlength & Hfit).
  assert (Hmem : length (drop 5 (bytes_of arr data)) = len data - 5)
    by (by rewrite length_drop, length_bytes_of).
  assert (Hlen : 49 ≤ len data) by lia.
  pose proof Hok as [Hlc Hcap].
  unfold parseClientHello_body.
  step_ok. change (3 - 0) with 3.
  rewrite (bytes_of_sub arr data 0) by lia. rewrite drop_0, Hmagic.
  rewrite bool_decide_eq_true_2 by done. cbn [negb].
  unfold make_len. destruct (Nat.leb_spec 5 (len data)); [|lia].
  cbn [mbind outcome_bind]. unfold slice_from. step_ok.
  rewrite peeled_drop by done.
  set (mem := drop 5 (bytes_of arr data)) in *.
  cbn [whole].
  step_ok. rewrite !Nat.add_0_l, Htype. cbn [default].
  rewrite bool_decide_eq_true_2 by done. cbn [negb].
  step_ok.
  rewrite u32_ok by (cbn [whole len length]; rewrite length_bytes_of; [simpl; lia | split; simpl; lia]).
  cbn [mbind outcome_bind off whole].
  step_ok.
  lazymatch goal with
  | |- context [negb (?N =? ?M)] =>
      assert (HN : N = M); [|rewrite HN, Nat.eqb_refl; clear HN]
  end.
  { cbn [lookup list_lookup Nat.add default whole cap len].
    rewrite !bytes_of_lookup by (simpl; lia). cbn [off Nat.add].
    change (Byte.to_nat (id x00)) with 0. unfold byte_at in Hlength. lia. }
  cbn [negb].
  do 3 step_ok.
  rewrite (byte_at_eq mem _ 38) by (simpl; lia).
  set (sl := byte_at mem 38) in *.
  set (cl := u16_at mem (39 + sl)) in *.
  set (ml := byte_at mem (41 + sl + cl)) in *.
  do 3 step_ok.
  rewrite (u16_at_eq mem _ _ (39 + sl)) by (simpl; lia). fold cl.
  do 2 step_ok.
  rewrite (byte_at_eq mem _ (41 + sl + cl)) by (simpl; lia). fold ml.
  do 3 step_ok.
  rewrite (u16_at_eq mem _ _ (42 + sl + cl + ml)) by (simpl; lia).
  step_ok.
  unfold decoded. fold sl cl ml. cbn [whole off len cap].
  lazymatch goal with
  | |- context [parseExtensions mem ?e] =>
      replace e with (Slice (44 + sl + cl + ml) (length mem - (44 + sl + cl + ml))
                        (length mem - (44 + sl + cl + ml)))
        by (f_equal; lia)
  end.
  destruct (parseExtensions mem _) as [exts err]. cbn [fst snd].
  do 3 f_equal. unfold id. f_equal.
  apply ClientHello_eq; try done; f_equal; lia.
Qed.

(** * parseClientHello, backwards: the lengths of a ClientHello that
    was returned are the ones read from [peeled] *)
Lemma parseClientHello_body_fit arr data mem ch err :
  parseClientHello_body arr data = Ret (mem, Some ch, err) →
  44 + byte_at mem 38 + u16_at mem (39 + byte_at mem 38)
  + byte_at mem (41 + byte_at mem 38 + u16_at mem (39 + byte_at mem 38))
  ≤ length mem.
Proof.
  intros E. unfold parseClientHello_body in E.
  inv_bind E. case_bool_decide as Hm; [|done].
  cbn [negb] in E.
  do 2 inv_bind E.
  set (m := go_copy _ _) in E.
  inv_bind E. case_bool_decide as Ht; [|done].
  cbn [negb] in E.
  do 3 inv_bind E.
  match type of E with context [negb (?a =? ?b)] =>
    destruct (Nat.eqb_spec a b) as [Hl|]; [|done] end.
  cbn [negb] in E.
  clear Hl. do 3 inv_bind E.
  rewrite (byte_at_eq m _ 38) in E by (simpl; lia).
  do 3 inv_bind E.
  rewrite (u16_at_eq m _ _ (39 + byte_at m 38)) in E by (simpl; lia).
  do 2 inv_bind E.
  rewrite (byte_at_eq m _ (41 + byte_at m 38 + u16_at m (39 + byte_at m 38))) in E
    by (simpl; lia).
  do 4 inv_bind E.
  destruct (parseExtensions _ _) as [exts e] eqn:Hext.
  injection E as <- <- <-. lia.
Qed.

Lemma parseClientHello_body_well_framed arr data mem ch err :
  slice_ok arr data →
  parseClientHello_body arr data = Ret (mem, Some ch, err) →
  well_framed (bytes_of arr data) ∧ mem = drop 5 (bytes_of arr data).
Proof.
  intros Hok E.
  pose proof (parseClientHello_body_fit _ _ _ _ _ E) as Hfit.
  apply parseClientHello_body_Ret in E.
  destruct E as [H5 Hmagic Hmem [_ Htype] [Hl1 Hl2] _ _ _ _ _ _ _ _].
  rewrite peeled_drop in Hmem by done. subst mem.
  split; [|done]. split; [|split; [|split]]; [| | |exact Hfit].
  - rewrite <- Hmagic. unfold bytes_of. cbn [off len].
    rewrite take_take. f_equal. lia.
  - destruct (drop 5 (bytes_of arr data) !! 0) as [b|] eqn:Hb; [by simplify_eq/=|].
    apply lookup_ge_None in Hb. lia.
  - unfold byte_at. lia.
Qed.

(** ** A ClientHello on the wire *)

Lemma byte_at_app mem pre x post i :
  mem = pre ++ x :: post → i = length pre → byte_at mem i = Byte.to_nat x.
Proof. intros -> ->. unfold byte_at. by rewrite list_lookup_middle. Qed.

Lemma u16_at_app mem pre a b post i :
  mem = pre ++ a :: b :: post → i = length pre →
  u16_at mem i = Byte.to_nat a * 256 + Byte.to_nat b.
Proof.
  intros -> ->. unfold u16_at.
  rewrite (byte_at_app _ pre a (b :: post)) by done.
  rewrite (byte_at_app _ (pre ++ [a]) b post); [done | by rewrite <- app_assoc |].
  rewrite length_app. simpl. lia.
Qed.

Lemma bytes_of_app mem pre f post o n c :
  mem = pre ++ f ++ post → o = length pre → n = length f →
  bytes_of mem (Slice o n c) = f.
Proof.
  intros -> -> ->. unfold bytes_of. cbn [off len].
  by rewrite drop_app_length, take_app_length.
Qed.

Lemma u24_put_u24 n : n < 256 * 256 * 256 →
  (Byte.to_nat (byte_of_nat (n / (256 * 256))) * 256
   + Byte.to_nat (byte_of_nat (n / 256))) * 256 + Byte.to_nat (byte_of_nat n) = n.
Proof.
  intros Hn. rewrite !to_nat_byte_of_nat.
  rewrite <- Nat.Div0.div_div.
  pose proof (Nat.div_mod_eq n 256).
  pose proof (Nat.div_mod_eq (n / 256) 256).
  pose proof (Nat.mod_upper_bound n 256).
  pose proof (Nat.mod_upper_bound (n / 256) 256).
  rewrite (Nat.mod_small (n / 256 / 256)); [lia|].
  apply Nat.Div0.div_lt_upper_bound, Nat.Div0.div_lt_upper_bound. lia.
Qed.

Ltac layout := simpl; repeat (rewrite <- app_assoc; simpl); reflexivity.
Ltac lengths := cbn [length]; repeat (rewrite length_app; cbn [length]); lia.

Lemma encode_clientHello_layout r0 r1 v0 v1 e0 e1 random sid suites methods exts :
  let body := clientHello_body [v0; v1] random sid suites methods [e0; e1] exts in
  let arr := encode_clientHello [r0; r1] [v0; v1] random sid suites methods [e0; e1] exts in
  let mem := drop 5 arr in
  let sl := length sid in
  let cl := length suites in
  let ml := length methods in
  length random = 32 → sl < 256 → cl < 256 * 256 → ml < 256 →
  length body < 256 * 256 * 256 →
  (take 3 arr = [x16; x03; x01] ∧ mem !! 0 = Some x01
   ∧ length mem = 4 + length body
   ∧ (byte_at mem 1 * 256 + byte_at mem 2) * 256 + byte_at mem 3 = length body
   ∧ length mem = 44 + sl + cl + ml + length exts)
  ∧ (byte_at mem 38 = sl
     ∧ u16_at mem (39 + sl) = cl
     ∧ byte_at mem (41 + sl + cl) = ml
     ∧ u16_at mem (42 + sl + cl + ml) = Byte.to_nat e0 * 256 + Byte.to_nat e1)
  ∧ (∀ c, bytes_of mem (Slice 4 2 c) = [v0; v1])
  ∧ (∀ c, bytes_of mem (Slice 6 32 c) = random)
  ∧ (∀ c, bytes_of mem (Slice 39 sl c) = sid)
  ∧ (∀ c, bytes_of mem (Slice (41 + sl) cl c) = suites)
  ∧ (∀ c, bytes_of mem (Slice (42 + sl + cl) ml c) = methods)
  ∧ (∀ c, bytes_of mem (Slice (44 + sl + cl + ml) (length exts) c) = exts).
Proof.
  intros body arr mem sl cl ml Hr Hsl Hcl Hml Hbody.
  set (B1 := byte_of_nat (length body / (256 * 256))).
  set (B2 := byte_of_nat (length body / 256)).
  set (B3 := byte_of_nat (length body)).
  set (C0 := byte_of_nat (cl / 256)).
  set (C1 := byte_of_nat cl).
  assert (Hmem : mem = x01 :: B1 :: B2 :: B3 :: v0 :: v1 :: random
                        ++ byte_of_nat sl :: sid ++ C0 :: C1 :: suites
                        ++ byte_of_nat ml :: methods ++ e0 :: e1 :: exts)
    by reflexivity.
  assert (Hlb : length body = 40 + sl + cl + ml + length exts).
  { unfold body, clientHello_body, put_u16. lengths. }
  assert (Hlm : length mem = 4 + length body).
  { rewrite Hmem, Hlb. lengths. }
  assert (HB : (Byte.to_nat B1 * 256 + Byte.to_nat B2) * 256 + Byte.to_nat B3
               = length body) by (by apply u24_put_u24).
  assert (HC : Byte.to_nat C0 * 256 + Byte.to_nat C1 = cl) by (by apply u16_put_u16).
  assert (Hsl' : Byte.to_nat (byte_of_nat sl) = sl)
    by (rewrite to_nat_byte_of_nat; by apply Nat.mod_small).
  assert (Hml' : Byte.to_nat (byte_of_nat ml) = ml)
    by (rewrite to_nat_byte_of_nat; by apply Nat.mod_small).
  clearbody B1 B2 B3 C0 C1 mem.
  split; [|split; [|split; [|split; [|split; [|split; [|split]]]]]].
  - split; [done|]. split; [by subst mem|]. split; [done|]. split; [|lia].
    subst mem. exact HB.
  - split; [|split; [|split]].
    + rewrite <- Hsl' at 1.
      apply (byte_at_app _ (x01 :: B1 :: B2 :: B3 :: v0 :: v1 :: random) _
               (sid ++ C0 :: C1 :: suites
                ++ byte_of_nat ml :: methods ++ e0 :: e1 :: exts));
        [by subst mem | simpl; lia].
    + rewrite <- HC at 1.
      apply (u16_at_app _ (x01 :: B1 :: B2 :: B3 :: v0 :: v1 :: random
                           ++ byte_of_nat sl :: sid) _ _
               (suites ++ byte_of_nat ml :: methods ++ e0 :: e1 :: exts)).
      * subst mem. layout.
      * lengths.
    + rewrite <- Hml' at 1.
      apply (byte_at_app _ (x01 :: B1 :: B2 :: B3 :: v0 :: v1 :: random
                            ++ byte_of_nat sl :: sid ++ C0 :: C1 :: suites) _
               (methods ++ e0 :: e1 :: exts)).
      * subst mem. layout.
      * simpl. rewrite !length_app. lengths.
    + apply (u16_at_app _ (x01 :: B1 :: B2 :: B3 :: v0 :: v1 :: random
                           ++ byte_of_nat sl :: sid ++ C0 :: C1 :: suites
                           ++ byte_of_nat ml :: methods) _ _ exts).
      * subst mem. layout.
      * lengths.
  - intros c. apply (bytes_of_app _ [x01; B1; B2; B3] _
               (random ++ byte_of_nat sl :: sid ++ C0 :: C1 :: suites
                ++ byte_of_nat ml :: methods ++ e0 :: e1 :: exts)); by subst mem.
  - intros c. apply (bytes_of_app _ [x01; B1; B2; B3; v0; v1] _
               (byte_of_nat sl :: sid ++ C0 :: C1 :: suites
                ++ byte_of_nat ml :: methods ++ e0 :: e1 :: exts)); by subst mem.
  - intros c. apply (bytes_of_app _ (x01 :: B1 :: B2 :: B3 :: v0 :: v1 :: random
                                     ++ [byte_of_nat sl]) _
               (C0 :: C1 :: suites
                ++ byte_of_nat ml :: methods ++ e0 :: e1 :: exts)).
    + subst mem. layout.
    + lengths.
    + done.
  - intros c. apply (bytes_of_app _ (x01 :: B1 :: B2 :: B3 :: v0 :: v1 :: random
                                     ++ byte_of_nat sl :: sid ++ [C0; C1]) _
               (byte_of_nat ml :: methods ++ e0 :: e1 :: exts)).
    + subst mem. layout.
    + simpl. rewrite !length_app. lengths.
    + done.
  - intros c. apply (bytes_of_app _ (x01 :: B1 :: B2 :: B3 :: v0 :: v1 :: random
                                     ++ byte_of_nat sl :: sid ++ C0 :: C1 :: suites
                                     ++ [byte_of_nat ml]) _
               (e0 :: e1 :: exts)).
    + subst mem. layout.
    + lengths.
    + done.
  - intros c. apply (bytes_of_app _ (x01 :: B1 :: B2 :: B3 :: v0 :: v1 :: random
                                     ++ byte_of_nat sl :: sid ++ C0 :: C1 :: suites
                                     ++ byte_of_nat ml :: methods ++ [e0; e1]) _ []).
    + subst mem. rewrite app_nil_r. layout.
    + lengths.
    + done.
Qed.

(** * Further properties: the extensions walk, the key share, the record layer *)

(** X1.  [parseExtensions] decodes what was encoded: on a region that
    is a sequence of well-formed {type, length, payload} entries of
    distinct types it returns, without an error, a map whose keys are
    exactly the types of the entries and in which every type is mapped
    to a view of the payload of its entry.  An empty region gives the
    empty map. *)
Theorem parseExtensions_decodes (mem : list byte) (input : slice)
    (es : list ((byte * byte) * list byte)) :
  slice_ok mem input →
  bytes_of mem input = encode_extensions es →
  Forall (λ e, length e.2 < 256 * 256) es →
  NoDup es.*1 →
  ∃ m, parseExtensions mem input = (m, None)
     ∧ dom m = list_to_set es.*1
     ∧ ∀ typ payload, (typ, payload) ∈ es →
         bytes_of mem <$> m !! typ = Some payload.
Proof.
  intros Hok Hbytes Hwf Hnd.
  destruct (parseExtensions_encoded mem input es Hok Hwf Hbytes) as (m & Hm & Hlook).
  exists m. split; [done|]. split.
  - apply set_eq. intros typ.
    rewrite elem_of_dom, elem_of_list_to_set, <- last_payload_Some, <- Hlook.
    by rewrite fmap_is_Some.
  - intros typ payload Hin. rewrite Hlook. by apply last_payload_NoDup.
Qed.

(** X2.  A region that ends in the middle of an entry (after one or
    more bytes of it, before its last) makes [parseExtensions] return
    the error "Malformed Extensions" together with the map of the
    entries in front of the cut: the out-of-range slice expression is
    recovered, and the map filled so far is returned with the error. *)
Theorem parseExtensions_cut (mem : list byte) (input : slice)
    (es : list ((byte * byte) * list byte)) (typ : byte * byte)
    (payload : list byte) (k : nat) :
  slice_ok mem input →
  cap input = len input →
  Forall (λ e, length e.2 < 256 * 256) es →
  length payload < 256 * 256 →
  0 < k < 4 + length payload →
  bytes_of mem input = encode_extensions es ++ take k (ext_entry typ payload) →
  ∃ m, parseExtensions mem input = (m, Some ErrMalformedExtensions)
     ∧ ∀ t, bytes_of mem <$> m !! t = last_payload t es.
Proof.
  intros Hok Hcap Hwf Hlen Hk Hbytes.
  destruct (parseExtensions_loop_cut mem input typ payload k es Hok Hcap Hlen Hk Hwf
              (len input) 0 ∅) as (m & Hm & Hlook); [by rewrite drop_0 | lia |].
  exists m. split.
  - pose proof (parseExtensions_unfold mem input) as Hu. congruence.
  - intros t. rewrite Hlook, lookup_empty. by destruct (last_payload t es).
Qed.

(** X3.  [parseKeyShare] returns the key exchange of the first x25519
    entry: on the payload of a key_share extension (the two-byte length
    of the list, then well-formed {group, length, key exchange}
    entries) whose first entry of group x25519 carries 32 bytes, it
    returns a 32-byte view of exactly these bytes, whatever the groups
    in front of it and whatever comes after it. *)
Theorem parseKeyShare_first_x25519 (mem : list byte) (input : slice)
    (ks1 ks2 : list ((byte * byte) * list byte)) (key : list byte) :
  slice_ok mem input →
  bytes_of mem input = encode_keyShare (ks1 ++ (x25519, key) :: ks2) →
  length (encode_extensions (ks1 ++ (x25519, key) :: ks2)) < 256 * 256 →
  Forall (λ e, e.1 ≠ x25519) ks1 →
  length key = 32 →
  ∃ s, parseKeyShare mem input = (s, None)
     ∧ len s = 32
     ∧ bytes_of mem s = key.
Proof.
  intros Hok Hbytes Hlen Hother H32.
  destruct (parseKeyShare_encoded mem input ks1 key ks2 Hok Hbytes Hlen Hother)
    as [Hrun Hkey].
  rewrite H32 in Hrun. eexists. split; [exact Hrun|]. split; [done|]. by apply Hkey.
Qed.

(** X4.  The first x25519 entry decides: when its key exchange is not
    32 bytes long, [parseKeyShare] returns nil and the error "key share
    length should be 32, instead of n" with the length the entry
    declares, also when a later x25519 entry of the list has 32
    bytes. *)
Theorem parseKeyShare_wrong_length (mem : list byte) (input : slice)
    (ks1 ks2 : list ((byte * byte) * list byte)) (key : list byte) :
  slice_ok mem input →
  bytes_of mem input = encode_keyShare (ks1 ++ (x25519, key) :: ks2) →
  length (encode_extensions (ks1 ++ (x25519, key) :: ks2)) < 256 * 256 →
  Forall (λ e, e.1 ≠ x25519) ks1 →
  length key ≠ 32 →
  parseKeyShare mem input = (nil_slice, Some (ErrKeyShareLength (length key))).
Proof.
  intros Hok Hbytes Hlen Hother H32.
  destruct (parseKeyShare_encoded mem input ks1 key ks2 Hok Hbytes Hlen Hother)
    as [Hrun _].
  rewrite Hrun. by destruct (Nat.eqb_spec (length key) 32).
Qed.

(** X5.  On a well-formed key_share list without an entry of group
    x25519 (the empty list among them) [parseKeyShare] walks to the end
    and returns nil and the error "x25519 does not exist". *)
Theorem parseKeyShare_no_x25519 (mem : list byte) (input : slice)
    (ks : list ((byte * byte) * list byte)) :
  slice_ok mem input →
  bytes_of mem input = encode_keyShare ks →
  length (encode_extensions ks) < 256 * 256 →
  Forall (λ e, e.1 ≠ x25519) ks →
  parseKeyShare mem input = (nil_slice, Some ErrNoX25519).
Proof.
  intros Hok Hbytes Hlen Hother.
  destruct (parseKeyShare_body_encoded _ _ _ Hok Hbytes Hlen) as [Hbody Hdrop].
  unfold parseKeyShare. rewrite Hbody.
  rewrite (parseKeyShare_loop_none mem input _ ks); [done | done | | done | lia | lia].
  apply Forall_and. split; [done|]. by apply encode_extensions_bound.
Qed.

(** X6.  [parseKeyShare] never looks at the length of its input: every
    slice expression in it is checked against the capacity only, so two
    slices that start at the same place of an array and have the same
    capacity give the same result, whatever their lengths.  The bytes
    between the length and the capacity of the input are read like the
    input itself. *)
Theorem parseKeyShare_reads_capacity (mem : list byte) (o l l' c : nat) :
  parseKeyShare mem (Slice o l c) = parseKeyShare mem (Slice o l' c).
Proof.
  unfold parseKeyShare, parseKeyShare_body.
  change (slice_range (Slice o l' c) 0 2) with (slice_range (Slice o l c) 0 2).
  destruct (_ ≫= _) as [totalLen|]; [|done].
  by rewrite (parseKeyShare_loop_len mem o l l' c).
Qed.

(** X7.  [parseKeyShare] returns for every input, and in one of two
    shapes: a view of exactly 32 bytes that lies six or more bytes into
    the input and within its capacity, without an error; or nil with
    one of the three errors "malformed key_share", "x25519 does not
    exist" and "key share length should be 32, instead of n" (n not
    32).  An input of capacity below two, nil among them, gives
    "malformed key_share". *)
Theorem parseKeyShare_result (mem : list byte) (input : slice) :
  ∃ s err,
    parseKeyShare mem input = (s, err)
    ∧ match err with
      | None => len s = 32 ∧ off input + 6 ≤ off s
                ∧ off s + 32 ≤ off input + cap input
      | Some e => s = nil_slice ∧ keyShare_error e
      end
    ∧ (cap input < 2 → err = Some ErrMalformedKeyShare).
Proof.
  destruct (parseKeyShare mem input) as [s [e|]] eqn:E; exists s; eexists;
    (split; [done|]); split.
  - by apply parseKeyShare_failed in E.
  - intros Hcap. revert E. unfold parseKeyShare, parseKeyShare_body.
    rewrite (proj2 (slice_range_Panic input 0 2)) by lia. simpl. congruence.
  - apply parseKeyShare_found in E as (q & Hq & -> & Hfit). simpl. lia.
  - intros Hcap. apply parseKeyShare_found in E as (q & Hq & -> & Hfit). lia.
Qed.

(** X8.  [addRecordLayer] for any type and version slices: the record
    is five bytes longer than the input; its first byte is the first
    byte of [typ] and its next two the first two bytes of [ver], with
    zero where [typ] or [ver] is too short and with what is too long
    cut off, as [copy] does; bytes 3 and 4 are the length of the input
    as a big-endian 16-bit number, reduced modulo 65536; the input
    follows unchanged. *)
Theorem addRecordLayer_layout (input typ ver : list byte) :
  addRecordLayer input typ ver
  = take 1 (typ ++ [x00]) ++ take 2 (ver ++ [x00; x00])
    ++ put_u16 (length input mod (256 * 256)) ++ input
  ∧ length (addRecordLayer input typ ver) = 5 + length input.
Proof.
  assert (Heq : addRecordLayer input typ ver
    = take 1 (typ ++ [x00]) ++ take 2 (ver ++ [x00; x00])
      ++ put_u16 (length input mod (256 * 256)) ++ input).
  { unfold addRecordLayer, put_u16.
    destruct typ as [|t typ]; destruct ver as [|v0 [|v1 ver]]; simpl;
      rewrite ?drop_nil; simpl; rewrite ?drop_nil; simpl; do 5 f_equal; apply go_copy_same_length; by rewrite !drop_0, length_replicate. }
  split; [done|]. rewrite Heq.
  destruct typ as [|t typ]; destruct ver as [|v0 [|v1 ver]]; simpl; lia.
Qed.

(** X9.  The header [addRecordLayer] writes can be read back: for a
    one-byte type, a two-byte version and an input of fewer than 65536
    bytes, the record starts with the type and the version, its bytes 3
    and 4 decode (big-endian) to the length of the input, which is also
    the number of bytes that follow the header, and these bytes are the
    input. *)
Theorem addRecordLayer_header (input typ ver : list byte) :
  length typ = 1 →
  length ver = 2 →
  length input < 256 * 256 →
  let r := addRecordLayer input typ ver in
  take 1 r = typ
  ∧ take 2 (drop 1 r) = ver
  ∧ u16 r (Slice 3 2 (length r - 3)) = Ret (length input)
  ∧ length (drop 5 r) = length input
  ∧ drop 5 r = input.
Proof.
  intros Ht Hv Hlen r. subst r. rewrite addRecordLayer_eq by done.
  rewrite Nat.mod_small by done.
  destruct typ as [|t [|]]; try done. destruct ver as [|v0 [|v1 [|]]]; try done.
  split; [done|]. split; [done|]. split; [|done].
  rewrite u16_ok by (simpl; lia). unfold put_u16. simpl.
  by rewrite u16_put_u16.
Qed.

(** * Further properties: parseClientHello *)

(** X10.  What [parseClientHello] accepts, exactly.  It returns a
    ClientHello for the packets that start with 16 03 01, whose byte 5
    is the handshake type 1, whose bytes 6..8 are the number of bytes
    behind them, and in which the session id, the cipher suites and the
    compression methods, at the lengths the packet declares for them,
    and the two bytes of the extensions length fit; the ClientHello is
    then the one these bytes determine, and the error is the one of the
    walk over the extensions.  For every other packet it returns nil
    and an error. *)
Theorem parseClientHello_accepts (arr : list byte) (data : slice) :
  slice_ok arr data →
  let pkt := bytes_of arr data in
  let mem := drop 5 pkt in
  (well_framed pkt →
   parseClientHello arr data = (mem, Some (decoded mem).1, (decoded mem).2))
  ∧ (¬ well_framed pkt →
     ∃ mem' e, parseClientHello arr data = (mem', None, Some e)).
Proof.
  intros Hok pkt mem. split.
  - intros Hwf. unfold parseClientHello.
    by rewrite (parseClientHello_body_framed arr data Hok Hwf).
  - intros Hnwf.
    destruct (parseClientHello arr data) as [[mem' ret] err] eqn:E.
    destruct ret as [ch|].
    + exfalso. apply Hnwf. unfold parseClientHello in E.
      destruct (parseClientHello_body arr data) as [r|] eqn:Eb; [|done]. subst r.
      by apply (parseClientHello_body_well_framed _ _ _ _ _ Hok) in Eb as [? _].
    + destruct err as [e|]; [by exists mem', e|].
      by apply parseClientHello_ok in E as (ch & ? & _).
Qed.

(** X11.  [parseClientHello] decodes what was encoded: for a ClientHello
    record made of a version, a 32-byte random, a session id, cipher
    suites, compression methods and a region of well-formed extensions,
    each behind its length, it returns without an error a ClientHello
    whose fields view exactly these byte strings and whose extensions
    map holds the payloads.  The length field of the record layer
    (bytes 3 and 4), the version and the length field of the extensions
    are not checked: the theorem holds for any values of them. *)
Theorem parseClientHello_decodes (r0 r1 v0 v1 e0 e1 : byte)
    (rand sid suites methods : list byte)
    (es : list ((byte * byte) * list byte)) :
  let exts := encode_extensions es in
  let body := clientHello_body [v0; v1] rand sid suites methods [e0; e1] exts in
  let arr := encode_clientHello [r0; r1] [v0; v1] rand sid suites methods
               [e0; e1] exts in
  let mem := drop 5 arr in
  length rand = 32 →
  length sid < 256 →
  length suites < 256 * 256 →
  length methods < 256 →
  length body < 256 * 256 * 256 →
  Forall (λ e, length e.2 < 256 * 256) es →
  ∃ ch,
    parseClientHello arr (whole arr) = (mem, Some ch, None)
    ∧ handshakeType ch = x01
    ∧ length_ ch = length body
    ∧ bytes_of mem (clientVersion ch) = [v0; v1]
    ∧ bytes_of mem (random ch) = rand
    ∧ sessionIdLen ch = length sid
    ∧ bytes_of mem (sessionId ch) = sid
    ∧ cipherSuitesLen ch = length suites
    ∧ bytes_of mem (cipherSuites ch) = suites
    ∧ compressionMethodsLen ch = length methods
    ∧ bytes_of mem (compressionMethods ch) = methods
    ∧ extensionsLen ch = Byte.to_nat e0 * 256 + Byte.to_nat e1
    ∧ ∀ typ, bytes_of mem <$> extensions ch !! typ = last_payload typ es.
Proof.
  intros exts body arr mem Hr Hsl Hcl Hml Hbody Hwf.
  destruct (encode_clientHello_layout r0 r1 v0 v1 e0 e1 rand sid suites methods exts
              Hr Hsl Hcl Hml Hbody)
    as ((Hmagic & Htype & Hlm & Hlen & Hfit) & (Esl & Ecl & Eml & Eel)
        & Hv & Hrand & Hsid & Hsuites & Hmethods & Hexts).
  fold arr body in Hmagic, Htype, Hlm, Hlen, Hfit. fold arr in Esl, Ecl, Eml, Eel.
  fold mem in Htype, Hlm, Hlen, Hfit, Esl, Ecl, Eml, Eel.
  fold arr in Hv, Hrand, Hsid, Hsuites, Hmethods, Hexts.
  fold mem in Hv, Hrand, Hsid, Hsuites, Hmethods, Hexts.
  assert (Hok : slice_ok arr (whole arr)) by (split; simpl; lia).
  assert (Hframed : well_framed (bytes_of arr (whole arr))).
  { rewrite bytes_of_whole. unfold well_framed. fold mem.
    rewrite Esl, Ecl, Eml. split; [done|]. split; [done|]. split; lia. }
  pose proof (parseClientHello_body_framed arr (whole arr) Hok Hframed) as Hrun.
  rewrite bytes_of_whole in Hrun. fold mem in Hrun.
  unfold parseClientHello. rewrite Hrun. clear Hrun.
  unfold decoded. rewrite Esl, Ecl, Eml, Eel.
  remember (44 + length sid + length suites + length methods) as start eqn:Hstart.
  replace (length mem - start) with (length exts) by lia.
  destruct (parseExtensions_encoded mem (Slice start (length exts) (length exts)) es)
    as (m & Hm & Hlook); [split; cbn [off len cap]; lia | done | apply Hexts |].
  rewrite Hm. cbn [fst snd].
  eexists. split; [reflexivity|].
  cbn [handshakeType length_ clientVersion random sessionIdLen sessionId
       cipherSuitesLen cipherSuites compressionMethodsLen compressionMethods
       extensionsLen extensions].
  split_and!; try done; lia.
Qed.

(** X12.  [parseClientHello] never looks at bytes 3 and 4 of the packet,
    the length field of the record layer: two packets of the same
    length that agree in their first three bytes and from byte 5 on get
    the same result. *)
Theorem parseClientHello_record_length_unread (arr arr' : list byte) :
  length arr = length arr' →
  take 3 arr = take 3 arr' →
  drop 5 arr = drop 5 arr' →
  parseClientHello arr (whole arr) = parseClientHello arr' (whole arr').
Proof.
  intros Hlen H3 H5.
  unfold parseClientHello, parseClientHello_body, slice_from, slice_range, make_len.
  cbn [whole off len cap]. rewrite <- Hlen.
  destruct ((0 <=? 3) && (3 <=? length arr)); [|done].
  cbn [mbind outcome_bind].
  change (bytes_of arr (Slice (0 + 0) (3 - 0) (length arr - 0))) with (take 3 arr).
  change (bytes_of arr' (Slice (0 + 0) (3 - 0) (length arr - 0))) with (take 3 arr').
  rewrite <- H3.
  destruct (negb (bool_decide (take 3 arr = [x16; x03; x01]))); [done|].
  destruct (5 <=? length arr); [|done].
  cbn [mbind outcome_bind].
  rewrite Nat.leb_refl. cbn [mbind outcome_bind andb].
  change (bytes_of arr (Slice (0 + 5) (length arr - 5) (length arr - 5)))
    with (take (length arr - 5) (drop 5 arr)).
  change (bytes_of arr' (Slice (0 + 5) (length arr - 5) (length arr - 5)))
    with (take (length arr - 5) (drop 5 arr')).
  by rewrite <- H5.
Qed.

(** X13.  The three checks [parseClientHello] makes, in their order: a
    packet of three or more bytes that does not start with 16 03 01 is
    turned down with "wrong TLS1.3 handshake magic bytes"; one that
    does and whose byte 5 is not 1, with "Not a ClientHello"; one that
    passes both and whose bytes 6..8 are not the number of bytes behind
    them, with "Hello length doesn't match".  No ClientHello is
    returned with any of them. *)
Theorem parseClientHello_checks (arr : list byte) :
  3 ≤ length arr →
  let mem := drop 5 arr in
  (take 3 arr ≠ [x16; x03; x01] →
   parseClientHello arr (whole arr) = ([], None, Some ErrWrongMagic))
  ∧ (take 3 arr = [x16; x03; x01] →
     ∀ b, mem !! 0 = Some b → b ≠ x01 →
     parseClientHello arr (whole arr) = (mem, None, Some ErrNotAClientHello))
  ∧ (take 3 arr = [x16; x03; x01] →
     mem !! 0 = Some x01 →
     4 ≤ length mem →
     (byte_at mem 1 * 256 + byte_at mem 2) * 256 + byte_at mem 3 ≠ length mem - 4 →
     parseClientHello arr (whole arr) = (mem, None, Some ErrHelloLength)).
Proof.
  intros H3 mem.
  assert (Hmagic : bytes_of arr (Slice (0 + 0) (3 - 0) (length arr - 0)) = take 3 arr)
    by done.
  assert (Hpeel : 5 ≤ length arr →
            go_copy (replicate (length arr - 5) x00)
              (bytes_of arr (Slice (0 + 5) (length arr - 5) (length arr - 5)))
            = mem).
  { intros. apply (peeled_drop arr (whole arr)) in H as Hp; [|split; simpl; lia].
    by rewrite bytes_of_whole in Hp. }
  assert (Hlm : length mem = length arr - 5) by (unfold mem; by rewrite length_drop).
  split; [|split].
  - intros Hne. unfold parseClientHello, parseClientHello_body.
    unfold whole. step_ok. rewrite Hmagic.
    by rewrite bool_decide_eq_false_2.
  - intros Heq b Hb Hne.
    assert (0 < length mem) by (by apply lookup_lt_Some in Hb).
    unfold parseClientHello, parseClientHello_body.
    unfold whole. step_ok. rewrite Hmagic, bool_decide_eq_true_2 by done.
    cbn [negb]. unfold make_len. destruct (Nat.leb_spec 5 (length arr)); [|lia].
    cbn [mbind outcome_bind]. unfold slice_from. step_ok.
    rewrite Hpeel by done. cbn [len]. fold (whole mem).
    step_ok. rewrite !Nat.add_0_l, Hb. cbn [default].
    by rewrite bool_decide_eq_false_2.
  - intros Heq Hb H4 Hne.
    unfold parseClientHello, parseClientHello_body.
    unfold whole. step_ok. rewrite Hmagic, bool_decide_eq_true_2 by done.
    cbn [negb]. unfold make_len. destruct (Nat.leb_spec 5 (length arr)); [|lia].
    cbn [mbind outcome_bind]. unfold slice_from. step_ok.
    rewrite Hpeel by done. cbn [len]. fold (whole mem).
    step_ok. rewrite !Nat.add_0_l, Hb. cbn [default].
    rewrite bool_decide_eq_true_2 by done. cbn [negb].
    step_ok.
    rewrite u32_ok
      by (cbn [whole len length]; rewrite length_bytes_of;
          [simpl; lia | split; simpl; lia]).
    cbn [mbind outcome_bind off whole]. step_ok.
    lazymatch goal with
    | |- context [negb (?N =? ?M)] =>
        destruct (Nat.eqb_spec N M) as [HN|]; [|done]
    end.
    exfalso. apply Hne.
    cbn [lookup list_lookup Nat.add default whole cap len] in HN.
    rewrite !bytes_of_lookup in HN by (simpl; lia). cbn [off Nat.add] in HN.
    change (Byte.to_nat (id x00)) with 0 in HN. unfold byte_at. lia.
Qed.

(** * Further properties: the reply and the finisher *)

(** The extensions of a ServerHello, as entries. *)
Lemma serverHello_layout_split nonce encryptedKey sessionId pad :
  length nonce = 12 → 48 ≤ length encryptedKey → length pad = 4 →
  ∃ pre,
    length pre = 44 + length sessionId
    ∧ take 4 pre = [x02; x00; x00; x76]
    ∧ drop (42 + length sessionId) pre = [x00; x2e]
    ∧ serverHello_layout nonce encryptedKey sessionId pad
      = pre ++ encode_extensions
                 [((x00, x33), [x00; x1d; x00; x20]
                               ++ take 28 (drop 20 encryptedKey) ++ pad);
                  ((x00, x2b), [x03; x04])].
Proof.
  intros Hn He Hp.
  set (A := [x02; x00; x00; x76; x03; x03] ++ (nonce ++ take 20 encryptedKey)
            ++ [x20] ++ sessionId ++ [xc0; x30; x00]).
  assert (Hl : length A = 42 + length sessionId).
  { unfold A. rewrite !length_app, length_take, Hn. cbn [length]. lia. }
  exists (A ++ [x00; x2e]).
  split; [|split; [|split]].
  - rewrite length_app, Hl. cbn [length]. lia.
  - done.
  - by rewrite drop_app_length'.
  - unfold serverHello_layout, encode_extensions, ext_entry, put_u16.
    cbn [fmap list_fmap concat fst snd].
    assert (Hk : length ([x00; x1d; x00; x20] ++ take 28 (drop 20 encryptedKey) ++ pad)
                 = 36).
    { rewrite !length_app, length_take, length_drop, Hp. cbn [length]. lia. }
    rewrite Hk. cbn [length].
    change (byte_of_nat (36 / 256)) with x00. change (byte_of_nat 36) with x24.
    change (byte_of_nat (2 / 256)) with x00. change (byte_of_nat 2) with x02.
    unfold A. simpl. rewrite <- !app_assoc. simpl. rewrite <- !app_assoc. done.
Qed.

Section ReplyMore.

Context `{Collaborators}.

(** X14.  A ServerHello that [composeServerHello] returns is 90 bytes
    longer than the session id it echoes.  It starts with the
    handshake type 2 and the length 0x000076.  Its extensions length
    field says 46, the extensions that follow are 46 bytes, and the
    walk [parseExtensions] of the decoder reads them back as two
    entries: key_share, with the group x25519, the length 32 and the
    32 bytes of the key exchange, and supported_versions, with
    03 04. *)
Theorem composeServerHello_extensions (sessionId sharedSecret sessionKey : list byte)
    (w w' : world) (sh : list byte) :
  composeServerHello sessionId sharedSecret sessionKey w = (Ret (sh, None), w') →
  let start := 44 + length sessionId in
  length sh = 90 + length sessionId
  ∧ take 4 sh = [x02; x00; x00; x76]
  ∧ take 2 (drop (start - 2) sh) = [x00; x2e]
  ∧ length (drop start sh) = 46
  ∧ ∃ m keyExchange,
      parseExtensions sh (Slice start 46 46) = (m, None)
      ∧ dom m = {[ (x00, x33); (x00, x2b) ]}
      ∧ length keyExchange = 32
      ∧ bytes_of sh <$> m !! (x00, x33) = Some ([x00; x1d; x00; x20] ++ keyExchange)
      ∧ bytes_of sh <$> m !! (x00, x2b) = Some [x03; x04].
Proof.
  intros Hrun start. rewrite composeServerHello_run in Hrun.
  set (nonce := entropy w <$> seq 0 12) in Hrun.
  set (pad := entropy w <$> seq 12 4) in Hrun.
  assert (Hn : length nonce = 12) by apply length_entropy.
  assert (Hp : length pad = 4) by apply length_entropy.
  clearbody nonce pad.
  destruct (util_AESGCMEncrypt _ _ _) as [e|ct]; [done|].
  destruct (Nat.leb_spec 48 (length ct)) as [Hct|]; [|done].
  injection Hrun as <- _.
  destruct (serverHello_layout_split nonce ct sessionId pad Hn Hct Hp)
    as (pre & Hpre & Hpre4 & Hpre2 & ->).
  set (ke := take 28 (drop 20 ct) ++ pad).
  assert (Hke : length ke = 32)
    by (unfold ke; rewrite length_app, length_take, length_drop; lia).
  set (es := [((x00, x33), [x00; x1d; x00; x20] ++ ke); ((x00, x2b), [x03; x04])]).
  assert (Hes : length (encode_extensions es) = 46).
  { unfold es. rewrite !encode_extensions_cons, !length_app, !length_ext_entry.
    cbn [fst snd]. rewrite length_app, Hke.
    change (encode_extensions []) with (@nil byte). cbn [length]. lia. }
  split; [rewrite length_app; lia|].
  split; [rewrite take_app_le by lia; done|].
  split.
  { unfold start. replace (44 + length sessionId - 2) with (42 + length sessionId) by lia.
    rewrite drop_app_le by lia. rewrite Hpre2. done. }
  split; [by rewrite drop_app_length'|].
  destruct (parseExtensions_encoded (pre ++ encode_extensions es) (Slice start 46 46) es)
    as (m & Hm & Hlook).
  - split; cbn [off len cap]; [lia|]. rewrite length_app. lia.
  - unfold es. repeat (apply Forall_cons_2; [cbn [snd length]; rewrite ?length_app, ?Hke;
      cbn [length]; lia|]). apply Forall_nil_2.
  - apply (bytes_of_app _ pre _ []); [by rewrite app_nil_r | done | done].
  - exists m, ke. split; [done|]. split; [|split; [done|split]].
    + apply set_eq. intros typ.
      rewrite elem_of_dom, <- (fmap_is_Some (bytes_of (pre ++ encode_extensions es))),
        Hlook, last_payload_Some.
      unfold es. cbn [fmap list_fmap fst].
      rewrite !elem_of_cons, elem_of_nil, elem_of_union, !elem_of_singleton. tauto.
    + by rewrite Hlook.
    + by rewrite Hlook.
Qed.

(** X15.  When the cipher fails, [composeServerHello] and
    [composeReply] return nil and the error of the cipher, and the
    finisher returns that error: twelve bytes of randomness have been
    drawn, for the nonce, and nothing else has happened; the
    transport is neither written to nor closed. *)
Theorem finisher_cipher_error (mem : list byte) (ch : ClientHello)
    (ai : authenticationInfo) (conn : Conn) (sessionKey : list byte) (w : world)
    (e : error) :
  util_AESGCMEncrypt (entropy w <$> seq 0 12) (sharedSecret ai) sessionKey = inl e →
  ∃ w',
    composeServerHello (bytes_of mem (sessionId ch)) (sharedSecret ai) sessionKey w
      = (Ret ([], Some e), w')
    ∧ composeReply mem ch (sharedSecret ai) sessionKey w = (Ret ([], Some e), w')
    ∧ finisher mem ch ai conn sessionKey w = (Ret (Some e), w')
    ∧ trace w'
      = trace w ++ [EvRandRead 12;
                    EvAESGCMEncrypt (entropy w <$> seq 0 12) (sharedSecret ai)
                      sessionKey]
    ∧ (∀ i, entropy w' i = entropy w (12 + i))
    ∧ usedRandom w' = usedRandom w.
Proof.
  intros Hc. eexists. split; [|split; [|split; [|split; [|split]]]].
  - rewrite composeServerHello_run, Hc. reflexivity.
  - by rewrite composeReply_run, Hc.
  - by rewrite finisher_run, composeReply_run, Hc.
  - cbn [trace]. by rewrite <- app_assoc.
  - done.
  - done.
Qed.

(** X16.  [composeServerHello] takes the ciphertext apart with the
    slice expressions [encryptedKey[0:20]] and [encryptedKey[20:48]]
    and has no recovery, nor have [composeReply] and the finisher:
    when the cipher returns fewer than 48 bytes (in an array of that
    size) all three panic, after the nonce was drawn and before
    anything is written to the transport. *)
Theorem finisher_short_ciphertext (mem : list byte) (ch : ClientHello)
    (ai : authenticationInfo) (conn : Conn) (sessionKey : list byte) (w : world)
    (encryptedKey : list byte) :
  util_AESGCMEncrypt (entropy w <$> seq 0 12) (sharedSecret ai) sessionKey
    = inr encryptedKey →
  length encryptedKey < 48 →
  ∃ w',
    composeServerHello (bytes_of mem (sessionId ch)) (sharedSecret ai) sessionKey w
      = (Panic, w')
    ∧ composeReply mem ch (sharedSecret ai) sessionKey w = (Panic, w')
    ∧ finisher mem ch ai conn sessionKey w = (Panic, w')
    ∧ trace w'
      = trace w ++ [EvRandRead 12;
                    EvAESGCMEncrypt (entropy w <$> seq 0 12) (sharedSecret ai)
                      sessionKey].
Proof.
  intros Hc Hlen.
  assert (Hleb : (48 <=? length encryptedKey) = false) by (apply Nat.leb_gt; lia).
  eexists. split; [|split; [|split]].
  - rewrite composeServerHello_run, Hc, Hleb. reflexivity.
  - by rewrite composeReply_run, Hc, Hleb.
  - by rewrite finisher_run, composeReply_run, Hc, Hleb.
  - cbn [trace]. by rewrite <- app_assoc.
Qed.

(** X17.  When the cipher returns 48 bytes or more, the finisher
    draws 84 bytes of randomness in three reads (12 for the nonce, 4
    of padding, 68 for the application data record), writes the reply
    once and returns what [conn.Write] returned; it closes the
    connection exactly when the write failed, and after the write. *)
Theorem finisher_transport (mem : list byte) (ch : ClientHello)
    (ai : authenticationInfo) (conn : Conn) (sessionKey : list byte) (w : world)
    (encryptedKey : list byte) :
  util_AESGCMEncrypt (entropy w <$> seq 0 12) (sharedSecret ai) sessionKey
    = inr encryptedKey →
  48 ≤ length encryptedKey →
  let reply := reply_layout (entropy w <$> seq 0 12) encryptedKey
                 (bytes_of mem (sessionId ch))
                 (entropy w <$> seq 12 4) (entropy w <$> seq 16 68) in
  ∃ w',
    finisher mem ch ai conn sessionKey w = (Ret (conn_Write conn reply), w')
    ∧ trace w'
      = trace w ++ [EvRandRead 12;
                    EvAESGCMEncrypt (entropy w <$> seq 0 12) (sharedSecret ai)
                      sessionKey;
                    EvRandRead 4; EvRandRead 68; EvConnWrite reply]
        ++ match conn_Write conn reply with
           | Some _ => [EvConnClose]
           | None => []
           end
    ∧ (∀ i, entropy w' i = entropy w (84 + i))
    ∧ usedRandom w' = usedRandom w.
Proof.
  intros Hc Hlen reply.
  assert (Hleb : (48 <=? length encryptedKey) = true) by (apply Nat.leb_le; lia).
  rewrite finisher_run, composeReply_run, Hc, Hleb. fold reply.
  cbn [trace usedRandom entropy].
  destruct (conn_Write conn reply) as [e|]; eexists; (split; [reflexivity|]);
    cbn [trace usedRandom entropy]; rewrite <- ?app_assoc; split_and!; try done.
Qed.

(** X18.  The finisher can be called again: every call composes a new
    reply, from the next 84 bytes of randomness, and writes it, also
    after a write that failed.  Two calls in a row write two replies
    that echo the same session id. *)
Theorem finisher_twice (mem : list byte) (ch : ClientHello)
    (ai : authenticationInfo) (conn : Conn) (sessionKey sessionKey' : list byte)
    (w : world) (encryptedKey encryptedKey' : list byte) :
  util_AESGCMEncrypt (entropy w <$> seq 0 12) (sharedSecret ai) sessionKey
    = inr encryptedKey →
  48 ≤ length encryptedKey →
  util_AESGCMEncrypt (entropy w <$> seq 84 12) (sharedSecret ai) sessionKey'
    = inr encryptedKey' →
  48 ≤ length encryptedKey' →
  let reply := reply_layout (entropy w <$> seq 0 12) encryptedKey
                 (bytes_of mem (sessionId ch))
                 (entropy w <$> seq 12 4) (entropy w <$> seq 16 68) in
  let reply' := reply_layout (entropy w <$> seq 84 12) encryptedKey'
                  (bytes_of mem (sessionId ch))
                  (entropy w <$> seq 96 4) (entropy w <$> seq 100 68) in
  ∃ w1 w2 evs,
    finisher mem ch ai conn sessionKey w = (Ret (conn_Write conn reply), w1)
    ∧ finisher mem ch ai conn sessionKey' w1 = (Ret (conn_Write conn reply'), w2)
    ∧ trace w2 = trace w ++ evs
    ∧ conn_writes evs = [reply; reply'].
Proof.
  intros Hc Hlen Hc' Hlen' reply reply'.
  assert (Hleb : (48 <=? length encryptedKey) = true) by (apply Nat.leb_le; lia).
  assert (Hleb' : (48 <=? length encryptedKey') = true) by (apply Nat.leb_le; lia).
  assert (Hseq : ∀ (f : nat → byte) a b n,
            (λ i, f (a + i)) <$> seq b n = f <$> seq (a + b) n).
  { intros f a b n. rewrite <- (fmap_add_seq a b n), <- list_fmap_compose. done. }
  pose (w1 := (finisher mem ch ai conn sessionKey w).2).
  assert (H1 : finisher mem ch ai conn sessionKey w = (Ret (conn_Write conn reply), w1)
               ∧ (∀ i, entropy w1 i = entropy w (84 + i))
               ∧ ∃ evs1, trace w1 = trace w ++ evs1 ∧ conn_writes evs1 = [reply]).
  { unfold w1. rewrite finisher_run, composeReply_run, Hc, Hleb. fold reply.
    cbn [trace usedRandom entropy].
    destruct (conn_Write conn reply) as [e|]; (split; [reflexivity|]);
      cbn [snd trace usedRandom entropy]; (split; [done|]);
      rewrite <- ?app_assoc; eexists; (split; [reflexivity|]); done. }
  destruct H1 as (Hrun1 & Hent & evs1 & Htr1 & Hw1). clearbody w1.
  assert (Hshift : ∀ b n, entropy w1 <$> seq b n = entropy w <$> seq (84 + b) n).
  { intros b n. rewrite <- (Hseq (entropy w) 84 b n).
    apply list_fmap_ext. intros ? ? _. apply Hent. }
  pose proof (Hshift 0 12) as Hn. pose proof (Hshift 12 4) as Hpad.
  pose proof (Hshift 16 68) as Hcert.
  change (84 + 0) with 84 in Hn. change (84 + 12) with 96 in Hpad.
  change (84 + 16) with 100 in Hcert.
  exists w1.
  rewrite (finisher_run mem ch ai conn sessionKey' w1), composeReply_run.
  rewrite Hn, Hpad, Hcert, Hc', Hleb'. fold reply'.
  cbn [trace usedRandom entropy]. rewrite Htr1.
  destruct (conn_Write conn reply') as [e|]; eexists; eexists;
    (split; [exact Hrun1|]); (split; [reflexivity|]);
    cbn [trace]; rewrite <- ?app_assoc; (split; [reflexivity|]);
    rewrite conn_writes_app, Hw1; done.
Qed.

(** X19.  A reply that [composeReply] returns is three well-formed
    records, whatever the length of the session id it echoes (up to
    the 255 bytes a ClientHello can carry): a handshake record with
    the ServerHello, a ChangeCipherSpec record with the byte 1 and an
    application data record with 68 random bytes, each of version
    03 03 and each with a length field that is the length of its
    payload.  The reply is 174 bytes longer than the session id. *)
Theorem composeReply_records (mem : list byte) (ch : ClientHello)
    (sharedSecret sessionKey : list byte) (w w' : world) (reply : list byte) :
  length (bytes_of mem (sessionId ch)) < 256 →
  composeReply mem ch sharedSecret sessionKey w = (Ret (reply, None), w') →
  ∃ sh cert,
    (∃ w1, composeServerHello (bytes_of mem (sessionId ch)) sharedSecret sessionKey w
           = (Ret (sh, None), w1))
    ∧ length sh = 90 + length (bytes_of mem (sessionId ch))
    ∧ cert = (entropy w <$> seq 16 68)
    ∧ reply = ([x16; x03; x03] ++ put_u16 (length sh) ++ sh)
              ++ ([x14; x03; x03] ++ put_u16 1 ++ [x01])
              ++ ([x17; x03; x03] ++ put_u16 (length cert) ++ cert)
    ∧ length reply = 174 + length (bytes_of mem (sessionId ch)).
Proof.
  intros Hsid Hrun. rewrite composeReply_run in Hrun.
  pose proof (composeServerHello_run (bytes_of mem (sessionId ch)) sharedSecret
                sessionKey w) as Hsh. cbv zeta in Hsh.
  set (nonce := entropy w <$> seq 0 12) in *.
  set (pad := entropy w <$> seq 12 4) in *.
  set (cert := entropy w <$> seq 16 68) in *.
  assert (Hn : length nonce = 12) by apply length_entropy.
  assert (Hp : length pad = 4) by apply length_entropy.
  assert (Hc : length cert = 68) by apply length_entropy.
  clearbody nonce pad cert.
  destruct (util_AESGCMEncrypt nonce sharedSecret sessionKey) as [e|ct]; [done|].
  destruct (Nat.leb_spec 48 (length ct)) as [Hct|]; [|done].
  injection Hrun as <- _.
  set (sh := serverHello_layout nonce ct (bytes_of mem (sessionId ch)) pad) in *.
  assert (Hl : length sh = 90 + length (bytes_of mem (sessionId ch)))
    by (by apply length_serverHello_layout).
  exists sh, cert. split; [by eexists|]. split; [done|]. split; [done|].
  assert (Heq : reply_layout nonce ct (bytes_of mem (sessionId ch)) pad cert
                = ([x16; x03; x03] ++ put_u16 (length sh) ++ sh)
                  ++ ([x14; x03; x03] ++ put_u16 1 ++ [x01])
                  ++ ([x17; x03; x03] ++ put_u16 (length cert) ++ cert)).
  { unfold reply_layout. fold sh. rewrite !addRecordLayer_eq by done.
    rewrite (Nat.mod_small (length sh)) by lia.
    rewrite (Nat.mod_small (length cert)) by lia. done. }
  split; [exact Heq|]. rewrite Heq.
  unfold put_u16. rewrite !length_app, Hl, Hc. cbn [length]. lia.
Qed.

End ReplyMore.

(** * Further properties: unmarshalClientHello and PrepareConnection *)

Section OrchestratorMore.

Context `{Collaborators}.

(** What [PrepareConnection] leaves behind on a packet that parses:
    the random in the replay guard, the source of randomness as it
    was. *)
Lemma PrepareConnection_world arr data mem ch sta conn w res w' :
  parseClientHello arr data = (mem, Some ch, None) →
  PrepareConnection arr data sta conn w = (res, w') →
  usedRandom w' = {[ bytes_of mem (random ch) ]} ∪ usedRandom w
  ∧ entropy w' = entropy w.
Proof.
  intros Hp. rewrite (PrepareConnection_spec _ _ _ _ sta conn w Hp).
  cbv zeta. intros E. apply (f_equal snd) in E. cbn [snd] in E.
  repeat case_match; by subst w'.
Qed.

(** X20.  When [PrepareConnection] returns without an error: exactly
    for a packet that parses, whose random is new to the replay guard
    and decodes to a public key, whose key_share extension yields an
    x25519 share, whose session id is 32 bytes long, whose payload
    the decision service accepts, and whose proxy method is in the
    proxy book.  It returns a finisher in these cases and in no
    other. *)
Theorem PrepareConnection_accepts (arr : list byte) (data : slice) (sta : State)
    (conn : Conn) (w : world) :
  ∃ info fin err w',
    PrepareConnection arr data sta conn w = (Ret (info, fin, err), w')
    ∧ (is_Some fin ↔ err = None)
    ∧ (err = None ↔
       ∃ mem ch ephPub keyShare,
         parseClientHello arr data = (mem, Some ch, None)
         ∧ (bytes_of mem (random ch) ∉ usedRandom w)
         ∧ ecdh_Unmarshal (bytes_of mem (random ch)) = Some ephPub
         ∧ parseKeyShare mem (default nil_slice (extensions ch !! (x00, x33)))
           = (keyShare, None)
         ∧ sessionIdLen ch = 32
         ∧ touchStone (payload_of mem ch (staticPv sta) ephPub
                         (bytes_of mem keyShare)) (Now sta) = (info, None)
         ∧ ProxyMethod info ∈ ProxyBook sta).
Proof.
  destruct (parseClientHello arr data) as [[mem ret] [e|]] eqn:Hp.
  { rewrite (PrepareConnection_failed_run _ _ _ _ _ sta conn w Hp).
    do 4 eexists. split; [reflexivity|]. split.
    - split; [by intros [? ?] | done].
    - split; [done|]. by intros (? & ? & ? & ? & ? & _). }
  pose proof Hp as Hp'. apply parseClientHello_ok in Hp' as (ch & -> & F).
  rewrite (PrepareConnection_spec _ _ _ _ sta conn w Hp). cbv zeta.
  case_bool_decide as Hused.
  { do 4 eexists. split; [reflexivity|]. split.
    - split; [by intros [? ?] | done].
    - split; [done|]. by intros (? & ? & ? & ? & [= <- <-] & ? & _). }
  destruct (ecdh_Unmarshal _) as [ephPub|] eqn:Hun.
  2: { do 4 eexists. split; [reflexivity|]. split.
       - split; [by intros [? ?] | done].
       - split; [done|]. intros (? & ? & ? & ? & [= <- <-] & ? & ? & _). congruence. }
  destruct (parseKeyShare mem _) as [keyShare [e|]] eqn:Hks.
  { do 4 eexists. split; [reflexivity|]. split.
    - split; [by intros [? ?] | done].
    - split; [done|].
      intros (? & ? & ? & ? & [= <- <-] & ? & ? & ? & _). congruence. }
  destruct (Nat.eqb_spec (sessionIdLen ch) 32) as [Hsl|Hsl].
  2: { do 4 eexists. split; [reflexivity|]. split.
       - split; [by intros [? ?] | done].
       - split; [done|].
         by intros (? & ? & ? & ? & [= <- <-] & ? & ? & ? & ? & _). }
  destruct (touchStone (payload_of mem ch (staticPv sta) ephPub (bytes_of mem keyShare))
              (Now sta)) as [info [e|]] eqn:Hts.
  { do 4 eexists. split; [reflexivity|]. split.
    - split; [by intros [? ?] | done].
    - split; [done|].
      intros (? & ? & ? & ? & [= <- <-] & ? & ? & ? & ? & ? & _). congruence. }
  case_bool_decide as Hpb.
  - do 4 eexists. split; [reflexivity|]. split; [by split; eauto|].
    split; [|done]. intros _. exists mem, ch, ephPub, keyShare. done.
  - do 4 eexists. split; [reflexivity|]. split.
    + split; [by intros [? ?] | done].
    + split; [done|].
      intros (? & ? & ? & ? & [= <- <-] & ? & ? & ? & ? & ? & ?). congruence.
Qed.

(** X21.  A random that does not decode to a public key: for a packet
    that parses and whose random is new, [PrepareConnection] returns
    [ErrInvalidPubKey] with the zero ClientInfo and no finisher.  The
    random has been registered with the replay guard all the same;
    no shared secret was computed and the decision service was not
    asked.  The error is the one [unmarshalClientHello] returns, with
    an empty payload and [peeled] untouched. *)
Theorem PrepareConnection_invalid_key (arr : list byte) (data : slice)
    (mem : list byte) (ch : ClientHello) (sta : State) (conn : Conn) (w : world) :
  parseClientHello arr data = (mem, Some ch, None) →
  let r := bytes_of mem (random ch) in
  r ∉ usedRandom w →
  ecdh_Unmarshal r = None →
  ∃ w',
    PrepareConnection arr data sta conn w
    = (Ret (mkClientInfo EmptyString [], None, Some ErrInvalidPubKey), w')
    ∧ trace w' = trace w ++ [EvRegisterRandom r; EvEcdhUnmarshal r]
    ∧ usedRandom w' = {[ r ]} ∪ usedRandom w
    ∧ ∀ w0,
        unmarshalClientHello mem ch (staticPv sta) w0
        = (Ret (mem, mkAuthenticationInfo [] [] [], Some ErrInvalidPubKey),
           World (usedRandom w0) (entropy w0) (trace w0 ++ [EvEcdhUnmarshal r])).
Proof.
  intros Hp r Hused Hun.
  rewrite (PrepareConnection_spec _ _ _ _ sta conn w Hp). fold r.
  rewrite bool_decide_eq_false_2, Hun by done.
  eexists. split; [reflexivity|]. split; [done|]. split; [done|].
  intros w0.
  apply parseClientHello_ok in Hp as (? & [= <-] & F).
  rewrite (unmarshalClientHello_parsed _ _ _ _ _ _ F). fold r. by rewrite Hun.
Qed.

(** X22.  The ClientInfo that [PrepareConnection] returns is the
    verdict of the decision service whenever the service was asked:
    with [ErrNotCloak] and with [ErrBadProxyMethod] as much as
    without an error.  When the service was not asked, it is the zero
    ClientInfo, and the error is none of these two. *)
Theorem PrepareConnection_info (arr : list byte) (data : slice) (sta : State)
    (conn : Conn) (w : world) :
  ∃ info fin err w' evs,
    PrepareConnection arr data sta conn w = (Ret (info, fin, err), w')
    ∧ trace w' = trace w ++ evs
    ∧ ((∀ ai, EvTouchStone ai ∉ evs) →
       info = mkClientInfo EmptyString []
       ∧ ∃ e, err = Some e ∧ e ≠ ErrNotCloak ∧ e ≠ ErrBadProxyMethod)
    ∧ (∀ ai, EvTouchStone ai ∈ evs →
       info = (touchStone ai (Now sta)).1
       ∧ match (touchStone ai (Now sta)).2 with
         | Some _ => err = Some ErrNotCloak
         | None => if bool_decide (ProxyMethod info ∈ ProxyBook sta)
                   then err = None else err = Some ErrBadProxyMethod
         end).
Proof.
  destruct (parseClientHello arr data) as [[mem ret] [e|]] eqn:Hp.
  { rewrite (PrepareConnection_failed_run _ _ _ _ _ sta conn w Hp).
    do 5 eexists. split; [reflexivity|]. split; [reflexivity|]. split.
    - intros _. split; [done|]. by eexists.
    - intros ai Hin. exfalso. revert Hin. absent. }
  pose proof Hp as Hp'. apply parseClientHello_ok in Hp' as (ch & -> & F).
  rewrite (PrepareConnection_spec _ _ _ _ sta conn w Hp). cbv zeta.
  case_bool_decide as Hused.
  { do 5 eexists. split; [reflexivity|]. split; [reflexivity|]. split.
    - intros _. split; [done|]. by eexists.
    - intros ai Hin. exfalso. revert Hin. absent. }
  destruct (ecdh_Unmarshal _) as [ephPub|] eqn:Hun.
  2: { do 5 eexists. split; [reflexivity|]. split; [reflexivity|]. split.
       - intros _. split; [done|]. by eexists.
       - intros ai Hin. exfalso. revert Hin. absent. }
  destruct (parseKeyShare mem _) as [keyShare [e|]] eqn:Hks.
  { apply parseKeyShare_failed in Hks as [_ Hke].
    do 5 eexists. split; [reflexivity|]. split; [reflexivity|]. split.
    - intros _. split; [done|]. exists e. split; [done|].
      destruct Hke as [->|[->|(n & _ & ->)]]; done.
    - intros ai Hin. exfalso. revert Hin. absent. }
  destruct (Nat.eqb_spec (sessionIdLen ch) 32) as [Hsl|Hsl].
  2: { do 5 eexists. split; [reflexivity|]. split; [reflexivity|]. split.
       - intros _. split; [done|]. by eexists.
       - intros ai Hin. exfalso. revert Hin. absent. }
  set (ai0 := payload_of mem ch (staticPv sta) ephPub (bytes_of mem keyShare)).
  assert (Hai : ∀ ai evs1 evs2,
            EvTouchStone ai ∈ [EvRegisterRandom (bytes_of mem (random ch));
                               EvEcdhUnmarshal (bytes_of mem (random ch));
                               EvGenerateSharedSecret; EvTouchStone ai0] ++ evs1 →
            (∀ ai', EvTouchStone ai' ∉ evs1) → evs2 = evs1 → ai = ai0).
  { intros ai evs1 evs2 Hin Hnot _.
    apply elem_of_app in Hin as [Hin|Hin]; [|by apply Hnot in Hin].
    repeat (apply elem_of_cons in Hin as [Hin|Hin]; [by simplify_eq|]).
    by apply elem_of_nil in Hin. }
  destruct (touchStone ai0 (Now sta)) as [info [e|]] eqn:Hts.
  { do 5 eexists. split; [reflexivity|]. split; [reflexivity|]. split.
    - intros Hnot. exfalso. apply (Hnot ai0).
      do 3 apply list_elem_of_further. apply list_elem_of_here.
    - intros ai Hin.
      apply (Hai ai [EvLogDebug e] [EvLogDebug e]) in Hin as ->; [|intros ?; absent|done].
      by rewrite Hts. }
  case_bool_decide as Hpb.
  - do 5 eexists. split; [reflexivity|]. split; [reflexivity|]. split.
    + intros Hnot. exfalso. apply (Hnot ai0).
      do 3 apply list_elem_of_further. apply list_elem_of_here.
    + intros ai Hin.
      apply (Hai ai [EvProxyBook (ProxyMethod info)] [EvProxyBook (ProxyMethod info)])
        in Hin as ->; [|intros ?; absent|done].
      rewrite Hts. cbn [fst snd]. by rewrite bool_decide_eq_true_2.
  - do 5 eexists. split; [reflexivity|]. split; [reflexivity|]. split.
    + intros Hnot. exfalso. apply (Hnot ai0).
      do 3 apply list_elem_of_further. apply list_elem_of_here.
    + intros ai Hin.
      apply (Hai ai [EvProxyBook (ProxyMethod info)] [EvProxyBook (ProxyMethod info)])
        in Hin as ->; [|intros ?; absent|done].
      rewrite Hts. cbn [fst snd]. by rewrite bool_decide_eq_false_2.
Qed.

(** X23.  A random is good for one attempt.  Once [PrepareConnection]
    has run on a packet that parses, whatever the outcome was, every
    later call on a packet that parses and carries the same random
    (the same packet among them) ends with [ErrReplay], right after
    the look-up in the replay guard. *)
Theorem PrepareConnection_second_attempt (arr arr2 : list byte) (data data2 : slice)
    (mem mem2 : list byte) (ch ch2 : ClientHello) (sta sta2 : State)
    (conn conn2 : Conn) (w w1 : world)
    (res : outcome (ClientInfo * option (list byte → IO (option error)) * option error)) :
  parseClientHello arr data = (mem, Some ch, None) →
  PrepareConnection arr data sta conn w = (res, w1) →
  parseClientHello arr2 data2 = (mem2, Some ch2, None) →
  bytes_of mem2 (random ch2) = bytes_of mem (random ch) →
  ∃ w2,
    PrepareConnection arr2 data2 sta2 conn2 w1
    = (Ret (mkClientInfo EmptyString [], None, Some ErrReplay), w2)
    ∧ trace w2 = trace w1 ++ [EvRegisterRandom (bytes_of mem (random ch))]
    ∧ usedRandom w2 = usedRandom w1.
Proof.
  intros Hp Hrun Hp2 Hsame.
  destruct (PrepareConnection_world _ _ _ _ _ _ _ _ _ Hp Hrun) as [Hused _].
  rewrite (PrepareConnection_spec _ _ _ _ sta2 conn2 w1 Hp2). cbv zeta.
  rewrite Hsame, bool_decide_eq_true_2
    by (rewrite Hused; apply elem_of_union_l; by apply elem_of_singleton).
  eexists. split; [reflexivity|]. split; [done|].
  cbn [usedRandom]. rewrite Hused. by rewrite (assoc_L (∪)), union_idemp_L.
Qed.

(** X24.  [PrepareConnection] draws no randomness and does not touch
    the connection: on any input it leaves the source of randomness
    as it was, and with another connection it returns the same
    ClientInfo and the same error and leaves the same state
    behind.  Randomness is first drawn by the finisher. *)
Theorem PrepareConnection_draws_nothing (arr : list byte) (data : slice)
    (sta : State) (conn conn' : Conn) (w : world) :
  ∃ info fin fin' err w' evs,
    PrepareConnection arr data sta conn w = (Ret (info, fin, err), w')
    ∧ PrepareConnection arr data sta conn' w = (Ret (info, fin', err), w')
    ∧ (is_Some fin ↔ is_Some fin')
    ∧ entropy w' = entropy w
    ∧ trace w' = trace w ++ evs
    ∧ ∀ n, EvRandRead n ∉ evs.
Proof.
  destruct (parseClientHello arr data) as [[mem ret] [e|]] eqn:Hp.
  { rewrite !(PrepareConnection_failed_run _ _ _ _ _ sta _ w Hp).
    do 6 eexists. split; [reflexivity|]. split; [reflexivity|]. split; [done|].
    split; [done|]. split; [reflexivity|]. intros n. absent. }
  pose proof Hp as Hp'. apply parseClientHello_ok in Hp' as (ch & -> & F).
  rewrite !(PrepareConnection_spec _ _ _ _ sta _ w Hp). cbv zeta.
  repeat case_match;
    (do 6 eexists; split; [reflexivity|]; split; [reflexivity|];
     split; [first [done | by split; intros _; eauto]|];
     split; [done|]; split; [reflexivity|]; intros n; absent).
Qed.

(** X25.  [append(ch.sessionId, keyShare...)] in [unmarshalClientHello]
    writes into [peeled]: the session id of a parsed ClientHello has
    the rest of the packet as its capacity, so no new array is made.
    Afterwards the 32 bytes behind the session id (where the cipher
    suites began) hold the key share, the bytes in front of them (the
    random and the session id among them) and behind them are as they
    were, and the ciphertext-with-tag of the payload is what [peeled]
    shows from the start of the session id on. *)
Theorem unmarshalClientHello_in_place (arr : list byte) (data : slice)
    (mem : list byte) (ch : ClientHello) (staticPv : PrivateKey)
    (ephPub : PublicKey) (keyShare : slice) (w : world) :
  parseClientHello arr data = (mem, Some ch, None) →
  ecdh_Unmarshal (bytes_of mem (random ch)) = Some ephPub →
  parseKeyShare mem (default nil_slice (extensions ch !! (x00, x33)))
    = (keyShare, None) →
  let stop := 39 + sessionIdLen ch in
  ∃ mem' ai err w',
    unmarshalClientHello mem ch staticPv w = (Ret (mem', ai, err), w')
    ∧ length mem' = length mem
    ∧ take stop mem' = take stop mem
    ∧ take 32 (drop stop mem') = bytes_of mem keyShare
    ∧ drop (stop + 32) mem' = drop (stop + 32) mem
    ∧ bytes_of mem' (Slice 39 (sessionIdLen ch + 32) (cap (sessionId ch)))
      = ciphertextWithTag ai.
Proof.
  intros Hp Hun Hks stop.
  apply parseClientHello_ok in Hp as (? & [= <-] & F).
  rewrite (unmarshalClientHello_parsed _ _ _ _ _ _ F). rewrite Hun, Hks.
  destruct (parsed_keyShare _ _ _ _ _ F Hks) as (Hok & Hlen & Hlb & Hcap).
  destruct (parsed_slices _ _ _ _ _ F) as (Hr & Hs & Hrl & Hsl & Hrs & Hext).
  pose proof (parsed_sessionId _ _ _ _ _ F) as Hsid.
  assert (Hoff : off (sessionId ch) + len (sessionId ch) = stop)
    by (rewrite Hsid; simpl; unfold stop; lia).
  assert (Hfit : stop + 32 ≤ length mem).
  { destruct Hs as [_ Hs]. lia. }
  do 4 eexists. split; [reflexivity|].
  rewrite append_in_place by lia. rewrite Hoff, Hlb.
  set (ks := bytes_of mem keyShare) in *.
  assert (Htk : length (take stop mem) = stop) by (rewrite length_take; lia).
  split_and!.
  - rewrite !length_app, Htk, Hlb, length_drop. lia.
  - by rewrite take_app_length'.
  - rewrite drop_app_length' by done. by rewrite take_app_length'.
  - rewrite <- drop_drop, drop_app_length' by done. by rewrite drop_app_length'.
  - unfold payload_of. cbn [ciphertextWithTag].
    unfold bytes_of at 1. cbn [off len].
    replace (take stop mem) with (take 39 mem ++ bytes_of mem (sessionId ch)).
    2: { rewrite Hsid. unfold bytes_of. cbn [off len]. unfold stop.
         rewrite <- (take_drop 39 (take (39 + sessionIdLen ch) mem)).
         rewrite take_take, Nat.min_l by lia. f_equal.
         by rewrite <- take_drop_commute. }
    rewrite <- app_assoc, drop_app_length' by (rewrite length_take; lia).
    rewrite app_assoc, take_app_length'; [done|].
    rewrite length_app, Hlb, length_bytes_of by done. lia.
Qed.

End OrchestratorMore.

(** * The further properties at concrete inputs *)

(** X1 at a region of two extensions. *)
Lemma parseExtensions_decodes_witness :
  (slice_ok Example2.region (whole Example2.region)
   ∧ bytes_of Example2.region (whole Example2.region)
     = encode_extensions Example2.entries
   ∧ NoDup Example2.entries.*1)
  ∧ ∃ m, parseExtensions Example2.region (whole Example2.region) = (m, None)
       ∧ dom m = list_to_set Example2.entries.*1
       ∧ ∀ typ payload, (typ, payload) ∈ Example2.entries →
           bytes_of Example2.region <$> m !! typ = Some payload.
Proof.
  assert (Hok : slice_ok Example2.region (whole Example2.region))
    by (vm_compute; lia).
  assert (Hnd : NoDup Example2.entries.*1).
  { apply (bool_decide_unpack _). vm_compute. exact I. }
  split; [by split_and!|].
  apply (parseExtensions_decodes Example2.region (whole Example2.region)
           Example2.entries); [exact Hok | reflexivity | | exact Hnd].
  repeat (apply Forall_cons_2; [cbn [length snd]; lia|]). apply Forall_nil_2.
Defined.

(** X2 at the same region followed by the first five bytes of a
    key_share extension. *)
Lemma parseExtensions_cut_witness :
  (slice_ok Example2.region_cut (whole Example2.region_cut)
   ∧ cap (whole Example2.region_cut) = len (whole Example2.region_cut)
   ∧ 0 < 5 < 4 + length [x01; x02; x03]
   ∧ bytes_of Example2.region_cut (whole Example2.region_cut)
     = encode_extensions Example2.entries
       ++ take 5 (ext_entry (x00, x33) [x01; x02; x03]))
  ∧ ∃ m, parseExtensions Example2.region_cut (whole Example2.region_cut)
         = (m, Some ErrMalformedExtensions)
       ∧ bytes_of Example2.region_cut <$> m !! (x00, x2b) = Some [x02; x03; x04]
       ∧ m !! (x00, x33) = None.
Proof.
  assert (Hok : slice_ok Example2.region_cut (whole Example2.region_cut))
    by (vm_compute; lia).
  assert (Hk : 0 < 5 < 4 + length [x01; x02; x03]) by (cbn [length]; lia).
  split; [split_and!; [exact Hok | reflexivity | apply Hk | apply Hk | reflexivity]|].
  destruct (parseExtensions_cut Example2.region_cut (whole Example2.region_cut)
              Example2.entries (x00, x33) [x01; x02; x03] 5)
    as (m & Hm & Hlook); [exact Hok | reflexivity | | cbn [length]; lia | exact Hk
                          | reflexivity |].
  { repeat (apply Forall_cons_2; [cbn [length snd]; lia|]). apply Forall_nil_2. }
  exists m. split; [exact Hm|]. split; [by rewrite Hlook|].
  specialize (Hlook (x00, x33)). by destruct (m !! (x00, x33)).
Defined.

(** X3 at a list that offers secp256r1 and then x25519. *)
Lemma parseKeyShare_first_x25519_witness :
  (slice_ok Example2.shares_found (whole Example2.shares_found)
   ∧ bytes_of Example2.shares_found (whole Example2.shares_found)
     = encode_keyShare ([((x00, x17), replicate 4 x05)]
                        ++ (x25519, Example.share0) :: [])
   ∧ length Example.share0 = 32)
  ∧ ∃ s, parseKeyShare Example2.shares_found (whole Example2.shares_found) = (s, None)
       ∧ len s = 32
       ∧ bytes_of Example2.shares_found s = Example.share0.
Proof.
  assert (Hok : slice_ok Example2.shares_found (whole Example2.shares_found))
    by (vm_compute; lia).
  split; [by split_and!|].
  apply (parseKeyShare_first_x25519 Example2.shares_found (whole Example2.shares_found)
           [((x00, x17), replicate 4 x05)] [] Example.share0);
    [exact Hok | reflexivity | | | reflexivity].
  - apply Nat.ltb_lt. vm_compute. reflexivity.
  - repeat (apply Forall_cons_2; [done|]). apply Forall_nil_2.
Defined.

(** X4 at a list whose first x25519 share has 16 bytes and whose second
    has 32. *)
Lemma parseKeyShare_wrong_length_witness :
  (slice_ok Example2.shares_short (whole Example2.shares_short)
   ∧ bytes_of Example2.shares_short (whole Example2.shares_short)
     = encode_keyShare ([] ++ (x25519, replicate 16 x0a)
                           :: [(x25519, Example.share0)])
   ∧ length (replicate 16 x0a) ≠ 32)
  ∧ parseKeyShare Example2.shares_short (whole Example2.shares_short)
    = (nil_slice, Some (ErrKeyShareLength 16)).
Proof.
  assert (Hok : slice_ok Example2.shares_short (whole Example2.shares_short))
    by (vm_compute; lia).
  assert (Hne : length (replicate 16 x0a) ≠ 32) by (vm_compute; lia).
  split; [by split_and!|].
  apply (parseKeyShare_wrong_length Example2.shares_short (whole Example2.shares_short)
           [] [(x25519, Example.share0)] (replicate 16 x0a));
    [exact Hok | reflexivity | | apply Forall_nil_2 | exact Hne].
  apply Nat.ltb_lt. vm_compute. reflexivity.
Defined.

(** X5 at a list that offers secp256r1 only. *)
Lemma parseKeyShare_no_x25519_witness :
  (slice_ok Example2.shares_none (whole Example2.shares_none)
   ∧ bytes_of Example2.shares_none (whole Example2.shares_none)
     = encode_keyShare [((x00, x17), replicate 4 x05)])
  ∧ parseKeyShare Example2.shares_none (whole Example2.shares_none)
    = (nil_slice, Some ErrNoX25519).
Proof.
  assert (Hok : slice_ok Example2.shares_none (whole Example2.shares_none))
    by (vm_compute; lia).
  split; [by split_and!|].
  apply (parseKeyShare_no_x25519 Example2.shares_none (whole Example2.shares_none)
           [((x00, x17), replicate 4 x05)]); [exact Hok | reflexivity | |].
  - apply Nat.ltb_lt. vm_compute. reflexivity.
  - repeat (apply Forall_cons_2; [done|]). apply Forall_nil_2.
Defined.

(** X9 at the ChangeCipherSpec record of the reply. *)
Lemma addRecordLayer_header_witness :
  (length [x14] = 1 ∧ length [x03; x03] = 2 ∧ length [x01] < 256 * 256)
  ∧ addRecordLayer [x01] [x14] [x03; x03] = [x14; x03; x03; x00; x01; x01]
  ∧ u16 (addRecordLayer [x01] [x14] [x03; x03]) (Slice 3 2 3) = Ret 1.
Proof.
  assert (Hl : length [x01] < 256 * 256) by (cbn [length]; lia).
  split; [by split_and!|]. split; [reflexivity|].
  destruct (addRecordLayer_header [x01] [x14] [x03; x03] eq_refl eq_refl Hl)
    as (_ & _ & Hu & _).
  exact Hu.
Defined.

(** X10 at [hello], which is framed, and at a packet that is not. *)
Lemma parseClientHello_accepts_witness :
  (slice_ok Example.hello (whole Example.hello)
   ∧ well_framed (bytes_of Example.hello (whole Example.hello))
   ∧ slice_ok Example2.hello_http (whole Example2.hello_http)
   ∧ ¬ well_framed (bytes_of Example2.hello_http (whole Example2.hello_http)))
  ∧ parseClientHello Example.hello (whole Example.hello)
    = (drop 5 Example.hello, Some (decoded (drop 5 Example.hello)).1, None)
  ∧ ∃ mem e, parseClientHello Example2.hello_http (whole Example2.hello_http)
             = (mem, None, Some e).
Proof.
  assert (Hok : slice_ok Example.hello (whole Example.hello)) by (vm_compute; lia).
  assert (Hok' : slice_ok Example2.hello_http (whole Example2.hello_http))
    by (vm_compute; lia).
  assert (Hwf : well_framed (bytes_of Example.hello (whole Example.hello))).
  { unfold well_framed. split_and!; vm_compute; (reflexivity || lia). }
  assert (Hnwf : ¬ well_framed (bytes_of Example2.hello_http (whole Example2.hello_http))).
  { intros [Hm _]. vm_compute in Hm. discriminate. }
  split; [by split_and!|]. split.
  - destruct (parseClientHello_accepts Example.hello (whole Example.hello) Hok)
      as [Hacc _].
    rewrite (Hacc Hwf). rewrite bytes_of_whole. vm_compute. reflexivity.
  - destruct (parseClientHello_accepts Example2.hello_http (whole Example2.hello_http)
                Hok') as [_ Hrej].
    exact (Hrej Hnwf).
Defined.

(** X11 at a ClientHello with a record length of zero, the version
    03 04 and an extensions length of 0xffff. *)
Lemma parseClientHello_decodes_witness :
  ∃ ch,
    parseClientHello Example2.hello_fields (whole Example2.hello_fields)
    = (drop 5 Example2.hello_fields, Some ch, None)
    ∧ bytes_of (drop 5 Example2.hello_fields) (clientVersion ch) = [x03; x04]
    ∧ bytes_of (drop 5 Example2.hello_fields) (random ch) = Example.random0
    ∧ bytes_of (drop 5 Example2.hello_fields) (sessionId ch) = replicate 32 x09
    ∧ bytes_of (drop 5 Example2.hello_fields) (cipherSuites ch) = [x13; x01]
    ∧ bytes_of (drop 5 Example2.hello_fields) (compressionMethods ch) = [x00]
    ∧ extensionsLen ch = 255 * 256 + 255
    ∧ bytes_of (drop 5 Example2.hello_fields) <$> extensions ch !! (x00, x2b)
      = Some [x02; x03; x04].
Proof.
  destruct (parseClientHello_decodes x00 x00 x03 x04 xff xff Example.random0
              (replicate 32 x09) [x13; x01] [x00] Example2.entries)
    as (ch & Hrun & _ & _ & Hv & Hr & _ & Hs & _ & Hc & _ & Hm & He & Hx).
  - reflexivity.
  - apply Nat.ltb_lt. vm_compute. reflexivity.
  - cbn [length]. lia.
  - cbn [length]. lia.
  - apply (Nat.lt_le_trans _ 256); [apply Nat.ltb_lt; vm_compute; reflexivity | lia].
  - repeat (apply Forall_cons_2; [cbn [length snd]; lia|]). apply Forall_nil_2.
  - exists ch. split; [exact Hrun|]. by split_and!.
Defined.

(** X12 at [hello] and [hello] with the record length 0xffff. *)
Lemma parseClientHello_record_length_unread_witness :
  (length Example.hello = length Example2.hello_relabelled
   ∧ take 3 Example.hello = take 3 Example2.hello_relabelled
   ∧ drop 5 Example.hello = drop 5 Example2.hello_relabelled
   ∧ take 2 (drop 3 Example.hello) ≠ take 2 (drop 3 Example2.hello_relabelled))
  ∧ parseClientHello Example2.hello_relabelled (whole Example2.hello_relabelled)
    = (Example.peeled, Some Example.ch, None).
Proof.
  assert (H1 : length Example.hello = length Example2.hello_relabelled) by reflexivity.
  assert (H2 : take 3 Example.hello = take 3 Example2.hello_relabelled) by reflexivity.
  assert (H3 : drop 5 Example.hello = drop 5 Example2.hello_relabelled) by reflexivity.
  split; [split_and!; try done; vm_compute; discriminate|].
  rewrite <- (parseClientHello_record_length_unread _ _ H1 H2 H3).
  exact hello_parses.
Defined.

(** X13 at an HTTP request, at a ServerHello and at a ClientHello that
    declares nine bytes and has one. *)
Lemma parseClientHello_checks_witness :
  parseClientHello Example2.hello_http (whole Example2.hello_http)
  = ([], None, Some ErrWrongMagic)
  ∧ parseClientHello Example2.hello_server (whole Example2.hello_server)
    = ([x02; x00; x00; x00], None, Some ErrNotAClientHello)
  ∧ parseClientHello Example2.hello_overlong (whole Example2.hello_overlong)
    = ([x01; x00; x00; x09; x03], None, Some ErrHelloLength).
Proof.
  split; [|split].
  - apply (parseClientHello_checks Example2.hello_http); [vm_compute; lia|].
    discriminate.
  - assert (H3 : 3 ≤ length Example2.hello_server) by (vm_compute; lia).
    destruct (parseClientHello_checks Example2.hello_server H3) as (_ & Ht & _).
    apply (Ht eq_refl x02); [reflexivity | discriminate].
  - assert (H3 : 3 ≤ length Example2.hello_overlong) by (vm_compute; lia).
    destruct (parseClientHello_checks Example2.hello_overlong H3) as (_ & _ & Hl).
    apply (Hl eq_refl eq_refl); [vm_compute; lia|].
    vm_compute. lia.
Defined.

(** X14 at a ServerHello for the session id of [hello]. *)
Lemma composeServerHello_extensions_witness :
  @composeServerHello Example.collaborators (replicate 32 x09) [] Example.sessionKey0
    Example.world0
  = (Ret (serverHello_layout (entropy Example.world0 <$> seq 0 12)
            (Example.sessionKey0 ++ replicate 16 xff) (replicate 32 x09)
            (entropy Example.world0 <$> seq 12 4), None),
     (@composeServerHello Example.collaborators (replicate 32 x09) []
        Example.sessionKey0 Example.world0).2)
  ∧ ∃ sh m,
      sh = serverHello_layout (entropy Example.world0 <$> seq 0 12)
             (Example.sessionKey0 ++ replicate 16 xff) (replicate 32 x09)
             (entropy Example.world0 <$> seq 12 4)
      ∧ length sh = 122
      ∧ parseExtensions sh (Slice 76 46 46) = (m, None)
      ∧ bytes_of sh <$> m !! (x00, x2b) = Some [x03; x04].
Proof.
  assert (Hrun :
    @composeServerHello Example.collaborators (replicate 32 x09) []
      Example.sessionKey0 Example.world0
    = (Ret (serverHello_layout (entropy Example.world0 <$> seq 0 12)
              (Example.sessionKey0 ++ replicate 16 xff) (replicate 32 x09)
              (entropy Example.world0 <$> seq 12 4), None),
       (@composeServerHello Example.collaborators (replicate 32 x09) []
          Example.sessionKey0 Example.world0).2))
    by (vm_compute; reflexivity).
  split; [exact Hrun|].
  destruct (@composeServerHello_extensions Example.collaborators _ _ _ _ _ _ Hrun)
    as (Hlen & _ & _ & _ & m & ke & Hm & _ & _ & _ & Hv).
  eexists _, m. split; [reflexivity|]. split; [exact Hlen|]. split; [exact Hm | exact Hv].
Defined.

(** X15 at a shared secret of 16 bytes, which the cipher of
    [Example2] does not take as a key. *)
Lemma finisher_cipher_error_witness :
  @util_AESGCMEncrypt Example2.collaborators (entropy Example.world0 <$> seq 0 12)
    (sharedSecret Example2.ai_bad) Example.sessionKey0
  = inl (ErrCollaborator "invalid key size")
  ∧ ∃ w',
      @finisher Example2.collaborators Example.peeled Example.ch Example2.ai_bad
        Example.conn Example.sessionKey0 Example.world0
      = (Ret (Some (ErrCollaborator "invalid key size")), w')
      ∧ conn_writes (trace w') = [].
Proof.
  assert (Hc : @util_AESGCMEncrypt Example2.collaborators
                 (entropy Example.world0 <$> seq 0 12)
                 (sharedSecret Example2.ai_bad) Example.sessionKey0
               = inl (ErrCollaborator "invalid key size")) by reflexivity.
  split; [exact Hc|].
  destruct (@finisher_cipher_error Example2.collaborators Example.peeled Example.ch
              Example2.ai_bad Example.conn Example.sessionKey0 Example.world0 _ Hc)
    as (w' & _ & _ & Hf & Ht & _).
  exists w'. split; [exact Hf|]. rewrite Ht. reflexivity.
Defined.

(** X16 at a session key of 16 bytes, which the cipher of [Example]
    turns into 32 bytes. *)
Lemma finisher_short_ciphertext_witness :
  (@util_AESGCMEncrypt Example.collaborators (entropy Example.world0 <$> seq 0 12)
     (sharedSecret Example2.ai_good) (replicate 16 x55)
   = inr (replicate 16 x55 ++ replicate 16 xff)
   ∧ length (replicate 16 x55 ++ replicate 16 xff) < 48)
  ∧ ∃ w',
      @finisher Example.collaborators Example.peeled Example.ch Example2.ai_good
        Example.conn (replicate 16 x55) Example.world0
      = (Panic, w')
      ∧ conn_writes (trace w') = [].
Proof.
  assert (Hc : @util_AESGCMEncrypt Example.collaborators
                 (entropy Example.world0 <$> seq 0 12)
                 (sharedSecret Example2.ai_good) (replicate 16 x55)
               = inr (replicate 16 x55 ++ replicate 16 xff)) by reflexivity.
  assert (Hl : length (replicate 16 x55 ++ replicate 16 xff) < 48)
    by (vm_compute; lia).
  split; [by split|].
  destruct (@finisher_short_ciphertext Example.collaborators Example.peeled Example.ch
              Example2.ai_good Example.conn (replicate 16 x55) Example.world0 _ Hc Hl)
    as (w' & _ & _ & Hf & Ht).
  exists w'. split; [exact Hf|]. rewrite Ht. reflexivity.
Defined.

(** X17 at a connection on which every write fails. *)
Lemma finisher_transport_witness :
  (@util_AESGCMEncrypt Example.collaborators (entropy Example.world0 <$> seq 0 12)
     (sharedSecret Example2.ai_good) Example.sessionKey0
   = inr (Example.sessionKey0 ++ replicate 16 xff)
   ∧ 48 ≤ length (Example.sessionKey0 ++ replicate 16 xff))
  ∧ ∃ w',
      @finisher Example.collaborators Example.peeled Example.ch Example2.ai_good
        Example.conn_down Example.sessionKey0 Example.world0
      = (Ret (Some (ErrCollaborator "broken pipe")), w')
      ∧ length (conn_writes (trace w')) = 1
      ∧ last (trace w') = Some EvConnClose.
Proof.
  assert (Hc : @util_AESGCMEncrypt Example.collaborators
                 (entropy Example.world0 <$> seq 0 12)
                 (sharedSecret Example2.ai_good) Example.sessionKey0
               = inr (Example.sessionKey0 ++ replicate 16 xff)) by reflexivity.
  assert (Hl : 48 ≤ length (Example.sessionKey0 ++ replicate 16 xff))
    by (vm_compute; lia).
  split; [by split|].
  destruct (@finisher_transport Example.collaborators Example.peeled Example.ch
              Example2.ai_good Example.conn_down Example.sessionKey0 Example.world0 _
              Hc Hl) as (w' & Hf & Ht & _).
  exists w'. split; [exact Hf|]. rewrite Ht. split; reflexivity.
Defined.

(** X18 at two calls in a row. *)
Lemma finisher_twice_witness :
  (@util_AESGCMEncrypt Example.collaborators (entropy Example.world0 <$> seq 0 12)
     (sharedSecret Example2.ai_good) Example.sessionKey0
   = inr (Example.sessionKey0 ++ replicate 16 xff)
   ∧ @util_AESGCMEncrypt Example.collaborators (entropy Example.world0 <$> seq 84 12)
       (sharedSecret Example2.ai_good) Example.sessionKey0
     = inr (Example.sessionKey0 ++ replicate 16 xff)
   ∧ 48 ≤ length (Example.sessionKey0 ++ replicate 16 xff))
  ∧ ∃ w1 w2 evs,
      @finisher Example.collaborators Example.peeled Example.ch Example2.ai_good
        Example.conn Example.sessionKey0 Example.world0 = (Ret None, w1)
      ∧ @finisher Example.collaborators Example.peeled Example.ch Example2.ai_good
          Example.conn Example.sessionKey0 w1 = (Ret None, w2)
      ∧ trace w2 = trace Example.world0 ++ evs
      ∧ length (conn_writes evs) = 2.
Proof.
  assert (Hc : @util_AESGCMEncrypt Example.collaborators
                 (entropy Example.world0 <$> seq 0 12)
                 (sharedSecret Example2.ai_good) Example.sessionKey0
               = inr (Example.sessionKey0 ++ replicate 16 xff)) by reflexivity.
  assert (Hc' : @util_AESGCMEncrypt Example.collaborators
                  (entropy Example.world0 <$> seq 84 12)
                  (sharedSecret Example2.ai_good) Example.sessionKey0
                = inr (Example.sessionKey0 ++ replicate 16 xff)) by reflexivity.
  assert (Hl : 48 ≤ length (Example.sessionKey0 ++ replicate 16 xff))
    by (vm_compute; lia).
  split; [by split_and!|].
  destruct (@finisher_twice Example.collaborators Example.peeled Example.ch
              Example2.ai_good Example.conn Example.sessionKey0 Example.sessionKey0
              Example.world0 _ _ Hc Hl Hc' Hl)
    as (w1 & w2 & evs & H1 & H2 & Ht & Hw).
  exists w1, w2, evs. split; [exact H1|]. split; [exact H2|]. split; [exact Ht|].
  by rewrite Hw.
Defined.

(** X19 at the reply to [hello]. *)
Lemma composeReply_records_witness :
  (length (bytes_of Example.peeled (sessionId Example.ch)) < 256
   ∧ (@composeReply Example.collaborators Example.peeled Example.ch
        [] Example.sessionKey0 Example.world0).1
     = Ret (reply_layout (entropy Example.world0 <$> seq 0 12)
              (Example.sessionKey0 ++ replicate 16 xff) (replicate 32 x09)
              (entropy Example.world0 <$> seq 12 4)
              (entropy Example.world0 <$> seq 16 68), None))
  ∧ ∃ reply sh cert,
      reply = reply_layout (entropy Example.world0 <$> seq 0 12)
                (Example.sessionKey0 ++ replicate 16 xff) (replicate 32 x09)
                (entropy Example.world0 <$> seq 12 4)
                (entropy Example.world0 <$> seq 16 68)
      ∧ length sh = 122
      ∧ reply = ([x16; x03; x03] ++ put_u16 (length sh) ++ sh)
                ++ ([x14; x03; x03] ++ put_u16 1 ++ [x01])
                ++ ([x17; x03; x03] ++ put_u16 (length cert) ++ cert)
      ∧ length reply = 206.
Proof.
  assert (Hs : length (bytes_of Example.peeled (sessionId Example.ch)) < 256)
    by (vm_compute; lia).
  assert (Hrun :
    @composeReply Example.collaborators Example.peeled Example.ch
      [] Example.sessionKey0 Example.world0
    = (Ret (reply_layout (entropy Example.world0 <$> seq 0 12)
              (Example.sessionKey0 ++ replicate 16 xff) (replicate 32 x09)
              (entropy Example.world0 <$> seq 12 4)
              (entropy Example.world0 <$> seq 16 68), None),
       (@composeReply Example.collaborators Example.peeled Example.ch
          [] Example.sessionKey0 Example.world0).2))
    by (vm_compute; reflexivity).
  split; [split; [exact Hs | by rewrite Hrun]|].
  destruct (@composeReply_records Example.collaborators _ _ _ _ _ _ _ Hs Hrun)
    as (sh & cert & _ & Hl & _ & Heq & Hlen).
  eexists _, sh, cert. split; [reflexivity|]. split; [exact Hl|].
  split; [exact Heq | exact Hlen].
Defined.

(** The packet [hello_zero] and what the decoder makes of it. *)
Lemma hello_zero_parses :
  parseClientHello Example2.hello_zero (whole Example2.hello_zero)
  = (Example2.peeled_zero, Some Example.ch, None).
Proof. vm_compute. reflexivity. Defined.

(** X21 at [hello_zero], whose random the key exchange of [Example2]
    turns down. *)
Lemma PrepareConnection_invalid_key_witness :
  (parseClientHello Example2.hello_zero (whole Example2.hello_zero)
   = (Example2.peeled_zero, Some Example.ch, None)
   ∧ (bytes_of Example2.peeled_zero (random Example.ch) ∉ usedRandom Example.world0)
   ∧ @ecdh_Unmarshal Example2.collaborators
       (bytes_of Example2.peeled_zero (random Example.ch)) = None)
  ∧ ∃ w',
      @PrepareConnection Example2.collaborators Example2.hello_zero
        (whole Example2.hello_zero) Example2.sta Example.conn Example.world0
      = (Ret (mkClientInfo EmptyString [], None, Some ErrInvalidPubKey), w')
      ∧ usedRandom w' = {[ replicate 32 x00 ]} ∪ usedRandom Example.world0.
Proof.
  assert (H1 := hello_zero_parses).
  assert (H2 : bytes_of Example2.peeled_zero (random Example.ch)
               ∉ usedRandom Example.world0) by apply not_elem_of_empty.
  assert (H3 : @ecdh_Unmarshal Example2.collaborators
                 (bytes_of Example2.peeled_zero (random Example.ch)) = None)
    by (vm_compute; reflexivity).
  split; [by split_and!|].
  destruct (@PrepareConnection_invalid_key Example2.collaborators _ _ _ _
              Example2.sta Example.conn Example.world0 H1 H2 H3)
    as (w' & Hrun & _ & Hu & _).
  exists w'. split; [exact Hrun|]. rewrite Hu. f_equal.
Defined.

(** X23 at [hello], sent twice. *)
Lemma PrepareConnection_second_attempt_witness :
  parseClientHello Example.hello (whole Example.hello)
  = (Example.peeled, Some Example.ch, None)
  ∧ ∃ w2,
      @PrepareConnection Example.collaborators Example.hello (whole Example.hello)
        Example.sta Example.conn
        (@PrepareConnection Example.collaborators Example.hello (whole Example.hello)
           Example.sta Example.conn Example.world0).2
      = (Ret (mkClientInfo EmptyString [], None, Some ErrReplay), w2).
Proof.
  split; [exact hello_parses|].
  destruct (@PrepareConnection_second_attempt Example.collaborators
              Example.hello Example.hello (whole Example.hello) (whole Example.hello)
              Example.peeled Example.peeled Example.ch Example.ch
              Example.sta Example.sta Example.conn Example.conn Example.world0
              _ _ hello_parses (surjective_pairing _) hello_parses eq_refl)
    as (w2 & Hrun & _).
  exists w2. exact Hrun.
Defined.

(** X25 at [hello]: the key share is copied to bytes 71..102 of
    [peeled]. *)
Lemma unmarshalClientHello_in_place_witness :
  (parseClientHello Example.hello (whole Example.hello)
   = (Example.peeled, Some Example.ch, None)
   ∧ @ecdh_Unmarshal Example.collaborators
       (bytes_of Example.peeled (random Example.ch)) = Some Example.random0
   ∧ parseKeyShare Example.peeled
       (default nil_slice (extensions Example.ch !! (x00, x33)))
     = (Slice 97 32 32, None))
  ∧ ∃ mem' ai err w',
      @unmarshalClientHello Example.collaborators Example.peeled Example.ch [x01]
        Example.world0 = (Ret (mem', ai, err), w')
      ∧ length mem' = length Example.peeled
      ∧ take 32 (drop 71 mem') = Example.share0
      ∧ take 2 (drop 71 Example.peeled) = [x00; x02].
Proof.
  assert (H1 := hello_parses).
  assert (H2 : @ecdh_Unmarshal Example.collaborators
                 (bytes_of Example.peeled (random Example.ch)) = Some Example.random0)
    by (vm_compute; reflexivity).
  assert (H3 := hello_keyShare).
  split; [by split_and!|].
  destruct (@unmarshalClientHello_in_place Example.collaborators
              Example.hello (whole Example.hello) Example.peeled Example.ch
              [x01] Example.random0 (Slice 97 32 32) Example.world0 H1 H2 H3)
    as (mem' & ai & err & w' & Hrun & Hlen & _ & Hks & _).
  exists mem', ai, err, w'. split; [exact Hrun|]. split; [exact Hlen|].
  split; [|reflexivity].
  change (39 + sessionIdLen Example.ch) with 71 in Hks. rewrite Hks.
  exact hello_share.
Defined.
